(** * smartstore-keywords: keyword scoring, title generation, category recommendation

    A shallow embedding of the three engines of the repository
    ([KeywordScorer] in [lib/utils/index.ts], [TitleGenerator] in
    [lib/algorithms/title-generator.ts], [CategoryRecommender] in
    [lib/algorithms/category-recommender.ts]) and the properties stated about
    them.

    Modelling conventions.
    - A JavaScript string is the list of its UTF-16 code units ([jsstring]);
      [length] is the JavaScript [.length].  String literals of the source are
      written [js "..."], which decodes the UTF-8 text of this file.
    - A JavaScript number is an exact rational ([Q]); NaN, infinities and
      binary rounding are outside the model, except for the score of a
      keyword, which is stated on binary64 numbers ([Double]) with all three.
      Count-valued configuration ([maxLength], [maxKeywords],
      [maxSuggestions]) is a natural number.
    - An optional field is an [option]; truthiness tests of the source
      ([x || d], [if (x)]) are written out.
    - Library functions whose tables are not part of the repository are
      interfaces: [String.prototype.toLowerCase], [Math.log] and the regular
      expression engine behind [new RegExp(p, 'gi').test(s)].  Theorems hold
      for every implementation; concrete runs use the instances at the end of
      the first part.
    - [Array.prototype.sort] is stable; it is modelled by stable insertion.
    - The [BaseEntity] fields that the engines fill from the clock and the
      random generator ([id], [created_at], [updated_at] of a generated
      [ProductTitle] or [CategorySuggestion]) are read by no operation and are
      left out of the generated records. *)

From Stdlib Require Import List Bool Arith NArith ZArith QArith Qabs Qround Qminmax.
From Stdlib Require Import Qpower.
From Stdlib Require Import String Ascii DecimalString Lia Lqa Sorting Permutation.
Import ListNotations.

(* ================================================================= *)
(** * Part I: JavaScript values *)
(* ================================================================= *)

Module Js.

(** ** Strings *)

Definition jsstring := list N.

Fixpoint utf8_code_points (bs : list N) : list N :=
  match bs with
  | [] => []
  | b0 :: r0 =>
    if (b0 <? 128)%N then b0 :: utf8_code_points r0
    else if (b0 <? 224)%N then
      match r0 with
      | b1 :: r1 => ((b0 mod 32) * 64 + b1 mod 64)%N :: utf8_code_points r1
      | _ => []
      end
    else if (b0 <? 240)%N then
      match r0 with
      | b1 :: b2 :: r2 =>
        ((b0 mod 16) * 4096 + (b1 mod 64) * 64 + b2 mod 64)%N :: utf8_code_points r2
      | _ => []
      end
    else
      match r0 with
      | b1 :: b2 :: b3 :: r3 =>
        ((b0 mod 8) * 262144 + (b1 mod 64) * 4096 + (b2 mod 64) * 64 + b3 mod 64)%N
          :: utf8_code_points r3
      | _ => []
      end
  end.

Definition utf16_units (cp : N) : list N :=
  if (cp <? 65536)%N then [cp]
  else let v := (cp - 65536)%N in [(55296 + v / 1024)%N; (56320 + v mod 1024)%N].

(** [js "text"] is the JavaScript string written ["text"] in the source. *)
Definition js (s : string) : jsstring :=
  flat_map utf16_units (utf8_code_points (map N_of_ascii (list_ascii_of_string s))).

Definition jsstring_eq_dec : forall a b : jsstring, {a = b} + {a <> b} :=
  list_eq_dec N.eq_dec.

Definition streq (a b : jsstring) : bool :=
  if jsstring_eq_dec a b then true else false.

(** [String(n)] for a natural number. *)
Definition ofNat (n : nat) : jsstring :=
  js (NilEmpty.string_of_uint (Nat.to_uint n)).

(** The [\s] class of regular expressions, which is also what [trim] strips. *)
Definition isWhiteSpace (c : N) : bool :=
  ((9 <=? c) && (c <=? 13) || (c =? 32) || (c =? 160) || (c =? 5760)
   || (8192 <=? c) && (c <=? 8202) || (c =? 8232) || (c =? 8233)
   || (c =? 8239) || (c =? 8287) || (c =? 12288) || (c =? 65279))%N.

Definition SPACE : N := 32%N.

(** [[가-힣]], [[A-Za-z]], [[A-Z]], [[0-9]] and [\w]. *)
Definition isHangul (c : N) : bool := ((44032 <=? c) && (c <=? 55203))%N.
Definition isUpper (c : N) : bool := ((65 <=? c) && (c <=? 90))%N.
Definition isLatin (c : N) : bool := (isUpper c || (97 <=? c) && (c <=? 122))%N.
Definition isDigit (c : N) : bool := ((48 <=? c) && (c <=? 57))%N.
Definition isWordChar (c : N) : bool := (isLatin c || isDigit c || (c =? 95))%N.

(** [s.split(/\s+/)]: never empty; a leading or trailing run of white space
    leaves an empty first or last piece. *)
Fixpoint split_ws (s : jsstring) : list jsstring :=
  match s with
  | [] => [[]]
  | c :: rest =>
    if isWhiteSpace c then
      match rest with
      | c' :: _ => if isWhiteSpace c' then split_ws rest else [] :: split_ws rest
      | [] => [] :: split_ws rest
      end
    else
      match split_ws rest with
      | w :: ws => (c :: w) :: ws
      | [] => [[c]]
      end
  end.

(** [parts.join(sep)]. *)
Fixpoint join (sep : jsstring) (parts : list jsstring) : jsstring :=
  match parts with
  | [] => []
  | [p] => p
  | p :: ps => p ++ sep ++ join sep ps
  end.

Fixpoint dropWhile {A} (p : A -> bool) (l : list A) : list A :=
  match l with
  | [] => []
  | x :: l' => if p x then dropWhile p l' else l
  end.

(** [s.trim()]. *)
Definition trim (s : jsstring) : jsstring :=
  rev (dropWhile isWhiteSpace (rev (dropWhile isWhiteSpace s))).

Fixpoint startsWith (s p : jsstring) : bool :=
  match p, s with
  | [], _ => true
  | _ :: _, [] => false
  | a :: p', b :: s' => (a =? b)%N && startsWith s' p'
  end.

(** [s.includes(t)]. *)
Fixpoint includes (s t : jsstring) : bool :=
  startsWith s t ||
  match s with
  | [] => false
  | _ :: s' => includes s' t
  end.

(** [(s.match(/[class]/g) || []).length]. *)
Definition countMatches (p : N -> bool) (s : jsstring) : nat :=
  List.length (filter p s).

(** [/[class]{3,}/.test(s)]. *)
Fixpoint hasRunOf3 (p : N -> bool) (s : jsstring) : bool :=
  match s with
  | a :: ((b :: c :: _) as s') => (p a && p b && p c) || hasRunOf3 p s'
  | _ => false
  end.

(** [s.replace(/\s+/g, ' ')]. *)
Fixpoint collapseWhiteSpace (s : jsstring) : jsstring :=
  match s with
  | [] => []
  | c :: rest =>
    if isWhiteSpace c then
      match rest with
      | c' :: _ => if isWhiteSpace c' then collapseWhiteSpace rest
                   else SPACE :: collapseWhiteSpace rest
      | [] => [SPACE]
      end
    else c :: collapseWhiteSpace rest
  end.

(** [s.replace(/([p])([q])/g, '$1 $2')]: matches are found left to right and
    do not overlap, the scan resumes after the second character of a match. *)
Fixpoint spaceBetween (p q : N -> bool) (s : jsstring) : jsstring :=
  match s with
  | [] => []
  | a :: s' =>
    match s' with
    | b :: s'' =>
      if p a && q b then a :: SPACE :: b :: spaceBetween p q s''
      else a :: spaceBetween p q s'
    | [] => [a]
    end
  end.

(** [s.replace(/\s/g, '')]. *)
Definition stripWhiteSpace (s : jsstring) : jsstring :=
  filter (fun c => negb (isWhiteSpace c)) s.

(** ** Numbers *)

Open Scope Q_scope.

(** [Math.round]: the nearest integer, halves upwards. *)
Definition Math_round (x : Q) : Q := inject_Z (Qfloor (x + 0.5)).

(** [s.length] and [a.length] as numbers. *)
Definition len {A} (l : list A) : Q := inject_Z (Z.of_nat (List.length l)).

(** [xs.reduce((a, b) => a + b, 0)]. *)
Definition sum (xs : list Q) : Q := fold_left Qplus xs 0.

(** [Math.min(...xs)] and [Math.max(...xs)] of a non-empty list. *)
Definition minOf (x : Q) (xs : list Q) : Q := fold_left Qmin xs x.
Definition maxOf (x : Q) (xs : list Q) : Q := fold_left Qmax xs x.

(** [x || 0] for an optional number: absent and zero both give zero. *)
Definition orZero (x : option Q) : Q :=
  match x with
  | Some v => v
  | None => 0
  end.

(** Truthiness of an optional number and of an optional string. *)
Definition truthyNum (x : option Q) : bool :=
  match x with
  | Some v => negb (Qeq_bool v 0)
  | None => false
  end.

Definition truthyStr (x : option jsstring) : bool :=
  match x with
  | Some (_ :: _) => true
  | _ => false
  end.

(** [x || ''] for an optional string. *)
Definition orEmpty (x : option jsstring) : jsstring :=
  match x with
  | Some v => v
  | None => []
  end.

(** ** Arrays *)

Section Sort.
Context {A : Type} (compareFn : A -> A -> Q).

(** [x] is placed before the first element that the comparator does not put
    strictly ahead of it, so equal elements keep their order. *)
Fixpoint insertSorted (x : A) (l : list A) : list A :=
  match l with
  | [] => [x]
  | y :: l' => if Qle_bool (compareFn x y) 0 then x :: l else y :: insertSorted x l'
  end.

(** [l.sort(compareFn)]. *)
Definition sort (l : list A) : list A := fold_right insertSorted [] l.

End Sort.

(** [l.slice(0, n)] for a natural [n]. *)
Definition slice0 {A} (n : nat) (l : list A) : list A := firstn n l.

(** [l.findIndex(p)], [None] for [-1]. *)
Fixpoint findIndex {A} (p : A -> bool) (l : list A) : option nat :=
  match l with
  | [] => None
  | x :: l' => if p x then Some 0%nat else option_map S (findIndex p l')
  end.

(** ** Library interfaces *)

Class StringCase := { toLowerCase : jsstring -> jsstring }.

Class MathLib := { Math_log : Q -> Q }.

(** [new RegExp(pattern, 'gi').test(text)]; [None] when the pattern does not
    compile and the constructor throws. *)
Class RegExpEngine := { RegExp_test : jsstring -> jsstring -> option bool }.

(** Instances for concrete runs: lower-casing of the ASCII letters (which is
    [toLowerCase] on strings of ASCII and Hangul characters) and patterns
    read as literal text (which is the engine on patterns without
    metacharacters). *)
Definition asciiLower (c : N) : N := if isUpper c then (c + 32)%N else c.

Definition asciiCase : StringCase := {| toLowerCase := map asciiLower |}.

Definition literalRegExp : RegExpEngine :=
  {| RegExp_test := fun pattern text =>
       Some (includes (map asciiLower text) (map asciiLower pattern)) |}.

End Js.

(* ================================================================= *)
(** * Part II: the data model ([lib/types]) *)
(* ================================================================= *)

Import Js.
Open Scope Q_scope.

(** Strict comparison of numbers as a boolean. *)
Definition Qlt_bool (x y : Q) : bool := negb (Qle_bool y x).

(** What a call completes with: a thrown [Error] or a returned value. *)
Inductive completion (A : Type) : Type :=
| Throw (message : jsstring)
| Return (value : A).

Arguments Throw {A} message.
Arguments Return {A} value.

Module KeywordTag.
Inductive t := seasonal | event | longtail | trending | brand | category | feature | custom.
End KeywordTag.

Module Keyword.
Record t := {
  id : jsstring;
  created_at : jsstring;
  updated_at : jsstring;
  term : jsstring;
  volume : Q;
  competition : Q;
  weight : option Q;
  notes : option jsstring;
  tags : list KeywordTag.t;
  score : option Q
}.

(** [{ ...keyword, score: s }]. *)
Definition with_score (keyword : t) (s : Q) : t :=
  {| id := id keyword; created_at := created_at keyword; updated_at := updated_at keyword;
     term := term keyword; volume := volume keyword; competition := competition keyword;
     weight := weight keyword; notes := notes keyword; tags := tags keyword;
     score := Some s |}.
End Keyword.

Module AlgorithmWeights.
Record t := { volume : Q; competition : Q; tag : Q; ctr : option Q }.
End AlgorithmWeights.

(** [keyof ProductTitleComponents]. *)
Module ComponentKey.
Inductive t := category | demographic | keywords | features | usage.

Definition eqb (a b : t) : bool :=
  match a, b with
  | category, category | demographic, demographic | keywords, keywords
  | features, features | usage, usage => true
  | _, _ => false
  end.
End ComponentKey.

Module ProductTitleComponents.
Record t := {
  category : option jsstring;
  demographic : option jsstring;
  keywords : list jsstring;
  features : option (list jsstring);
  usage : option jsstring
}.
End ProductTitleComponents.

Module SpacingVariants.
Record t := { spaced : jsstring; unspaced : jsstring }.
End SpacingVariants.

Module ProductTitle.
Record t := {
  keyword_ids : list jsstring;
  components : ProductTitleComponents.t;
  title_text : jsstring;
  score : Q;
  issues : list jsstring;
  spacing_variants : option SpacingVariants.t
}.
End ProductTitle.

Module TitleTemplate.
Record t := {
  name : jsstring;
  pattern : jsstring;
  required_components : list ComponentKey.t;
  max_length : nat;
  separator : jsstring
}.
End TitleTemplate.

Module FormError.
Record t := { field : jsstring; message : jsstring }.
End FormError.

Module ValidationResult.
Record t := { isValid : bool; errors : list FormError.t }.
End ValidationResult.

Module AttributeType.
Inductive t := text | number | select | boolean.
End AttributeType.

Module CategoryAttribute.
Record t := {
  name : jsstring;
  type : AttributeType.t;
  required : bool;
  options : option (list jsstring);
  placeholder : option jsstring
}.
End CategoryAttribute.

Module CategorySuggestion.
Record t := {
  name : jsstring;
  reasons : list jsstring;
  attributes : list CategoryAttribute.t;
  confidence : Q
}.
End CategorySuggestion.

(* ================================================================= *)
(** * Part III: [KeywordScorer] ([lib/algorithms/keyword-scoring]) *)
(* ================================================================= *)

Module KeywordGroupStats.
Record t := {
  minVolume : Q;
  maxVolume : Q;
  avgVolume : Q;
  minCompetition : Q;
  maxCompetition : Q;
  avgCompetition : Q;
  totalKeywords : Q
}.
End KeywordGroupStats.

Module ScoreBreakdown.
Record t := {
  volumeScore : Q;
  competitionPenalty : Q;
  tagBonus : Q;
  ctrBonus : option Q
}.
End ScoreBreakdown.

Module KeywordScoreResult.
Record t := {
  score : Q;
  normalizedVolume : Q;
  normalizedCompetition : Q;
  tagWeight : Q;
  breakdown : ScoreBreakdown.t;
  explanation : jsstring
}.
End KeywordScoreResult.

Module KeywordScorer.

(** The instance: its weights and the statistics of the last non-empty
    group. *)
Record t := {
  weights : AlgorithmWeights.t;
  groupStats : option KeywordGroupStats.t
}.

Definition constructor (weights : AlgorithmWeights.t) : t :=
  {| weights := weights; groupStats := None |}.

Definition calculateGroupStats (this : t) (keywords : list Keyword.t)
  : KeywordGroupStats.t * t :=
  match keywords with
  | [] =>
    ({| KeywordGroupStats.minVolume := 0;
        KeywordGroupStats.maxVolume := 1;
        KeywordGroupStats.avgVolume := 0;
        KeywordGroupStats.minCompetition := 0;
        KeywordGroupStats.maxCompetition := 1;
        KeywordGroupStats.avgCompetition := 0;
        KeywordGroupStats.totalKeywords := 0 |}, this)
  | k :: ks =>
    let volumes := map Keyword.volume keywords in
    let competitions := map Keyword.competition keywords in
    let stats :=
      {| KeywordGroupStats.minVolume := minOf (Keyword.volume k) (map Keyword.volume ks);
         KeywordGroupStats.maxVolume := maxOf (Keyword.volume k) (map Keyword.volume ks);
         KeywordGroupStats.avgVolume := sum volumes / len volumes;
         KeywordGroupStats.minCompetition :=
           minOf (Keyword.competition k) (map Keyword.competition ks);
         KeywordGroupStats.maxCompetition :=
           maxOf (Keyword.competition k) (map Keyword.competition ks);
         KeywordGroupStats.avgCompetition := sum competitions / len competitions;
         KeywordGroupStats.totalKeywords := len keywords |} in
    (stats, {| weights := weights this; groupStats := Some stats |})
  end.

Definition getDefaultStats : KeywordGroupStats.t :=
  {| KeywordGroupStats.minVolume := 0;
     KeywordGroupStats.maxVolume := 10000;
     KeywordGroupStats.avgVolume := 1000;
     KeywordGroupStats.minCompetition := 0;
     KeywordGroupStats.maxCompetition := 100;
     KeywordGroupStats.avgCompetition := 50;
     KeywordGroupStats.totalKeywords := 1 |}.

Section WithLog.
Context {ML : MathLib}.

Definition normalizeVolume (volume : Q) (stats : KeywordGroupStats.t) : Q :=
  if Qeq_bool (KeywordGroupStats.maxVolume stats) (KeywordGroupStats.minVolume stats)
  then 0.5
  else
    let logVolume := Math_log (volume + 1) in
    let logMin := Math_log (KeywordGroupStats.minVolume stats + 1) in
    let logMax := Math_log (KeywordGroupStats.maxVolume stats + 1) in
    (logVolume - logMin) / (logMax - logMin).

Definition tagWeights (tag : KeywordTag.t) : Q :=
  match tag with
  | KeywordTag.trending => 0.8
  | KeywordTag.longtail => 0.6
  | KeywordTag.seasonal => 0.4
  | KeywordTag.event => 0.3
  | KeywordTag.brand => 0.7
  | KeywordTag.category => 0.5
  | KeywordTag.feature => 0.4
  | KeywordTag.custom => 0.2
  end.

Definition calculateTagWeight (tags : list KeywordTag.t) : Q :=
  match tags with
  | [] => 0
  | _ :: _ =>
    let totalWeight := fold_left (fun sum tag => sum + tagWeights tag) tags 0 in
    let avgWeight := totalWeight / len tags in
    let tagCountBonus := Qmin (len tags / 3) 1 * 0.2 in
    Qmin 1 (avgWeight + tagCountBonus)
  end.

Definition tagDescriptions (tag : KeywordTag.t) : jsstring :=
  match tag with
  | KeywordTag.trending => js "트렌딩 키워드"
  | KeywordTag.longtail => js "롱테일 키워드"
  | KeywordTag.seasonal => js "계절성 키워드"
  | KeywordTag.event => js "이벤트성 키워드"
  | KeywordTag.brand => js "브랜드 키워드"
  | KeywordTag.category => js "카테고리 키워드"
  | KeywordTag.feature => js "특징 키워드"
  | KeywordTag.custom => js "커스텀 키워드"
  end.

Definition generateExplanation (keyword : Keyword.t)
  (normalizedVolume normalizedCompetition ctrBonus : Q) : jsstring :=
  let volumeNote :=
    if Qlt_bool 0.8 normalizedVolume
    then js "높은 검색량으로 노출 기회가 많습니다"
    else if Qlt_bool 0.5 normalizedVolume
    then js "적당한 검색량으로 안정적인 노출이 가능합니다"
    else js "낮은 검색량이지만 틈새 시장 공략이 가능합니다" in
  let competitionNote :=
    if Qlt_bool normalizedCompetition 0.3
    then js "낮은 경쟁도로 상위 노출이 유리합니다"
    else if Qlt_bool normalizedCompetition 0.7
    then js "중간 경쟁도로 적절한 노력이 필요합니다"
    else js "높은 경쟁도로 치열한 경쟁이 예상됩니다" in
  let tagNote :=
    match Keyword.tags keyword with
    | [] => []
    | _ :: _ =>
      [join (js ", ") (map tagDescriptions (Keyword.tags keyword)) ++ js " 특성을 가집니다"]
    end in
  let ctrNote :=
    if Qlt_bool 0 ctrBonus then [js "높은 CTR 가중치가 적용되었습니다"] else [] in
  join (js ". ") ([volumeNote; competitionNote] ++ tagNote ++ ctrNote) ++ js ".".

Definition calculateScore (this : t) (keyword : Keyword.t)
  (groupStats : option KeywordGroupStats.t) : KeywordScoreResult.t :=
  let stats :=
    match groupStats with
    | Some s => s
    | None =>
      match KeywordScorer.groupStats this with
      | Some s => s
      | None => getDefaultStats
      end
    end in
  let normalizedVolume := normalizeVolume (Keyword.volume keyword) stats in
  let normalizedCompetition := Keyword.competition keyword / 100 in
  let tagWeight := calculateTagWeight (Keyword.tags keyword) in
  let volumeScore := normalizedVolume * AlgorithmWeights.volume (weights this) in
  let competitionPenalty :=
    normalizedCompetition * AlgorithmWeights.competition (weights this) in
  let tagBonus := tagWeight * AlgorithmWeights.tag (weights this) in
  let ctrBonus :=
    if truthyNum (Keyword.weight keyword) && truthyNum (AlgorithmWeights.ctr (weights this))
    then orZero (Keyword.weight keyword) * orZero (AlgorithmWeights.ctr (weights this))
    else 0 in
  let rawScore := (volumeScore + tagBonus + ctrBonus) / (competitionPenalty + 1) in
  let finalScore := Qmin 100 (Qmax 0 (rawScore * 100)) in
  let explanation :=
    generateExplanation keyword normalizedVolume normalizedCompetition ctrBonus in
  {| KeywordScoreResult.score := Math_round (finalScore * 100) / 100;
     KeywordScoreResult.normalizedVolume := normalizedVolume;
     KeywordScoreResult.normalizedCompetition := normalizedCompetition;
     KeywordScoreResult.tagWeight := tagWeight;
     KeywordScoreResult.breakdown :=
       {| ScoreBreakdown.volumeScore := volumeScore;
          ScoreBreakdown.competitionPenalty := competitionPenalty;
          ScoreBreakdown.tagBonus := tagBonus;
          ScoreBreakdown.ctrBonus := if Qlt_bool 0 ctrBonus then Some ctrBonus else None |};
     KeywordScoreResult.explanation := explanation |}.

Definition calculateScores (this : t) (keywords : list Keyword.t) : list Keyword.t * t :=
  let (stats, this') := calculateGroupStats this keywords in
  (map (fun keyword =>
          let scoreResult := calculateScore this' keyword (Some stats) in
          Keyword.with_score keyword (KeywordScoreResult.score scoreResult))
       keywords,
   this').

End WithLog.

End KeywordScorer.

(* ================================================================= *)
(** * Part IV: [TitleGenerator] ([lib/algorithms/title-generator.ts]) *)
(* ================================================================= *)

Module TitleGenerationConfig.
Record t := {
  template : TitleTemplate.t;
  stopwords : list jsstring;
  maxLength : nat;
  minKeywords : nat;
  maxKeywords : nat;
  prioritizeKeywords : bool;
  removeDuplicates : bool;
  generateSpacingVariants : bool
}.
End TitleGenerationConfig.

Module QualityBreakdown.
Record t := {
  keywordPlacement : Q;
  readability : Q;
  length : Q;
  uniqueness : Q
}.
End QualityBreakdown.

Module TitleQualityScore.
Record t := {
  overall : Q;
  breakdown : QualityBreakdown.t;
  issues : list jsstring;
  suggestions : list jsstring
}.
End TitleQualityScore.

(** The objects [generateTitles] returns: a [ProductTitle] spread together
    with its [TitleQualityScore], whose [issues] replace the title's. *)
Module ScoredTitle.
Record t := {
  keyword_ids : list jsstring;
  components : ProductTitleComponents.t;
  title_text : jsstring;
  score : Q;
  spacing_variants : option SpacingVariants.t;
  overall : Q;
  breakdown : QualityBreakdown.t;
  issues : list jsstring;
  suggestions : list jsstring
}.

(** [{ ...title, ...quality }]. *)
Definition spread (title : ProductTitle.t) (quality : TitleQualityScore.t) : t :=
  {| keyword_ids := ProductTitle.keyword_ids title;
     components := ProductTitle.components title;
     title_text := ProductTitle.title_text title;
     score := ProductTitle.score title;
     spacing_variants := ProductTitle.spacing_variants title;
     overall := TitleQualityScore.overall quality;
     breakdown := TitleQualityScore.breakdown quality;
     issues := TitleQualityScore.issues quality;
     suggestions := TitleQualityScore.suggestions quality |}.
End ScoredTitle.

Module TitleGenerator.

Section WithConfig.
Context {SC : StringCase}.
Variable config : TitleGenerationConfig.t.

Definition sp : jsstring := js " ".

Definition createTitleFromPattern (titleText : jsstring)
  (components : ProductTitleComponents.t) (keywords : list jsstring) : ProductTitle.t :=
  {| ProductTitle.keyword_ids := [];
     ProductTitle.components := components;
     ProductTitle.title_text := titleText;
     ProductTitle.score := 0;
     ProductTitle.issues := [];
     ProductTitle.spacing_variants := None |}.

(** The first loop nest of [generateKeywordCombinations]: for [i < j], the
    pair and the swapped pair. *)
Fixpoint pairCombinations (keywords : list jsstring) : list (list jsstring) :=
  match keywords with
  | [] => []
  | ki :: rest => flat_map (fun kj => [[ki; kj]; [kj; ki]]) rest ++ pairCombinations rest
  end.

Fixpoint laterPairs (keywords : list jsstring) : list (jsstring * jsstring) :=
  match keywords with
  | [] => []
  | kj :: rest => map (fun kk => (kj, kk)) rest ++ laterPairs rest
  end.

(** The second loop nest: for [i < j < k], the triple. *)
Fixpoint tripleCombinations (keywords : list jsstring) : list (list jsstring) :=
  match keywords with
  | [] => []
  | ki :: rest =>
    map (fun jk => [ki; fst jk; snd jk]) (laterPairs rest) ++ tripleCombinations rest
  end.

Definition generateKeywordCombinations (keywords : list jsstring) : list (list jsstring) :=
  pairCombinations keywords ++
  (if (3 <=? List.length keywords)%nat then tripleCombinations keywords else []).

Definition generateTitleCandidates (components : ProductTitleComponents.t)
  (keywords : list jsstring) : list ProductTitle.t :=
  let category := ProductTitleComponents.category components in
  let demographic := ProductTitleComponents.demographic components in
  let usage := ProductTitleComponents.usage components in
  let kw := join sp keywords in
  let cat := orEmpty category in
  let feats :=
    join sp (match ProductTitleComponents.features components with
             | Some fs => fs
             | None => []
             end) in
  let use := orEmpty usage in
  let candidates :=
    [createTitleFromPattern (trim (kw ++ sp ++ cat ++ sp ++ feats ++ sp ++ use))
       components keywords]
    ++ (if truthyStr category
        then [createTitleFromPattern (trim (cat ++ sp ++ kw ++ sp ++ feats ++ sp ++ use))
                components keywords]
        else [])
    ++ (match ProductTitleComponents.features components with
        | Some (f0 :: _) =>
          [createTitleFromPattern (trim (kw ++ sp ++ f0 ++ sp ++ cat ++ sp ++ use))
             components keywords]
        | _ => []
        end)
    ++ (if truthyStr demographic
        then [createTitleFromPattern
                (trim (orEmpty demographic ++ sp ++ kw ++ sp ++ cat ++ sp ++ feats))
                components keywords]
        else [])
    ++ (if truthyStr usage
        then [createTitleFromPattern (trim (use ++ sp ++ kw ++ sp ++ cat ++ sp ++ feats))
                components keywords]
        else [])
    ++ (if (2 <=? List.length keywords)%nat
        then map (fun combination =>
                    createTitleFromPattern
                      (trim (join sp combination ++ sp ++ cat ++ sp ++ feats ++ sp ++ use))
                      components combination)
                 (slice0 5 (generateKeywordCombinations keywords))
        else []) in
  filter (fun candidate => (0 <? List.length (ProductTitle.title_text candidate))%nat)
         candidates.

(** [new Map(allKeywords.map(k => [k.term.toLowerCase(), k])).get(key)]: the
    last keyword with that key. *)
Definition keywordMap_get (allKeywords : list Keyword.t) (key : jsstring)
  : option Keyword.t :=
  find (fun k => streq (toLowerCase (Keyword.term k)) key) (rev allKeywords).

Definition selectAndSortKeywords (allKeywords : list Keyword.t)
  (requestedKeywords : list jsstring) : list jsstring :=
  let selectedKeywords :=
    map (fun term =>
           let keyword := keywordMap_get allKeywords (toLowerCase term) in
           (term, orZero (match keyword with
                          | Some k => Keyword.score k
                          | None => None
                          end)))
        requestedKeywords in
  let sorted := sort (fun a b => snd b - snd a) selectedKeywords in
  let limitedKeywords := slice0 (TitleGenerationConfig.maxKeywords config) sorted in
  map fst limitedKeywords.

Definition isStopword (word : jsstring) : bool :=
  existsb (fun stopword => includes (toLowerCase word) (toLowerCase stopword))
          (TitleGenerationConfig.stopwords config).

(** Returns [(text, removedWords)]. *)
Definition removeStopwords (text : jsstring) : jsstring * list jsstring :=
  let words := split_ws text in
  let filteredWords := filter (fun word => negb (isStopword word)) words in
  let removedWords := filter isStopword words in
  (join sp filteredWords, removedWords).

(** The [filter] of [removeDuplicateWords], with the set of words seen so
    far; returns the words kept and the words removed. *)
Fixpoint filterSeen (seenWords : list jsstring) (words : list jsstring)
  : list jsstring * list jsstring :=
  match words with
  | [] => ([], [])
  | word :: rest =>
    let lowerWord := toLowerCase word in
    if existsb (streq lowerWord) seenWords then
      let (uniqueWords, removedDuplicates) := filterSeen seenWords rest in
      (uniqueWords, word :: removedDuplicates)
    else
      let (uniqueWords, removedDuplicates) := filterSeen (lowerWord :: seenWords) rest in
      (word :: uniqueWords, removedDuplicates)
  end.

(** Returns [(text, removedDuplicates)]. *)
Definition removeDuplicateWords (text : jsstring) : jsstring * list jsstring :=
  let (uniqueWords, removedDuplicates) := filterSeen [] (split_ws text) in
  (join sp uniqueWords, removedDuplicates).

Definition normalizeSpacing (text : jsstring) : jsstring :=
  trim (spaceBetween isDigit isHangul
         (spaceBetween isLatin isHangul
           (spaceBetween isHangul isLatin
             (collapseWhiteSpace text)))).

Definition removeSpacing (text : jsstring) : jsstring := stripWhiteSpace text.

Definition generateSpacingVariants (title : jsstring) : SpacingVariants.t :=
  let spaced := normalizeSpacing title in
  let unspaced := removeSpacing spaced in
  {| SpacingVariants.spaced := spaced; SpacingVariants.unspaced := unspaced |}.

Definition postProcessTitle (title : ProductTitle.t) : ProductTitle.t :=
  let processedText := ProductTitle.title_text title in
  let (filteredText, removedWords) := removeStopwords processedText in
  let processedText := filteredText in
  let issues1 :=
    match removedWords with
    | [] => []
    | _ :: _ => [js "금칙어 제거됨: " ++ join (js ", ") removedWords]
    end in
  let (processedText, issues2) :=
    if TitleGenerationConfig.removeDuplicates config then
      let (dedupedText, removedDuplicates) := removeDuplicateWords processedText in
      (dedupedText,
       match removedDuplicates with
       | [] => []
       | _ :: _ => [js "중복 단어 제거됨: " ++ join (js ", ") removedDuplicates]
       end)
    else (processedText, []) in
  let issues3 :=
    if (TitleGenerationConfig.maxLength config <? List.length processedText)%nat
    then [js "길이 초과 (" ++ ofNat (List.length processedText) ++ js "/"
          ++ ofNat (TitleGenerationConfig.maxLength config) ++ js "자)"]
    else [] in
  let spacingVariants :=
    if TitleGenerationConfig.generateSpacingVariants config
    then Some (generateSpacingVariants processedText)
    else None in
  {| ProductTitle.keyword_ids := ProductTitle.keyword_ids title;
     ProductTitle.components := ProductTitle.components title;
     ProductTitle.title_text := processedText;
     ProductTitle.score := ProductTitle.score title;
     ProductTitle.issues := ProductTitle.issues title ++ issues1 ++ issues2 ++ issues3;
     ProductTitle.spacing_variants := spacingVariants |}.

Definition getKeywordsFromTitle (title : jsstring) : list jsstring :=
  slice0 3 (split_ws title).

Definition evaluateKeywordPlacement (title : jsstring) : Q :=
  let words := split_ws title in
  match words with
  | [] => 0
  | _ :: _ =>
    let keywordTerms :=
      if existsb (ComponentKey.eqb ComponentKey.keywords)
           (TitleTemplate.required_components (TitleGenerationConfig.template config))
      then getKeywordsFromTitle title
      else [] in
    let score :=
      fold_left
        (fun score keyword =>
           match findIndex (fun word => includes (toLowerCase word) (toLowerCase keyword))
                           words with
           | Some position =>
             let positionScore :=
               Qmax 0 (1 - inject_Z (Z.of_nat position) / len words) in
             score + positionScore
           | None => score
           end)
        keywordTerms 0 in
    match keywordTerms with
    | _ :: _ => score / len keywordTerms
    | [] => 0.5
    end
  end.

Definition evaluateReadability (title : jsstring) : Q :=
  let score := 1.0 in
  let length := List.length title in
  let score := if ((length <? 10) || (80 <? length))%nat then score - 0.3 else score in
  let wordCount := List.length (split_ws title) in
  let score := if ((wordCount <? 2) || (12 <? wordCount))%nat then score - 0.2 else score in
  let specialCharCount :=
    countMatches (fun c => negb (isWordChar c || isWhiteSpace c || isHangul c)) title in
  let score := if (3 <? specialCharCount)%nat then score - 0.2 else score in
  let score := if hasRunOf3 isUpper title then score - 0.1 else score in
  Qmax 0 score.

Definition evaluateLengthScore (title : jsstring) : Q :=
  let length := len title in
  let maxLength := inject_Z (Z.of_nat (TitleGenerationConfig.maxLength config)) in
  if Qlt_bool maxLength length then 0
  else
    let idealMin := maxLength * 0.6 in
    let idealMax := maxLength * 0.9 in
    if Qle_bool idealMin length && Qle_bool length idealMax then 1.0
    else if Qlt_bool length idealMin then length / idealMin
    else 1.0 - ((length - idealMax) / (maxLength - idealMax)) * 0.3.

Definition commonPhrases : list jsstring :=
  [js "최고"; js "최저가"; js "특가"; js "할인"; js "이벤트"; js "무료배송"].

Definition evaluateUniqueness (title : jsstring) : Q :=
  let uniquenessScore :=
    fold_left (fun score phrase => if includes title phrase then score - 0.1 else score)
              commonPhrases 1.0 in
  let numberCount := countMatches isDigit title in
  let uniquenessScore :=
    if (5 <? numberCount)%nat then uniquenessScore - 0.1 else uniquenessScore in
  Qmax 0 uniquenessScore.

(** Returns [(issues, suggestions)]. *)
Definition analyzeIssues (title : jsstring) (breakdown : QualityBreakdown.t)
  : list jsstring * list jsstring :=
  let placement :=
    if Qlt_bool (QualityBreakdown.keywordPlacement breakdown) 0.7
    then [(js "키워드가 뒤쪽에 배치되어 있습니다",
           js "중요한 키워드를 제목 앞부분에 배치하세요")]
    else [] in
  let readability :=
    if Qlt_bool (QualityBreakdown.readability breakdown) 0.7
    then [(js "가독성이 낮습니다", js "적절한 띄어쓰기와 단어 배치를 확인하세요")]
    else [] in
  let length :=
    if Qlt_bool (QualityBreakdown.length breakdown) 0.8 then
      if (TitleGenerationConfig.maxLength config <? List.length title)%nat
      then [(js "제목이 너무 깁니다", js "불필요한 단어를 제거하여 길이를 줄이세요")]
      else [(js "제목이 너무 짧습니다", js "제품의 특징이나 용도를 추가하세요")]
    else [] in
  let uniqueness :=
    if Qlt_bool (QualityBreakdown.uniqueness breakdown) 0.8
    then [(js "일반적인 표현이 많이 사용되었습니다", js "제품만의 고유한 특징을 강조하세요")]
    else [] in
  let found := placement ++ readability ++ length ++ uniqueness in
  (map fst found, map snd found).

Definition evaluateTitle (title : jsstring) : TitleQualityScore.t :=
  let breakdown :=
    {| QualityBreakdown.keywordPlacement := evaluateKeywordPlacement title;
       QualityBreakdown.readability := evaluateReadability title;
       QualityBreakdown.length := evaluateLengthScore title;
       QualityBreakdown.uniqueness := evaluateUniqueness title |} in
  let overall :=
    (0 + QualityBreakdown.keywordPlacement breakdown
       + QualityBreakdown.readability breakdown
       + QualityBreakdown.length breakdown
       + QualityBreakdown.uniqueness breakdown) / 4 in
  let (issues, suggestions) := analyzeIssues title breakdown in
  {| TitleQualityScore.overall := Math_round (overall * 100) / 100;
     TitleQualityScore.breakdown := breakdown;
     TitleQualityScore.issues := issues;
     TitleQualityScore.suggestions := suggestions |}.

Definition validateInput (components : ProductTitleComponents.t)
  (keywords : list Keyword.t) : ValidationResult.t :=
  let requested := ProductTitleComponents.keywords components in
  let errors1 :=
    match requested with
    | [] => [{| FormError.field := js "keywords";
                FormError.message := js "최소 1개의 키워드가 필요합니다" |}]
    | _ :: _ => []
    end in
  let errors2 :=
    if (TitleGenerationConfig.maxKeywords config <? List.length requested)%nat
    then [{| FormError.field := js "keywords";
             FormError.message :=
               js "키워드는 최대 " ++ ofNat (TitleGenerationConfig.maxKeywords config)
               ++ js "개까지 선택 가능합니다" |}]
    else [] in
  let availableKeywords := map (fun k => toLowerCase (Keyword.term k)) keywords in
  let missingKeywords :=
    filter (fun term => negb (existsb (streq (toLowerCase term)) availableKeywords))
           requested in
  let errors3 :=
    match missingKeywords with
    | _ :: _ => [{| FormError.field := js "keywords";
                    FormError.message :=
                      js "존재하지 않는 키워드: " ++ join (js ", ") missingKeywords |}]
    | [] => []
    end in
  let errors := errors1 ++ errors2 ++ errors3 in
  {| ValidationResult.isValid := (List.length errors =? 0)%nat;
     ValidationResult.errors := errors |}.

Definition generateTitles (components : ProductTitleComponents.t)
  (keywords : list Keyword.t) : completion (list ScoredTitle.t) :=
  let validation := validateInput components keywords in
  if negb (ValidationResult.isValid validation) then
    Throw (js "입력 검증 실패: "
           ++ join (js ", ") (map FormError.message (ValidationResult.errors validation)))
  else
    let selectedKeywords :=
      selectAndSortKeywords keywords (ProductTitleComponents.keywords components) in
    let titleCandidates := generateTitleCandidates components selectedKeywords in
    let processedTitles := map postProcessTitle titleCandidates in
    let scoredTitles :=
      map (fun title =>
             ScoredTitle.spread title (evaluateTitle (ProductTitle.title_text title)))
          processedTitles in
    let topTitles :=
      slice0 10 (sort (fun a b => ScoredTitle.score b - ScoredTitle.score a) scoredTitles) in
    Return topTitles.

End WithConfig.

Definition DEFAULT_TITLE_CONFIG : TitleGenerationConfig.t :=
  {| TitleGenerationConfig.template :=
       {| TitleTemplate.name := js "기본 템플릿";
          TitleTemplate.pattern := js "{keywords} {category} {features} {usage}";
          TitleTemplate.required_components := [ComponentKey.keywords];
          TitleTemplate.max_length := 60;
          TitleTemplate.separator := js " " |};
     TitleGenerationConfig.stopwords :=
       [js "무료"; js "할인"; js "이벤트"; js "증정"; js "당첨"; js "공짜"; js "최저가";
        js "특가"; js "free"; js "sale"; js "discount"; js "win"; js "prize"; js "cheap"];
     TitleGenerationConfig.maxLength := 60;
     TitleGenerationConfig.minKeywords := 1;
     TitleGenerationConfig.maxKeywords := 3;
     TitleGenerationConfig.prioritizeKeywords := true;
     TitleGenerationConfig.removeDuplicates := true;
     TitleGenerationConfig.generateSpacingVariants := true |}.

End TitleGenerator.

(* ================================================================= *)
(** * Part V: [CategoryRecommender] ([lib/algorithms/category-recommender.ts]) *)
(* ================================================================= *)

Module CategoryRule.
Record t := {
  categoryName : jsstring;
  keywords : list jsstring;
  patterns : list jsstring;
  weight : Q;
  confidence : Q;
  reason : jsstring;
  attributes : list CategoryAttribute.t
}.
End CategoryRule.

Module RuleScoreBreakdown.
Record t := {
  keywordScore : Q;
  patternScore : Q;
  frequencyScore : Q;
  finalScore : Q
}.
End RuleScoreBreakdown.

Module CategoryRecommendationDetail.
Record t := {
  suggestion : CategorySuggestion.t;
  matchedRules : list CategoryRule.t;
  keywordMatches : list jsstring;
  patternMatches : list jsstring;
  scoreBreakdown : RuleScoreBreakdown.t
}.

Definition finalScore (detail : t) : Q :=
  RuleScoreBreakdown.finalScore (scoreBreakdown detail).
End CategoryRecommendationDetail.

Module CategoryRecommender.

Section WithRuntime.
Context {SC : StringCase} {RE : RegExpEngine}.

(** The [forEach] over [rule.patterns]: the patterns that match, in order;
    [None] as soon as a pattern does not compile. *)
Fixpoint matchPatterns (patterns : list jsstring) (allText : jsstring)
  : option (list jsstring) :=
  match patterns with
  | [] => Some []
  | pattern :: rest =>
    match RegExp_test pattern allText with
    | None => None
    | Some matched =>
      match matchPatterns rest allText with
      | None => None
      | Some patternMatches =>
        Some (if matched then pattern :: patternMatches else patternMatches)
      end
    end
  end.

Definition generateReasons (rule : CategoryRule.t)
  (keywordMatches patternMatches : list jsstring) : list jsstring :=
  [CategoryRule.reason rule]
  ++ (match keywordMatches with
      | _ :: _ => [js "'" ++ join (js ", ") keywordMatches ++ js "' 키워드가 매칭됨"]
      | [] => []
      end)
  ++ (match patternMatches with
      | _ :: _ => [js "상품 특성 패턴이 일치함"]
      | [] => []
      end).

(** The third step of [evaluateRule], before normalisation: the sum gathered
    by the [forEach] over the keywords scoring above 70. *)
Definition frequencySum (keywordMatches : list jsstring) (keywords : list Keyword.t) : Q :=
  let highScoreKeywords :=
    filter (fun k => Qlt_bool 70 (orZero (Keyword.score k))) keywords in
  fold_left
    (fun frequencyScore keyword =>
       if existsb (fun match_ =>
                     includes (toLowerCase (Keyword.term keyword)) (toLowerCase match_))
                  keywordMatches
       then frequencyScore + orZero (Keyword.score keyword) / 100
       else frequencyScore)
    highScoreKeywords 0.

(** [None] when a pattern of the rule makes [new RegExp] throw. *)
Definition evaluateRule (rule : CategoryRule.t) (texts : list jsstring)
  (keywords : list Keyword.t) : option CategoryRecommendationDetail.t :=
  let allText := join (js " ") texts in
  let keywordMatches :=
    filter (fun keyword => includes allText (toLowerCase keyword))
           (CategoryRule.keywords rule) in
  let keywordScore := len keywordMatches in
  let keywordScore :=
    match CategoryRule.keywords rule with
    | _ :: _ => keywordScore / len (CategoryRule.keywords rule)
    | [] => 0
    end in
  match matchPatterns (CategoryRule.patterns rule) allText with
  | None => None
  | Some patternMatches =>
    let patternScore := len patternMatches in
    let patternScore :=
      match CategoryRule.patterns rule with
      | _ :: _ => patternScore / len (CategoryRule.patterns rule)
      | [] => 0
      end in
    let frequencyScore := frequencySum keywordMatches keywords in
    let frequencyScore := Qmin 1 (frequencyScore / Qmax 1 (len keywords)) in
    let finalScore :=
      (keywordScore * 0.4 + patternScore * 0.3 + frequencyScore * 0.3)
      * CategoryRule.weight rule * (CategoryRule.confidence rule / 100) in
    let reasons := generateReasons rule keywordMatches patternMatches in
    let suggestion :=
      {| CategorySuggestion.name := CategoryRule.categoryName rule;
         CategorySuggestion.reasons := reasons;
         CategorySuggestion.attributes := CategoryRule.attributes rule;
         CategorySuggestion.confidence := Math_round (finalScore * 100) |} in
    Some {| CategoryRecommendationDetail.suggestion := suggestion;
            CategoryRecommendationDetail.matchedRules := [rule];
            CategoryRecommendationDetail.keywordMatches := keywordMatches;
            CategoryRecommendationDetail.patternMatches := patternMatches;
            CategoryRecommendationDetail.scoreBreakdown :=
              {| RuleScoreBreakdown.keywordScore := keywordScore;
                 RuleScoreBreakdown.patternScore := patternScore;
                 RuleScoreBreakdown.frequencyScore := frequencyScore;
                 RuleScoreBreakdown.finalScore := finalScore |} |}
  end.

(** The loop over [this.rules]; [None] when evaluating a rule throws. *)
Fixpoint calculateCategoryScores (rules : list CategoryRule.t) (texts : list jsstring)
  (keywords : list Keyword.t) : option (list CategoryRecommendationDetail.t) :=
  match rules with
  | [] => Some []
  | rule :: rest =>
    match evaluateRule rule texts keywords with
    | None => None
    | Some detail =>
      match calculateCategoryScores rest texts keywords with
      | None => None
      | Some results =>
        Some (if Qlt_bool 0 (CategoryRecommendationDetail.finalScore detail)
              then detail :: results
              else results)
      end
    end
  end.

Definition extractAdditionalTexts (components : option ProductTitleComponents.t)
  : list jsstring :=
  match components with
  | None => []
  | Some components =>
    (if truthyStr (ProductTitleComponents.category components)
     then [toLowerCase (orEmpty (ProductTitleComponents.category components))] else [])
    ++ (if truthyStr (ProductTitleComponents.demographic components)
        then [toLowerCase (orEmpty (ProductTitleComponents.demographic components))] else [])
    ++ (match ProductTitleComponents.features components with
        | Some features => map toLowerCase features
        | None => []
        end)
    ++ (if truthyStr (ProductTitleComponents.usage components)
        then [toLowerCase (orEmpty (ProductTitleComponents.usage components))] else [])
  end.

(** [rules] is [this.rules]; [None] when a rule pattern does not compile. *)
Definition recommendCategories (rules : list CategoryRule.t) (keywords : list Keyword.t)
  (components : option ProductTitleComponents.t) (maxSuggestions : nat)
  : option (list CategoryRecommendationDetail.t) :=
  let keywordTexts := map (fun k => toLowerCase (Keyword.term k)) keywords in
  let additionalTexts := extractAdditionalTexts components in
  let allTexts := keywordTexts ++ additionalTexts in
  match calculateCategoryScores rules allTexts keywords with
  | None => None
  | Some categoryScores =>
    let topCategories :=
      slice0 maxSuggestions
        (sort (fun a b => CategoryRecommendationDetail.finalScore b
                          - CategoryRecommendationDetail.finalScore a)
              categoryScores) in
    Some topCategories
  end.

End WithRuntime.

End CategoryRecommender.

(* ================================================================= *)
(** * Part VI: the vocabulary of the properties, and concrete inputs *)
(* ================================================================= *)

Module ScoringSpec.

Section WithLog.
Context {ML : MathLib}.

Definition clamp (x lo hi : Q) : Q :=
  if Qlt_bool x lo then lo else if Qlt_bool hi x then hi else x.

(** The nearest multiple of 1/100. *)
Definition roundTo2 (x : Q) : Q := Math_round (x * 100) / 100.

Definition normVolume (k : Keyword.t) (stats : KeywordGroupStats.t) : Q :=
  let v := Keyword.volume k in
  let min := KeywordGroupStats.minVolume stats in
  let max := KeywordGroupStats.maxVolume stats in
  if Qeq_bool max min then 0.5
  else (Math_log (v + 1) - Math_log (min + 1)) / (Math_log (max + 1) - Math_log (min + 1)).

Definition normCompetition (k : Keyword.t) : Q := Keyword.competition k / 100.

(** [k.weight * w.ctr] when both are present, 0 otherwise. *)
Definition ctrBonus (k : Keyword.t) (w : AlgorithmWeights.t) : Q :=
  match Keyword.weight k, AlgorithmWeights.ctr w with
  | Some kw, Some wc => kw * wc
  | _, _ => 0
  end.

Definition raw (k : Keyword.t) (stats : KeywordGroupStats.t) (w : AlgorithmWeights.t) : Q :=
  (normVolume k stats * AlgorithmWeights.volume w
   + KeywordScorer.calculateTagWeight (Keyword.tags k) * AlgorithmWeights.tag w
   + ctrBonus k w)
  / (normCompetition k * AlgorithmWeights.competition w + 1).

Definition score (k : Keyword.t) (stats : KeywordGroupStats.t) (w : AlgorithmWeights.t) : Q :=
  roundTo2 (clamp (raw k stats w * 100) 0 100).

End WithLog.

(** Everything but [score] is the same. *)
Definition sameButScore (k k' : Keyword.t) : Prop :=
  Keyword.id k' = Keyword.id k /\
  Keyword.created_at k' = Keyword.created_at k /\
  Keyword.updated_at k' = Keyword.updated_at k /\
  Keyword.term k' = Keyword.term k /\
  Keyword.volume k' = Keyword.volume k /\
  Keyword.competition k' = Keyword.competition k /\
  Keyword.weight k' = Keyword.weight k /\
  Keyword.notes k' = Keyword.notes k /\
  Keyword.tags k' = Keyword.tags k.

End ScoringSpec.

(** The raw score as [calculateScore] computes it. *)
Definition rawScoreOf {ML : MathLib} (w : AlgorithmWeights.t) (k : Keyword.t)
  (stats : KeywordGroupStats.t) : Q :=
  (KeywordScorer.normalizeVolume (Keyword.volume k) stats * AlgorithmWeights.volume w
   + KeywordScorer.calculateTagWeight (Keyword.tags k) * AlgorithmWeights.tag w
   + (if truthyNum (Keyword.weight k) && truthyNum (AlgorithmWeights.ctr w)
      then orZero (Keyword.weight k) * orZero (AlgorithmWeights.ctr w)
      else 0))
  / (Keyword.competition k / 100 * AlgorithmWeights.competition w + 1).

(** The order of a list sorted by [(a, b) => key(b) - key(a)]. *)
Definition descending {A : Type} (key : A -> Q) (a b : A) : Prop := key b <= key a.

(** No two neighbouring code units of [s] are both white space. *)
Fixpoint sparse (s : jsstring) : Prop :=
  match s with
  | a :: ((b :: _) as s') => (isWhiteSpace a = false \/ isWhiteSpace b = false) /\ sparse s'
  | _ => True
  end.

(** The frequency score of a rule, from the matched rule keywords and the
    keyword list. *)
Module FrequencySpec.

(** As the specification words it: the keywords counted are those whose
    term is a substring of some matched rule keyword. *)
Definition claimed (keywordMatches : list jsstring) (keywords : list Keyword.t) : Q :=
  let counted :=
    filter (fun k =>
              existsb (fun match_ => includes match_ (Keyword.term k)) keywordMatches
              && Qlt_bool 70 (orZero (Keyword.score k)))
           keywords in
  Qmin 1 (sum (map (fun k => orZero (Keyword.score k) / 100) counted)
          / Qmax 1 (len keywords)).

(** With the containment the other way round, both sides lower-cased: the
    keywords counted are those whose term contains some matched rule
    keyword. *)
Definition amended {SC : StringCase} (keywordMatches : list jsstring)
  (keywords : list Keyword.t) : Q :=
  let counted :=
    filter (fun k =>
              existsb (fun match_ =>
                         includes (toLowerCase (Keyword.term k)) (toLowerCase match_))
                      keywordMatches
              && Qlt_bool 70 (orZero (Keyword.score k)))
           keywords in
  Qmin 1 (sum (map (fun k => orZero (Keyword.score k) / 100) counted)
          / Qmax 1 (len keywords)).

End FrequencySpec.

(** Concrete inputs. *)
Module Examples.

Definition keyword (term : jsstring) (volume competition : Q) (score : option Q)
  : Keyword.t :=
  {| Keyword.id := js "kw-" ++ term;
     Keyword.created_at := js "2025-01-01T00:00:00.000Z";
     Keyword.updated_at := js "2025-01-01T00:00:00.000Z";
     Keyword.term := term;
     Keyword.volume := volume;
     Keyword.competition := competition;
     Keyword.weight := None;
     Keyword.notes := None;
     Keyword.tags := [];
     Keyword.score := score |}.

(** A rule table of two custom rules with literal patterns. *)
Definition shirtRule : CategoryRule.t :=
  {| CategoryRule.categoryName := js "남성의류";
     CategoryRule.keywords := [js "셔츠"; js "바지"];
     CategoryRule.patterns := [js "셔츠"];
     CategoryRule.weight := 1.0;
     CategoryRule.confidence := 85;
     CategoryRule.reason := js "남성 의류 관련 키워드가 포함됨";
     CategoryRule.attributes := [] |}.

Definition phoneRule : CategoryRule.t :=
  {| CategoryRule.categoryName := js "스마트폰/태블릿";
     CategoryRule.keywords := [js "스마트폰"; js "태블릿"];
     CategoryRule.patterns := [js "스마트폰"];
     CategoryRule.weight := 1.0;
     CategoryRule.confidence := 90;
     CategoryRule.reason := js "모바일 디바이스 관련 키워드가 포함됨";
     CategoryRule.attributes := [] |}.

Definition rules : list CategoryRule.t := [phoneRule; shirtRule].

(** [{ term: "남성셔츠", volume: 1000, competition: 40, score: 90 }]. *)
Definition shirtKeyword : Keyword.t := keyword (js "남성셔츠") 1000 40 (Some 90).

(** [{ keywords: ["phone"], demographic: "women" }] against a catalog holding
    ["phone"]. *)
Definition womenPhone : ProductTitleComponents.t :=
  {| ProductTitleComponents.category := None;
     ProductTitleComponents.demographic := Some (js "women");
     ProductTitleComponents.keywords := [js "phone"];
     ProductTitleComponents.features := None;
     ProductTitleComponents.usage := None |}.

Definition phoneKeyword : Keyword.t := keyword (js "phone") 10000 85 None.

(** [{ keywords: ["스마트폰", "케이스"] }], no category and no features. *)
Definition phoneCase : ProductTitleComponents.t :=
  {| ProductTitleComponents.category := None;
     ProductTitleComponents.demographic := None;
     ProductTitleComponents.keywords := [js "스마트폰"; js "케이스"];
     ProductTitleComponents.features := None;
     ProductTitleComponents.usage := None |}.

(** The default configuration with [maxLength: 3]. *)
Definition shortConfig : TitleGenerationConfig.t :=
  {| TitleGenerationConfig.template :=
       TitleGenerationConfig.template TitleGenerator.DEFAULT_TITLE_CONFIG;
     TitleGenerationConfig.stopwords :=
       TitleGenerationConfig.stopwords TitleGenerator.DEFAULT_TITLE_CONFIG;
     TitleGenerationConfig.maxLength := 3;
     TitleGenerationConfig.minKeywords := 1;
     TitleGenerationConfig.maxKeywords := 3;
     TitleGenerationConfig.prioritizeKeywords := true;
     TitleGenerationConfig.removeDuplicates := true;
     TitleGenerationConfig.generateSpacingVariants := true |}.

(** A title of 42 code units in two words, the first containing the second. *)
Definition strapCaseTitle : jsstring := js "premiumleathersmartphonecasewithstrap case".

End Examples.

(** The vocabulary of the validation claim. *)
Module ValidationSpec.

(** [term] occurs, case-insensitively, among the terms of the catalog. *)
Definition occurs {SC : StringCase} (catalog : list Keyword.t) (term : jsstring) : Prop :=
  exists k, In k catalog /\ toLowerCase (Keyword.term k) = toLowerCase term.

(** The requested terms that do not occur in the catalog, in request order. *)
Definition missing {SC : StringCase} (catalog : list Keyword.t)
  (requested : list jsstring) : list jsstring :=
  filter (fun term =>
            negb (existsb (fun k => streq (toLowerCase (Keyword.term k)) (toLowerCase term))
                          catalog))
         requested.

End ValidationSpec.

(* ================================================================= *)
(** * Part VI-A: [KeywordRecommender] and [KeywordAnalytics]
      ([lib/algorithms/keyword-scoring]) *)
(* ================================================================= *)

(** [Math.random] is a source of numbers read one after the other: the
    [n]-th call returns [random n], and the count of calls made is threaded
    through. *)
Definition RandomSource := nat -> Q.

Definition KeywordTag_eqb (a b : KeywordTag.t) : bool :=
  match a, b with
  | KeywordTag.seasonal, KeywordTag.seasonal
  | KeywordTag.event, KeywordTag.event
  | KeywordTag.longtail, KeywordTag.longtail
  | KeywordTag.trending, KeywordTag.trending
  | KeywordTag.brand, KeywordTag.brand
  | KeywordTag.category, KeywordTag.category
  | KeywordTag.feature, KeywordTag.feature
  | KeywordTag.custom, KeywordTag.custom => true
  | _, _ => false
  end.

Module Recommendation.
Record t := { keyword : Keyword.t; score : Q; reason : jsstring }.
End Recommendation.

Module KeywordRecommender.

Section WithLog.
Context {ML : MathLib}.

(** [scorer] is [this.scorer]. *)
Definition generateRecommendationReason (scorer : KeywordScorer.t) (keyword : Keyword.t)
  : jsstring :=
  let scoreResult := KeywordScorer.calculateScore scorer keyword None in
  let score := KeywordScoreResult.score scoreResult in
  if Qle_bool 90 score then js "매우 높은 기회지수로 최우선 추천 키워드입니다"
  else if Qle_bool 70 score then js "높은 기회지수로 적극 추천하는 키워드입니다"
  else if Qle_bool 50 score then js "적당한 기회지수로 고려해볼만한 키워드입니다"
  else js "낮은 경쟁도나 특별한 태그 특성으로 추천된 키워드입니다".

(** The [for] loop of [recommend] over the sorted keywords: [found] is
    [recommendations.length], [calls] the number of [Math.random] calls made
    so far.  [Math.random] is called only when the two tests before it in
    the disjunction fail. *)
Fixpoint recommendLoop (scorer : KeywordScorer.t) (count : nat) (diversityFactor : Q)
  (random : RandomSource) (calls : nat) (usedTags : list KeywordTag.t) (found : nat)
  (sortedKeywords : list Keyword.t) : list Recommendation.t * nat :=
  match sortedKeywords with
  | [] => ([], calls)
  | keyword :: rest =>
    if (count <=? found)%nat then ([], calls)
    else
      let tagOverlap :=
        existsb (fun tag => existsb (KeywordTag_eqb tag) usedTags) (Keyword.tags keyword) in
      let (shouldRecommend, calls') :=
        if Qlt_bool 80 (orZero (Keyword.score keyword)) || negb tagOverlap
        then (true, calls)
        else (Qlt_bool diversityFactor (random calls), S calls) in
      if shouldRecommend then
        let (more, calls'') :=
          recommendLoop scorer count diversityFactor random calls'
            (usedTags ++ Keyword.tags keyword) (S found) rest in
        ({| Recommendation.keyword := keyword;
            Recommendation.score := orZero (Keyword.score keyword);
            Recommendation.reason := generateRecommendationReason scorer keyword |}
         :: more,
         calls'')
      else
        recommendLoop scorer count diversityFactor random calls' usedTags found rest
  end.

(** Returns the recommendations, the scorer as the call left it and the
    number of [Math.random] calls made. *)
Definition recommend (scorer : KeywordScorer.t) (keywords : list Keyword.t) (count : nat)
  (diversityFactor : Q) (random : RandomSource) (calls : nat)
  : list Recommendation.t * KeywordScorer.t * nat :=
  let (scoredKeywords, scorer') := KeywordScorer.calculateScores scorer keywords in
  let sortedKeywords :=
    sort (fun a b => orZero (Keyword.score b) - orZero (Keyword.score a)) scoredKeywords in
  let (recommendations, calls') :=
    recommendLoop scorer' count diversityFactor random calls [] 0 sortedKeywords in
  (recommendations, scorer', calls').

End WithLog.

End KeywordRecommender.

Module Distribution.
Record t := { low : nat; medium : nat; high : nat }.
End Distribution.

Module KeywordDistribution.
Record t := {
  volumeDistribution : Distribution.t;
  competitionDistribution : Distribution.t;
  tagDistribution : list (KeywordTag.t * nat)
}.
End KeywordDistribution.

Module KeywordAnalytics.

Inductive band := Low | Medium | High.

Definition countBand (d : Distribution.t) (b : band) : Distribution.t :=
  match b with
  | Low => {| Distribution.low := S (Distribution.low d);
              Distribution.medium := Distribution.medium d;
              Distribution.high := Distribution.high d |}
  | Medium => {| Distribution.low := Distribution.low d;
                 Distribution.medium := S (Distribution.medium d);
                 Distribution.high := Distribution.high d |}
  | High => {| Distribution.low := Distribution.low d;
               Distribution.medium := Distribution.medium d;
               Distribution.high := S (Distribution.high d) |}
  end.

(** The band of [volume / maxVolume].  With [maxVolume] zero the quotient is
    NaN or an infinity in JavaScript: both comparisons then fail, except for
    a negative volume, whose quotient is below every number. *)
Definition volumeBand (volume maxVolume : Q) : band :=
  if Qeq_bool maxVolume 0 then
    if Qlt_bool volume 0 then Low else High
  else
    let volumePercentile := volume / maxVolume in
    if Qlt_bool volumePercentile 0.33 then Low
    else if Qlt_bool volumePercentile 0.67 then Medium
    else High.

Definition competitionBand (competition : Q) : band :=
  if Qlt_bool competition 33 then Low
  else if Qlt_bool competition 67 then Medium
  else High.

(** [tagDistribution[tag] = (tagDistribution[tag] || 0) + 1] on an object
    whose keys stay in insertion order. *)
Fixpoint countTag (d : list (KeywordTag.t * nat)) (tag : KeywordTag.t)
  : list (KeywordTag.t * nat) :=
  match d with
  | [] => [(tag, 1%nat)]
  | (t, n) :: d' => if KeywordTag_eqb t tag then (t, S n) :: d' else (t, n) :: countTag d' tag
  end.

(** [tagDistribution[tag]]. *)
Fixpoint tagCount (d : list (KeywordTag.t * nat)) (tag : KeywordTag.t) : option nat :=
  match d with
  | [] => None
  | (t, n) :: d' => if KeywordTag_eqb t tag then Some n else tagCount d' tag
  end.

Definition analyzeDistribution (keywords : list Keyword.t) : KeywordDistribution.t :=
  let scorer :=
    KeywordScorer.constructor
      {| AlgorithmWeights.volume := 0.7; AlgorithmWeights.competition := 0.3;
         AlgorithmWeights.tag := 0.1; AlgorithmWeights.ctr := None |} in
  let stats := fst (KeywordScorer.calculateGroupStats scorer keywords) in
  fold_left
    (fun d keyword =>
       {| KeywordDistribution.volumeDistribution :=
            countBand (KeywordDistribution.volumeDistribution d)
                      (volumeBand (Keyword.volume keyword)
                                  (KeywordGroupStats.maxVolume stats));
          KeywordDistribution.competitionDistribution :=
            countBand (KeywordDistribution.competitionDistribution d)
                      (competitionBand (Keyword.competition keyword));
          KeywordDistribution.tagDistribution :=
            fold_left countTag (Keyword.tags keyword)
                      (KeywordDistribution.tagDistribution d) |})
    keywords
    {| KeywordDistribution.volumeDistribution :=
         {| Distribution.low := 0; Distribution.medium := 0; Distribution.high := 0 |};
       KeywordDistribution.competitionDistribution :=
         {| Distribution.low := 0; Distribution.medium := 0; Distribution.high := 0 |};
       KeywordDistribution.tagDistribution := [] |}.

Section WithLog.
Context {ML : MathLib}.


End WithLog.

(** [missing.filter(() => Math.random() < 0.3)]: one call for each element. *)
Fixpoint sampleOpportunities (random : RandomSource) (calls : nat) (missing : list jsstring)
  : list jsstring * nat :=
  match missing with
  | [] => ([], calls)
  | term :: rest =>
    let (more, calls') := sampleOpportunities random (S calls) rest in
    (if Qlt_bool (random calls) 0.3 then term :: more else more, calls')
  end.

(** Returns [(missing, opportunities)] and the number of [Math.random] calls
    made. *)
Definition findKeywordGaps {SC : StringCase} (ourKeywords : list Keyword.t)
  (competitorKeywords : list jsstring) (random : RandomSource) (calls : nat)
  : list jsstring * list jsstring * nat :=
  let ourTerms := map (fun k => toLowerCase (Keyword.term k)) ourKeywords in
  let competitorTerms := map toLowerCase competitorKeywords in
  let missing := filter (fun term => negb (existsb (streq term) ourTerms)) competitorTerms in
  let (opportunities, calls') := sampleOpportunities random calls missing in
  (missing, opportunities, calls').

End KeywordAnalytics.

(* ================================================================= *)
(** * Part VI-B: the rule table of [CategoryRecommender] and
      [CategoryAnalytics] ([lib/algorithms/category-recommender.ts]) *)
(* ================================================================= *)

Module CategoryRules.

Definition hasName (categoryName : jsstring) (r : CategoryRule.t) : bool :=
  streq (CategoryRule.categoryName r) categoryName.

(** [rules[index] = rule]. *)
Fixpoint setAt (rules : list CategoryRule.t) (index : nat) (rule : CategoryRule.t)
  : list CategoryRule.t :=
  match rules, index with
  | [], _ => []
  | _ :: rest, O => rule :: rest
  | r :: rest, S i => r :: setAt rest i rule
  end.

(** [rules.splice(index, 1)]. *)
Fixpoint removeAt (rules : list CategoryRule.t) (index : nat) : list CategoryRule.t :=
  match rules, index with
  | [], _ => []
  | _ :: rest, O => rest
  | r :: rest, S i => r :: removeAt rest i
  end.

(** [rules] is [this.rules] before the call, the result [this.rules] after. *)
Definition addRule (rules : list CategoryRule.t) (rule : CategoryRule.t)
  : list CategoryRule.t :=
  match findIndex (hasName (CategoryRule.categoryName rule)) rules with
  | Some existingIndex => setAt rules existingIndex rule
  | None => rules ++ [rule]
  end.

(** Returns [this.rules] after the call and the boolean result. *)
Definition removeRule (rules : list CategoryRule.t) (categoryName : jsstring)
  : list CategoryRule.t * bool :=
  match findIndex (hasName categoryName) rules with
  | Some index => (removeAt rules index, true)
  | None => (rules, false)
  end.

Definition getRules (rules : list CategoryRule.t) : list CategoryRule.t := rules.

Section WithCase.
Context {SC : StringCase}.

Definition getCategoryChecklist (rules : list CategoryRule.t) (categoryName : jsstring)
  : list CategoryAttribute.t :=
  match find (fun r => streq (toLowerCase (CategoryRule.categoryName r))
                             (toLowerCase categoryName))
             rules with
  | Some rule => CategoryRule.attributes rule
  | None => []
  end.

Definition searchCategories (rules : list CategoryRule.t) (query : jsstring)
  : list CategoryRule.t :=
  let lowerQuery := toLowerCase query in
  filter (fun rule =>
            includes (toLowerCase (CategoryRule.categoryName rule)) lowerQuery
            || existsb (fun keyword => includes keyword lowerQuery)
                       (CategoryRule.keywords rule))
         rules.

End WithCase.

End CategoryRules.

Module RecommendationQuality.
Record t := {
  averageConfidence : Q;
  highConfidenceCount : nat;
  lowConfidenceCount : nat;
  qualityScore : Q
}.
End RecommendationQuality.

Module CategoryAnalytics.

Definition analyzeRecommendationQuality
  (recommendations : list CategoryRecommendationDetail.t) : RecommendationQuality.t :=
  match recommendations with
  | [] =>
    {| RecommendationQuality.averageConfidence := 0;
       RecommendationQuality.highConfidenceCount := 0;
       RecommendationQuality.lowConfidenceCount := 0;
       RecommendationQuality.qualityScore := 0 |}
  | _ :: _ =>
    let confidences :=
      map (fun r => CategorySuggestion.confidence (CategoryRecommendationDetail.suggestion r))
          recommendations in
    let averageConfidence := sum confidences / len confidences in
    let highConfidenceCount := List.length (filter (fun c => Qle_bool 80 c) confidences) in
    let lowConfidenceCount := List.length (filter (fun c => Qlt_bool c 50) confidences) in
    let qualityScore :=
      inject_Z (Z.of_nat highConfidenceCount) / len recommendations * 100 in
    {| RecommendationQuality.averageConfidence := Math_round (averageConfidence * 100) / 100;
       RecommendationQuality.highConfidenceCount := highConfidenceCount;
       RecommendationQuality.lowConfidenceCount := lowConfidenceCount;
       RecommendationQuality.qualityScore := Math_round (qualityScore * 100) / 100 |}
  end.

End CategoryAnalytics.

(* ================================================================= *)
(** * Part VI-C: string and colour utilities ([lib/utils/index.ts]) *)
(* ================================================================= *)

Module StringUtils.

(** [maxLength] is a natural number. *)
Definition truncate (text : jsstring) (maxLength : nat) : jsstring :=
  if (List.length text <=? maxLength)%nat then text
  else firstn maxLength text ++ js "...".

(** [Math.min(a, b, c)]. *)
Definition min3 (a b c : nat) : nat := Nat.min a (Nat.min b c).

(** One row of the matrix of [levenshteinDistance], from the row above it:
    [left] is [matrix[i][j - 1]], [diagonal] is [matrix[i - 1][j - 1]] and
    [above] starts at [matrix[i - 1][j]]; [c2] is [str2.charAt(i - 1)] and
    [str1] starts at [str1.charAt(j - 1)]. *)
Fixpoint fillRow (c2 : N) (str1 : jsstring) (diagonal : nat) (above : list nat) (left : nat)
  : list nat :=
  match str1, above with
  | c1 :: str1', up :: above' =>
    let cell := if (c2 =? c1)%N then diagonal else min3 (diagonal + 1) (left + 1) (up + 1) in
    cell :: fillRow c2 str1' up above' cell
  | _, _ => []
  end.

(** [matrix[i]] from [matrix[i - 1]]. *)
Definition nextRow (c2 : N) (str1 : jsstring) (i : nat) (previous : list nat) : list nat :=
  match previous with
  | [] => [i]
  | diagonal :: above => i :: fillRow c2 str1 diagonal above i
  end.

(** The rows [matrix[i]], ..., [matrix[str2.length]] read off in turn;
    returns the last one. *)
Fixpoint lastRow (str1 str2 : jsstring) (i : nat) (previous : list nat) : list nat :=
  match str2 with
  | [] => previous
  | c2 :: str2' => lastRow str1 str2' (S i) (nextRow c2 str1 (S i) previous)
  end.

Definition levenshteinDistance (str1 str2 : jsstring) : nat :=
  let firstRow := seq 0 (S (List.length str1)) in
  last (lastRow str1 str2 0 firstRow) 0%nat.

Definition similarity (str1 str2 : jsstring) : Q :=
  let longer := if (List.length str2 <? List.length str1)%nat then str1 else str2 in
  let shorter := if (List.length str2 <? List.length str1)%nat then str2 else str1 in
  match longer with
  | [] => 1.0
  | _ :: _ =>
    let distance := levenshteinDistance longer shorter in
    (len longer - inject_Z (Z.of_nat distance)) / len longer
  end.

End StringUtils.

(** [colorUtils].  The colour components are integers; [x << k] works on
    32-bit integers, and the sum in [rgbToHex] is exact. *)
Module Rgb.
Record t := { r : Z; g : Z; b : Z }.
End Rgb.

Module ColorUtils.

(** [[a-f\d]] under the [i] flag. *)
Definition isHexDigit (c : N) : bool :=
  (isDigit c || (97 <=? c) && (c <=? 102) || (65 <=? c) && (c <=? 70))%N.

Definition hexValue (c : N) : Z :=
  if isDigit c then Z.of_N c - 48
  else if (97 <=? c)%N then Z.of_N c - 87
  else Z.of_N c - 55.

(** [parseInt(s, 16)] on a string of hexadecimal digits. *)
Definition parseHex (s : jsstring) : Z :=
  fold_left (fun n c => n * 16 + hexValue c)%Z s 0%Z.

(** [/^#?([a-f\d]{2})([a-f\d]{2})([a-f\d]{2})$/i.exec(hex)] and the three
    [parseInt]. *)
Definition hexToRgb (hex : jsstring) : option Rgb.t :=
  let digits :=
    match hex with
    | c :: rest => if (c =? 35)%N then rest else hex
    | [] => hex
    end in
  match digits with
  | [r1; r0; g1; g0; b1; b0] =>
    if forallb isHexDigit digits
    then Some {| Rgb.r := parseHex [r1; r0];
                 Rgb.g := parseHex [g1; g0];
                 Rgb.b := parseHex [b1; b0] |}
    else None
  | _ => None
  end.

(** [ToInt32] and [x << k]. *)
Definition toInt32 (n : Z) : Z := ((n + 2 ^ 31) mod 2 ^ 32 - 2 ^ 31)%Z.

Definition shiftLeft (x k : Z) : Z := toInt32 (Z.shiftl (toInt32 x) (Z.land k 31)).

Definition hexDigit (d : Z) : N := if (d <? 10)%Z then Z.to_N (48 + d) else Z.to_N (87 + d).

(** The digits of a natural number in base 16, most significant first;
    [fuel] bounds their number. *)
Fixpoint hexDigits (fuel : nat) (n : Z) : jsstring :=
  match fuel with
  | O => []
  | S fuel' =>
    if (n <? 16)%Z then [hexDigit n]
    else hexDigits fuel' (n / 16)%Z ++ [hexDigit (n mod 16)%Z]
  end.

(** [n.toString(16)] for an integer. *)
Definition toString16 (n : Z) : jsstring :=
  if (n <? 0)%Z then js "-" ++ hexDigits (S (Z.to_nat (Z.log2 (- n)))) (- n)%Z
  else hexDigits (S (Z.to_nat (Z.log2 n))) n.

Definition rgbToHex (r g b : Z) : jsstring :=
  js "#" ++ skipn 1 (toString16 (shiftLeft 1 24 + shiftLeft r 16 + shiftLeft g 8 + b)%Z).

Definition getBrightness (hex : jsstring) : Q :=
  match hexToRgb hex with
  | None => 0
  | Some rgb =>
    Math_round ((inject_Z (Rgb.r rgb) * 299 + inject_Z (Rgb.g rgb) * 587
                 + inject_Z (Rgb.b rgb) * 114) / 1000)
  end.

End ColorUtils.

(* ================================================================= *)
(** * Part VI-D: vocabulary of the further properties *)
(* ================================================================= *)


Definition keywordScore (k : Keyword.t) : Q := orZero (Keyword.score k).

(** How often [tag] is attached to a keyword of the batch. *)
Definition tagOccurrences (tag : KeywordTag.t) (keywords : list Keyword.t) : nat :=
  List.length (filter (KeywordTag_eqb tag) (flat_map Keyword.tags keywords)).

(** The table [d] holds, for every tag, the number of its occurrences in
    [seen], and no entry for a tag that does not occur. *)
Definition countsTags (d : list (KeywordTag.t * nat)) (seen : list KeywordTag.t) : Prop :=
  forall tag,
    KeywordAnalytics.tagCount d tag
    = match List.length (filter (KeywordTag_eqb tag) seen) with
      | O => None
      | S n => Some (S n)
      end.

(** The counter of a band, and equality of bands. *)
Definition bandCount (d : Distribution.t) (b : KeywordAnalytics.band) : nat :=
  match b with
  | KeywordAnalytics.Low => Distribution.low d
  | KeywordAnalytics.Medium => Distribution.medium d
  | KeywordAnalytics.High => Distribution.high d
  end.

Definition band_eqb (a b : KeywordAnalytics.band) : bool :=
  match a, b with
  | KeywordAnalytics.Low, KeywordAnalytics.Low
  | KeywordAnalytics.Medium, KeywordAnalytics.Medium
  | KeywordAnalytics.High, KeywordAnalytics.High => true
  | _, _ => false
  end.

(** The score the catalog holds for a requested term, as
    [selectAndSortKeywords] reads it. *)
Definition catalogScore {SC : StringCase} (allKeywords : list Keyword.t) (term : jsstring)
  : Q :=
  orZero (match TitleGenerator.keywordMap_get allKeywords (toLowerCase term) with
          | Some k => Keyword.score k
          | None => None
          end).

(** No character of the first class is directly followed by one of the
    second. *)
Fixpoint separated (p q : N -> bool) (s : jsstring) : Prop :=
  match s with
  | a :: ((b :: _) as s') => (p a && q b = false) /\ separated p q s'
  | _ => True
  end.

(** A word holds no white space.  In a list of words as [split(/\s+/)]
    gives it, only the first and the last may be empty: [innerWords] is the
    condition on the words after the first. *)
Definition wordLike (w : jsstring) : Prop := Forall (fun c => isWhiteSpace c = false) w.

Fixpoint innerWords (ws : list jsstring) : Prop :=
  match ws with
  | [] => True
  | x :: rest =>
    match rest with
    | [] => wordLike x
    | _ :: _ => wordLike x /\ x <> [] /\ innerWords rest
    end
  end.

Definition wordList (ws : list jsstring) : Prop :=
  match ws with
  | [] => True
  | w :: rest => wordLike w /\ innerWords rest
  end.

(** The string is empty or starts with a character that is not white space. *)
Definition startsWithWord (s : jsstring) : Prop :=
  match s with
  | [] => True
  | c :: _ => isWhiteSpace c = false
  end.

(** Every white-space character of the string is a space. *)
Definition onlySpaces (s : jsstring) : Prop :=
  Forall (fun c => isWhiteSpace c = true -> c = SPACE) s.

(** The distances of a row of the matrix of [levenshteinDistance]: the entry
    of row [i] in column [j + k] lies between the difference and the larger
    of the two indices. *)
Definition rowInRange (i j : nat) (row : list nat) : Prop :=
  forall k x, nth_error row k = Some x ->
              (Nat.max i (j + k) - Nat.min i (j + k) <= x <= Nat.max i (j + k))%nat.

(** The five issues [analyzeIssues] can report. *)
Definition qualityIssues : list jsstring :=
  [js "키워드가 뒤쪽에 배치되어 있습니다"; js "가독성이 낮습니다"; js "제목이 너무 깁니다";
   js "제목이 너무 짧습니다"; js "일반적인 표현이 많이 사용되었습니다"].

Module Samples.

Definition identityLog : MathLib := {| Math_log := fun x => x |}.

Definition weights : AlgorithmWeights.t :=
  {| AlgorithmWeights.volume := 0.7; AlgorithmWeights.competition := 0.3;
     AlgorithmWeights.tag := 0.1; AlgorithmWeights.ctr := None |}.

Definition tagged (term : jsstring) (volume competition : Q) (tags : list KeywordTag.t)
  : Keyword.t :=
  {| Keyword.id := js "kw-" ++ term;
     Keyword.created_at := js "2025-01-01T00:00:00.000Z";
     Keyword.updated_at := js "2025-01-01T00:00:00.000Z";
     Keyword.term := term;
     Keyword.volume := volume;
     Keyword.competition := competition;
     Keyword.weight := None;
     Keyword.notes := None;
     Keyword.tags := tags;
     Keyword.score := None |}.

(** Three keywords, the first two sharing a tag. *)
Definition batch : list Keyword.t :=
  [tagged (js "case") 1000 20 [KeywordTag.brand];
   tagged (js "cover") 900 30 [KeywordTag.brand];
   tagged (js "strap") 500 50 [KeywordTag.seasonal]].

End Samples.

(* ================================================================= *)
(** * Part VI-E: [KeywordScorer.calculateScore] on binary64 numbers

    The score of a keyword is rounded to two decimals, and its formula
    divides: both depend on how JavaScript numbers behave beyond the exact
    rationals.  Here a number is NaN, an infinity or a finite value; the
    result of an arithmetic operation on finite values is rounded by
    [round64], the rounding to the nearest binary64 number, and a division
    by zero gives an infinity or NaN.  The inputs (the fields of a keyword,
    of the statistics and of the weights) are finite.  A rounded result
    beyond the largest finite number is an infinity.  Zero has no sign. *)
(* ================================================================= *)

Module Double.

Inductive number := NaN | Infinity (negative : bool) | Fin (q : Q).

(** The rounding of an exact result to a binary64 number. *)
Class Rounding := { round64 : Q -> Q }.

(** [Math.log] on numbers. *)
Class MathLib := { Math_log : number -> number }.

(** What the properties use of the rounding: it keeps the order, and an
    integer up to 2^53 is a binary64 number. *)
Definition lawful (R : Rounding) : Prop :=
  (forall x y, x <= y -> round64 x <= round64 y)
  /\ (forall z : Z, (Z.abs z <= 2 ^ 53)%Z -> round64 (inject_Z z) == inject_Z z).

(** [Number.MAX_VALUE], the largest finite number: 2^1024 - 2^971. *)
Definition MAX_VALUE : Q := inject_Z (2 ^ 1024 - 2 ^ 971).

(** The number for a rounded result: an infinity when it overflows. *)
Definition finite (q : Q) : number :=
  if Qle_bool (Qabs q) MAX_VALUE then Fin q else Infinity (Qlt_bool q 0).

Section Arithmetic.
Context {R : Rounding}.

(** A numeric literal of the source. *)
Definition lit (q : Q) : number := finite (round64 q).

Definition neg (x : number) : number :=
  match x with
  | NaN => NaN
  | Infinity negative => Infinity (negb negative)
  | Fin q => Fin (- q)
  end.

Definition add (x y : number) : number :=
  match x, y with
  | NaN, _ | _, NaN => NaN
  | Infinity a, Infinity b => if Bool.eqb a b then Infinity a else NaN
  | Infinity a, Fin _ | Fin _, Infinity a => Infinity a
  | Fin a, Fin b => finite (round64 (a + b))
  end.

Definition sub (x y : number) : number := add x (neg y).

Definition mul (x y : number) : number :=
  match x, y with
  | NaN, _ | _, NaN => NaN
  | Infinity a, Infinity b => Infinity (xorb a b)
  | Infinity a, Fin q | Fin q, Infinity a =>
    if Qeq_bool q 0 then NaN else Infinity (xorb a (Qlt_bool q 0))
  | Fin a, Fin b => finite (round64 (a * b))
  end.

Definition div (x y : number) : number :=
  match x, y with
  | NaN, _ | _, NaN => NaN
  | Infinity _, Infinity _ => NaN
  | Infinity a, Fin q => Infinity (xorb a (Qlt_bool q 0))
  | Fin _, Infinity _ => Fin 0
  | Fin a, Fin b =>
    if Qeq_bool b 0 then
      if Qeq_bool a 0 then NaN else Infinity (Qlt_bool a 0)
    else finite (round64 (a / b))
  end.

(** [x < y] and [x === y]; [x > y] is [ltb y x]. *)
Definition ltb (x y : number) : bool :=
  match x, y with
  | NaN, _ | _, NaN => false
  | Infinity a, Infinity b => a && negb b
  | Infinity a, Fin _ => a
  | Fin _, Infinity b => negb b
  | Fin a, Fin b => Qlt_bool a b
  end.

Definition strictEq (x y : number) : bool :=
  match x, y with
  | Infinity a, Infinity b => Bool.eqb a b
  | Fin a, Fin b => Qeq_bool a b
  | _, _ => false
  end.

(** [Math.max(x, y)] and [Math.min(x, y)]: NaN when an argument is. *)
Definition Math_max (x y : number) : number :=
  match x, y with
  | NaN, _ | _, NaN => NaN
  | _, _ => if ltb x y then y else x
  end.

Definition Math_min (x y : number) : number :=
  match x, y with
  | NaN, _ | _, NaN => NaN
  | _, _ => if ltb y x then y else x
  end.

(** [Math.round]: its result is an integer, hence a binary64 number. *)
Definition Math_round (x : number) : number :=
  match x with
  | Fin q => Fin (Js.Math_round q)
  | _ => x
  end.

(** Truthiness of a number and of an optional finite number. *)
Definition truthy (x : number) : bool :=
  match x with
  | NaN => false
  | Infinity _ => true
  | Fin q => negb (Qeq_bool q 0)
  end.

End Arithmetic.

(** Two numbers are the same value. *)
Definition same (x y : number) : Prop :=
  match x, y with
  | NaN, NaN => True
  | Infinity a, Infinity b => a = b
  | Fin a, Fin b => a == b
  | _, _ => False
  end.


(** Roundings for concrete runs: none at all, and the rounding to the
    nearest binary64 number, ties to even (with the subnormal numbers). *)
Definition exactRounding : Rounding := {| round64 := fun q => q |}.

(** The integer nearest to [n / d], for a natural [n]. *)
Definition nearestInteger (n : Z) (d : positive) : Z :=
  let floor := (n / Zpos d)%Z in
  let rest := (n mod Zpos d)%Z in
  match (2 * rest ?= Zpos d)%Z with
  | Lt => floor
  | Gt => (floor + 1)%Z
  | Eq => if Z.even floor then floor else (floor + 1)%Z
  end.

(** The exponent [m] with [2^m <= n/d < 2^(m+1)], for a positive [n]. *)
Definition magnitude (n : Z) (d : positive) : Z :=
  let l := (Z.log2 n - Z.log2 (Zpos d))%Z in
  if (0 <=? l)%Z
  then (if (n <? Zpos d * 2 ^ l)%Z then l - 1 else l)%Z
  else (if (n * 2 ^ (- l) <? Zpos d)%Z then l - 1 else l)%Z.

(** [n / d / 2^e] as a fraction. *)
Definition scaled (n : Z) (d : positive) (e : Z) : Q :=
  if (0 <=? e)%Z then n # (d * Z.to_pos (2 ^ e)) else (n * 2 ^ (- e)) # d.

(** The binary64 number nearest to [n / d], for a positive [n]: the nearest
    multiple of [2^e], where [e] leaves 53 bits, or is the least exponent. *)
Definition nearestPositive (n : Z) (d : positive) : Q :=
  let e := Z.max (magnitude n d - 52) (- 1074) in
  let t := scaled n d e in
  Qred (inject_Z (nearestInteger (Qnum t) (Qden t)) * 2 ^ e).

Definition nearest64 (q : Q) : Q :=
  let n := Z.abs (Qnum q) in
  if (n =? 0)%Z then 0
  else if (Qnum q <? 0)%Z then - nearestPositive n (Qden q)
  else nearestPositive n (Qden q).

Definition binary64 : Rounding := {| round64 := nearest64 |}.

(** A logarithm for concrete runs that do not depend on it. *)
Definition identityLog : MathLib := {| Math_log := fun x => x |}.

Module ScoreBreakdown.
Record t := {
  volumeScore : number;
  competitionPenalty : number;
  tagBonus : number;
  ctrBonus : option number
}.
End ScoreBreakdown.

Module KeywordScoreResult.
Record t := {
  score : number;
  normalizedVolume : number;
  normalizedCompetition : number;
  tagWeight : number;
  breakdown : ScoreBreakdown.t;
  explanation : jsstring
}.
End KeywordScoreResult.

Module KeywordScorer.

Section WithRuntime.
Context {R : Rounding} {ML : MathLib}.

Definition normalizeVolume (volume : Q) (stats : KeywordGroupStats.t) : number :=
  if strictEq (Fin (KeywordGroupStats.maxVolume stats))
              (Fin (KeywordGroupStats.minVolume stats))
  then lit 0.5
  else
    let logVolume := Math_log (add (Fin volume) (Fin 1)) in
    let logMin := Math_log (add (Fin (KeywordGroupStats.minVolume stats)) (Fin 1)) in
    let logMax := Math_log (add (Fin (KeywordGroupStats.maxVolume stats)) (Fin 1)) in
    div (sub logVolume logMin) (sub logMax logMin).

Definition tagWeights (tag : KeywordTag.t) : number :=
  match tag with
  | KeywordTag.trending => lit 0.8
  | KeywordTag.longtail => lit 0.6
  | KeywordTag.seasonal => lit 0.4
  | KeywordTag.event => lit 0.3
  | KeywordTag.brand => lit 0.7
  | KeywordTag.category => lit 0.5
  | KeywordTag.feature => lit 0.4
  | KeywordTag.custom => lit 0.2
  end.

Definition calculateTagWeight (tags : list KeywordTag.t) : number :=
  match tags with
  | [] => Fin 0
  | _ :: _ =>
    let totalWeight := fold_left (fun sum tag => add sum (tagWeights tag)) tags (Fin 0) in
    let avgWeight := div totalWeight (Fin (len tags)) in
    let tagCountBonus := mul (Math_min (div (Fin (len tags)) (Fin 3)) (Fin 1)) (lit 0.2) in
    Math_min (Fin 1) (add avgWeight tagCountBonus)
  end.

Definition generateExplanation (keyword : Keyword.t)
  (normalizedVolume normalizedCompetition ctrBonus : number) : jsstring :=
  let volumeNote :=
    if ltb (lit 0.8) normalizedVolume
    then js "높은 검색량으로 노출 기회가 많습니다"
    else if ltb (lit 0.5) normalizedVolume
    then js "적당한 검색량으로 안정적인 노출이 가능합니다"
    else js "낮은 검색량이지만 틈새 시장 공략이 가능합니다" in
  let competitionNote :=
    if ltb normalizedCompetition (lit 0.3)
    then js "낮은 경쟁도로 상위 노출이 유리합니다"
    else if ltb normalizedCompetition (lit 0.7)
    then js "중간 경쟁도로 적절한 노력이 필요합니다"
    else js "높은 경쟁도로 치열한 경쟁이 예상됩니다" in
  let tagNote :=
    match Keyword.tags keyword with
    | [] => []
    | _ :: _ =>
      [join (js ", ") (map KeywordScorer.tagDescriptions (Keyword.tags keyword))
       ++ js " 특성을 가집니다"]
    end in
  let ctrNote :=
    if ltb (Fin 0) ctrBonus then [js "높은 CTR 가중치가 적용되었습니다"] else [] in
  join (js ". ") ([volumeNote; competitionNote] ++ tagNote ++ ctrNote) ++ js ".".

(** [this] holds the weights and the last statistics, as before. *)
Definition calculateScore (this : KeywordScorer.t) (keyword : Keyword.t)
  (groupStats : option KeywordGroupStats.t) : KeywordScoreResult.t :=
  let weights := KeywordScorer.weights this in
  let stats :=
    match groupStats with
    | Some s => s
    | None =>
      match KeywordScorer.groupStats this with
      | Some s => s
      | None => KeywordScorer.getDefaultStats
      end
    end in
  let normalizedVolume := normalizeVolume (Keyword.volume keyword) stats in
  let normalizedCompetition := div (Fin (Keyword.competition keyword)) (Fin 100) in
  let tagWeight := calculateTagWeight (Keyword.tags keyword) in
  let volumeScore := mul normalizedVolume (Fin (AlgorithmWeights.volume weights)) in
  let competitionPenalty :=
    mul normalizedCompetition (Fin (AlgorithmWeights.competition weights)) in
  let tagBonus := mul tagWeight (Fin (AlgorithmWeights.tag weights)) in
  let ctrBonus :=
    if truthyNum (Keyword.weight keyword) && truthyNum (AlgorithmWeights.ctr weights)
    then mul (Fin (orZero (Keyword.weight keyword)))
             (Fin (orZero (AlgorithmWeights.ctr weights)))
    else Fin 0 in
  let rawScore :=
    div (add (add volumeScore tagBonus) ctrBonus) (add competitionPenalty (Fin 1)) in
  let finalScore := Math_min (Fin 100) (Math_max (Fin 0) (mul rawScore (Fin 100))) in
  let explanation :=
    generateExplanation keyword normalizedVolume normalizedCompetition ctrBonus in
  {| KeywordScoreResult.score := div (Math_round (mul finalScore (Fin 100))) (Fin 100);
     KeywordScoreResult.normalizedVolume := normalizedVolume;
     KeywordScoreResult.normalizedCompetition := normalizedCompetition;
     KeywordScoreResult.tagWeight := tagWeight;
     KeywordScoreResult.breakdown :=
       {| ScoreBreakdown.volumeScore := volumeScore;
          ScoreBreakdown.competitionPenalty := competitionPenalty;
          ScoreBreakdown.tagBonus := tagBonus;
          ScoreBreakdown.ctrBonus := if ltb (Fin 0) ctrBonus then Some ctrBonus else None |};
     KeywordScoreResult.explanation := explanation |}.

End WithRuntime.

End KeywordScorer.

(** The raw score as [calculateScore] computes it. *)
Definition rawScoreOf {R : Rounding} {ML : MathLib} (w : AlgorithmWeights.t)
  (k : Keyword.t) (stats : KeywordGroupStats.t) : number :=
  div (add (add (mul (KeywordScorer.normalizeVolume (Keyword.volume k) stats)
                     (Fin (AlgorithmWeights.volume w)))
                (mul (KeywordScorer.calculateTagWeight (Keyword.tags k))
                     (Fin (AlgorithmWeights.tag w))))
           (if truthyNum (Keyword.weight k) && truthyNum (AlgorithmWeights.ctr w)
            then mul (Fin (orZero (Keyword.weight k))) (Fin (orZero (AlgorithmWeights.ctr w)))
            else Fin 0))
      (add (mul (div (Fin (Keyword.competition k)) (Fin 100))
                (Fin (AlgorithmWeights.competition w)))
           (Fin 1)).

(** The formula of the score, as the specification writes it. *)
Module ScoringSpec.

Section WithRuntime.
Context {R : Rounding} {ML : MathLib}.

Definition clamp (x lo hi : number) : number :=
  if ltb x lo then lo else if ltb hi x then hi else x.

(** Rounded to two decimals. *)
Definition roundTo2 (x : number) : number := div (Math_round (mul x (Fin 100))) (Fin 100).

Definition normVolume (k : Keyword.t) (stats : KeywordGroupStats.t) : number :=
  let v := Fin (Keyword.volume k) in
  let min := Fin (KeywordGroupStats.minVolume stats) in
  let max := Fin (KeywordGroupStats.maxVolume stats) in
  if Qeq_bool (KeywordGroupStats.maxVolume stats) (KeywordGroupStats.minVolume stats)
  then lit 0.5
  else div (sub (Math_log (add v (Fin 1))) (Math_log (add min (Fin 1))))
           (sub (Math_log (add max (Fin 1))) (Math_log (add min (Fin 1)))).

Definition normCompetition (k : Keyword.t) : number :=
  div (Fin (Keyword.competition k)) (Fin 100).

(** [k.weight * w.ctr] when both are present, 0 otherwise. *)
Definition ctrBonus (k : Keyword.t) (w : AlgorithmWeights.t) : number :=
  match Keyword.weight k, AlgorithmWeights.ctr w with
  | Some kw, Some wc => mul (Fin kw) (Fin wc)
  | _, _ => Fin 0
  end.

Definition raw (k : Keyword.t) (stats : KeywordGroupStats.t) (w : AlgorithmWeights.t)
  : number :=
  div (add (add (mul (normVolume k stats) (Fin (AlgorithmWeights.volume w)))
                (mul (KeywordScorer.calculateTagWeight (Keyword.tags k))
                     (Fin (AlgorithmWeights.tag w))))
           (ctrBonus k w))
      (add (mul (normCompetition k) (Fin (AlgorithmWeights.competition w))) (Fin 1)).

Definition score (k : Keyword.t) (stats : KeywordGroupStats.t) (w : AlgorithmWeights.t)
  : number :=
  roundTo2 (clamp (mul (raw k stats w) (Fin 100)) (Fin 0) (Fin 100)).

End WithRuntime.

End ScoringSpec.

(** Weights written as decimal literals: each is the nearest binary64
    number. *)
Definition literalWeights (volume competition tag : Q) : AlgorithmWeights.t :=
  {| AlgorithmWeights.volume := nearest64 volume;
     AlgorithmWeights.competition := nearest64 competition;
     AlgorithmWeights.tag := nearest64 tag; AlgorithmWeights.ctr := None |}.

(** A keyword of competition 40 and the statistics of the batch of that
    keyword alone. *)
Definition moderate : Keyword.t := Examples.keyword (js "case") 500 40 None.

Definition moderateStats : KeywordGroupStats.t :=
  {| KeywordGroupStats.minVolume := 500; KeywordGroupStats.maxVolume := 500;
     KeywordGroupStats.avgVolume := 500; KeywordGroupStats.minCompetition := 40;
     KeywordGroupStats.maxCompetition := 40; KeywordGroupStats.avgCompetition := 40;
     KeywordGroupStats.totalKeywords := 1 |}.


Definition crowded : Keyword.t := Examples.keyword (js "케이스") 500 100 None.

Definition crowdedStats : KeywordGroupStats.t :=
  {| KeywordGroupStats.minVolume := 500; KeywordGroupStats.maxVolume := 500;
     KeywordGroupStats.avgVolume := 500; KeywordGroupStats.minCompetition := 100;
     KeywordGroupStats.maxCompetition := 100; KeywordGroupStats.avgCompetition := 100;
     KeywordGroupStats.totalKeywords := 1 |}.

End Double.

(* ================================================================= *)
(** * Part VII: properties of [KeywordScorer] *)
(* ================================================================= *)

Section NumberFacts.

Lemma Qlt_bool_iff (x y : Q) : Qlt_bool x y = true <-> x < y.
Proof.
  unfold Qlt_bool. rewrite negb_true_iff.
  split; intros H.
  - apply Qnot_le_lt. intros Hle. apply Qle_bool_iff in Hle. congruence.
  - destruct (Qle_bool y x) eqn:E; [|reflexivity].
    apply Qle_bool_iff in E. exfalso. apply (Qlt_not_le _ _ H E).
Qed.

Lemma Qlt_bool_false_iff (x y : Q) : Qlt_bool x y = false <-> y <= x.
Proof.
  unfold Qlt_bool. rewrite negb_false_iff. apply Qle_bool_iff.
Qed.


Lemma Math_round_bounds (x : Q) (lo hi : Z) :
  inject_Z lo <= x -> x <= inject_Z hi ->
  inject_Z lo <= Math_round x /\ Math_round x <= inject_Z hi.
Proof.
  intros Hlo Hhi. unfold Math_round. split.
  - rewrite <- Zle_Qle. rewrite <- (Qfloor_Z lo). apply Qfloor_resp_le. lra.
  - rewrite <- Zle_Qle.
    assert (Hlt : (Qfloor (x + 0.5) < hi + 1)%Z).
    { rewrite Zlt_Qlt. apply Qle_lt_trans with (x + 0.5).
      - apply Qfloor_le.
      - rewrite inject_Z_plus. change (inject_Z 1) with 1. lra. }
    lia.
Qed.

Lemma clamp_minmax (x : Q) : Qmin 100 (Qmax 0 (x)) == ScoringSpec.clamp x 0 100.
Proof.
  unfold ScoringSpec.clamp.
  destruct (Qlt_bool x 0) eqn:E0.
  - apply Qlt_bool_iff in E0.
    rewrite (Q.max_l 0 x) by lra. apply Q.min_r. lra.
  - apply Qlt_bool_false_iff in E0. rewrite (Q.max_r 0 x) by lra.
    destruct (Qlt_bool 100 x) eqn:E1.
    + apply Qlt_bool_iff in E1. apply Q.min_l. lra.
    + apply Qlt_bool_false_iff in E1. apply Q.min_r. lra.
Qed.


End NumberFacts.

Section KeywordScorerFacts.
Context {ML : MathLib}.

(** The CTR bonus of the code, taken by truthiness, is the product whenever
    both numbers are there. *)
Lemma ctrBonus_truthy (kw wc : option Q) :
  (if truthyNum kw && truthyNum wc then orZero kw * orZero wc else 0)
  == match kw, wc with
     | Some a, Some b => a * b
     | _, _ => 0
     end.
Proof.
  destruct kw as [a|], wc as [b|]; simpl; try reflexivity.
  - destruct (Qeq_bool a 0) eqn:Ea; simpl.
    + apply Qeq_bool_eq in Ea. rewrite Ea. ring.
    + destruct (Qeq_bool b 0) eqn:Eb; simpl; [|reflexivity].
      apply Qeq_bool_eq in Eb. rewrite Eb. ring.
  - destruct (negb (Qeq_bool a 0)); reflexivity.
Qed.

(** With the statistics passed in, the instance is read for its weights
    only. *)
Lemma calculateScore_weights_only (this this' : KeywordScorer.t) k stats :
  KeywordScorer.weights this = KeywordScorer.weights this' ->
  KeywordScorer.calculateScore this k (Some stats)
  = KeywordScorer.calculateScore this' k (Some stats).
Proof.
  intros Hw. unfold KeywordScorer.calculateScore. rewrite Hw. reflexivity.
Qed.

(** Scoring reads nothing of the keyword's own [score]. *)
Lemma calculateScore_ignores_score (this : KeywordScorer.t) k s gs :
  KeywordScorer.calculateScore this (Keyword.with_score k s) gs
  = KeywordScorer.calculateScore this k gs.
Proof. reflexivity. Qed.

Lemma calculateGroupStats_weights (this : KeywordScorer.t) ks :
  KeywordScorer.weights (snd (KeywordScorer.calculateGroupStats this ks))
  = KeywordScorer.weights this.
Proof. destruct ks; reflexivity. Qed.

(** The statistics are a function of the volumes and competitions. *)
Lemma calculateGroupStats_ext (this this' : KeywordScorer.t) ks ks' :
  map Keyword.volume ks = map Keyword.volume ks' ->
  map Keyword.competition ks = map Keyword.competition ks' ->
  fst (KeywordScorer.calculateGroupStats this ks)
  = fst (KeywordScorer.calculateGroupStats this' ks').
Proof.
  intros Hv Hc.
  destruct ks as [|k ks], ks' as [|k' ks']; try discriminate; [reflexivity|].
  assert (Hlen : List.length (k :: ks) = List.length (k' :: ks')).
  { rewrite <- (length_map Keyword.volume (k :: ks)), Hv. apply length_map. }
  unfold KeywordScorer.calculateGroupStats, fst, len.
  rewrite Hlen, Hv, Hc.
  simpl in Hv, Hc. injection Hv as Hv0 Hv. injection Hc as Hc0 Hc.
  rewrite Hv0, Hv, Hc0, Hc. reflexivity.
Qed.

Lemma calculateScores_fst (this : KeywordScorer.t) ks :
  fst (KeywordScorer.calculateScores this ks)
  = map (fun k =>
           Keyword.with_score k
             (KeywordScoreResult.score
                (KeywordScorer.calculateScore this k
                   (Some (fst (KeywordScorer.calculateGroupStats this ks))))))
        ks.
Proof.
  unfold KeywordScorer.calculateScores.
  destruct (KeywordScorer.calculateGroupStats this ks) as [stats this'] eqn:E.
  cbn [fst]. apply map_ext. intros k.
  rewrite (calculateScore_weights_only this' this); [reflexivity|].
  change this' with (snd (stats, this')). rewrite <- E.
  apply calculateGroupStats_weights.
Qed.

Lemma calculateScores_volume (this : KeywordScorer.t) ks :
  map Keyword.volume (fst (KeywordScorer.calculateScores this ks)) = map Keyword.volume ks.
Proof. rewrite calculateScores_fst, map_map. reflexivity. Qed.

Lemma calculateScores_competition (this : KeywordScorer.t) ks :
  map Keyword.competition (fst (KeywordScorer.calculateScores this ks))
  = map Keyword.competition ks.
Proof. rewrite calculateScores_fst, map_map. reflexivity. Qed.

Lemma calculateScores_weights (this : KeywordScorer.t) ks :
  KeywordScorer.weights (snd (KeywordScorer.calculateScores this ks))
  = KeywordScorer.weights this.
Proof.
  unfold KeywordScorer.calculateScores.
  pose proof (calculateGroupStats_weights this ks) as H.
  destruct (KeywordScorer.calculateGroupStats this ks). exact H.
Qed.

(** The scores of a batch depend on the instance through its weights only. *)
Lemma calculateScores_weights_only (this this' : KeywordScorer.t) ks :
  KeywordScorer.weights this = KeywordScorer.weights this' ->
  fst (KeywordScorer.calculateScores this ks) = fst (KeywordScorer.calculateScores this' ks).
Proof.
  intros Hw. rewrite !calculateScores_fst. apply map_ext. intros k.
  rewrite (calculateGroupStats_ext this this' ks ks eq_refl eq_refl).
  rewrite (calculateScore_weights_only this this' _ _ Hw). reflexivity.
Qed.


Lemma rawScoreOf_spec w k stats : rawScoreOf w k stats == ScoringSpec.raw k stats w.
Proof.
  unfold rawScoreOf, ScoringSpec.raw, ScoringSpec.ctrBonus, ScoringSpec.normCompetition.
  rewrite ctrBonus_truthy. reflexivity.
Qed.

Lemma clamp_comp (x y lo hi : Q) :
  x == y -> ScoringSpec.clamp x lo hi == ScoringSpec.clamp y lo hi.
Proof.
  intros H. unfold ScoringSpec.clamp, Qlt_bool.
  rewrite (Qleb_comp lo lo (Qeq_refl lo) x y H).
  rewrite (Qleb_comp x y H hi hi (Qeq_refl hi)).
  destruct (negb (Qle_bool lo y)); [reflexivity|].
  destruct (negb (Qle_bool y hi)); [reflexivity|exact H].
Qed.

Lemma with_score_frame (f : Keyword.t -> Q) (ks : list Keyword.t) :
  Forall2 ScoringSpec.sameButScore ks (map (fun k => Keyword.with_score k (f k)) ks).
Proof.
  induction ks as [|k ks IH]; simpl; constructor; [|exact IH].
  unfold ScoringSpec.sameButScore. simpl. repeat split.
Qed.

(** C10: [calculateScores] returns as many keywords, in the same order, each
    the input keyword with its [score] filled in and every other field as it
    was. *)
Theorem calculateScores_frame (this : KeywordScorer.t) (ks : list Keyword.t) :
  let scored := fst (KeywordScorer.calculateScores this ks) in
  List.length scored = List.length ks
  /\ Forall2 ScoringSpec.sameButScore ks scored
  /\ Forall (fun k' => Keyword.score k' <> None) scored.
Proof.
  intros scored. subst scored. rewrite calculateScores_fst.
  split; [apply length_map|]. split.
  - apply with_score_frame.
  - apply Forall_forall. intros k' Hin. apply in_map_iff in Hin.
    destruct Hin as [k [<- _]]. discriminate.
Qed.

(** C8: a second call on the same list, made on the instance as the first
    call left it, returns the same keywords; scoring the output again
    returns the output, so the same scores; the statistics of the output are
    those of the input; and any instance with the same weights returns the
    same keywords. *)
Theorem calculateScores_idempotent (this : KeywordScorer.t) (ks : list Keyword.t) :
  let first := KeywordScorer.calculateScores this ks in
  fst (KeywordScorer.calculateScores (snd first) ks) = fst first
  /\ fst (KeywordScorer.calculateScores (snd first) (fst first)) = fst first
  /\ map Keyword.score (fst (KeywordScorer.calculateScores (snd first) (fst first)))
     = map Keyword.score (fst first)
  /\ fst (KeywordScorer.calculateGroupStats (snd first) (fst first))
     = fst (KeywordScorer.calculateGroupStats this ks)
  /\ (forall other, KeywordScorer.weights other = KeywordScorer.weights this ->
                    fst (KeywordScorer.calculateScores other ks) = fst first).
Proof.
  intros first. subst first.
  assert (Hw := calculateScores_weights this ks).
  assert (Hstats :
    fst (KeywordScorer.calculateGroupStats
           (snd (KeywordScorer.calculateScores this ks))
           (fst (KeywordScorer.calculateScores this ks)))
    = fst (KeywordScorer.calculateGroupStats this ks)).
  { apply calculateGroupStats_ext.
    - apply calculateScores_volume.
    - apply calculateScores_competition. }
  assert (Hagain :
    fst (KeywordScorer.calculateScores
           (snd (KeywordScorer.calculateScores this ks))
           (fst (KeywordScorer.calculateScores this ks)))
    = fst (KeywordScorer.calculateScores this ks)).
  { rewrite (calculateScores_fst (snd (KeywordScorer.calculateScores this ks))).
    rewrite Hstats.
    rewrite (calculateScores_fst this ks).
    rewrite map_map. apply map_ext. intros k.
    rewrite calculateScore_ignores_score.
    rewrite (calculateScore_weights_only
               (snd (KeywordScorer.calculateScores this ks)) this _ _ Hw).
    reflexivity. }
  split; [apply calculateScores_weights_only; exact Hw|].
  split; [exact Hagain|].
  split; [rewrite Hagain; reflexivity|].
  split; [exact Hstats|].
  intros other Hother. apply calculateScores_weights_only. exact Hother.
Qed.

End KeywordScorerFacts.

(* ================================================================= *)
(** * Part VIII: properties of the string operations *)
(* ================================================================= *)

Section SpacingFacts.

Lemma sparse_cons (a : N) (s : jsstring) :
  sparse (a :: s) <->
  match s with
  | b :: _ => isWhiteSpace a = false \/ isWhiteSpace b = false
  | [] => True
  end /\ sparse s.
Proof. destruct s; simpl; tauto. Qed.

Lemma sparse_tail (a : N) (s : jsstring) : sparse (a :: s) -> sparse s.
Proof. intros H. apply sparse_cons in H. tauto. Qed.

Lemma sparse_cons_nonws (a : N) (s : jsstring) :
  isWhiteSpace a = false -> sparse s -> sparse (a :: s).
Proof. intros Ha Hs. apply sparse_cons. split; [destruct s; auto | exact Hs]. Qed.

Lemma sparse_suffix (l s : jsstring) : sparse (l ++ s) -> sparse s.
Proof.
  induction l as [|a l IH]; simpl app; [auto|].
  intros H. apply IH. exact (sparse_tail _ _ H).
Qed.

Lemma sparse_prefix (s l : jsstring) : sparse (s ++ l) -> sparse s.
Proof.
  induction s as [|a s IH]; [simpl; auto|].
  rewrite <- app_comm_cons. intros H. apply sparse_cons in H. destruct H as [Hh Ht].
  apply sparse_cons. split; [|apply IH; exact Ht].
  destruct s; [exact I | exact Hh].
Qed.

Lemma sparse_nth (s : jsstring) (i : nat) (a b : N) :
  sparse s -> nth_error s i = Some a -> nth_error s (S i) = Some b ->
  isWhiteSpace a = false \/ isWhiteSpace b = false.
Proof.
  revert i. induction s as [|x s IH]; intros i Hs Ha Hb; [destruct i; discriminate|].
  destruct i as [|i].
  - simpl in Ha. injection Ha as ->. destruct s as [|y s]; [discriminate|].
    simpl in Hb. injection Hb as ->. apply Hs.
  - simpl in Ha. apply (IH i (sparse_tail _ _ Hs) Ha Hb).
Qed.

Lemma dropWhile_suffix {A} (p : A -> bool) (l : list A) :
  exists dropped, l = dropped ++ dropWhile p l.
Proof.
  induction l as [|x l [d Hd]]; [exists []; reflexivity|].
  simpl. destruct (p x).
  - exists (x :: d). simpl. f_equal. exact Hd.
  - exists []. reflexivity.
Qed.

(** [trim] keeps a contiguous piece of the string. *)
Lemma trim_infix (s : jsstring) : exists before after, s = before ++ trim s ++ after.
Proof.
  unfold trim.
  destruct (dropWhile_suffix isWhiteSpace s) as [before Hb].
  destruct (dropWhile_suffix isWhiteSpace (rev (dropWhile isWhiteSpace s))) as [after Ha].
  exists before, (rev after).
  rewrite <- rev_app_distr, <- Ha, rev_involutive. exact Hb.
Qed.

Lemma trim_sparse (s : jsstring) : sparse s -> sparse (trim s).
Proof.
  intros H. destruct (trim_infix s) as [before [after E]].
  rewrite E in H. apply sparse_suffix in H. apply sparse_prefix in H. exact H.
Qed.

Lemma collapseWhiteSpace_head (s : jsstring) :
  match s with
  | [] => collapseWhiteSpace s = []
  | c :: _ => exists t, collapseWhiteSpace s = (if isWhiteSpace c then SPACE else c) :: t
  end.
Proof.
  induction s as [|c r IH]; [reflexivity|].
  simpl. destruct (isWhiteSpace c) eqn:Ec.
  - destruct r as [|c' r']; [exists []; reflexivity|].
    destruct (isWhiteSpace c') eqn:Ec'.
    + destruct IH as [t Ht]. exists t. exact Ht.
    + eexists. reflexivity.
  - eexists. reflexivity.
Qed.

Lemma collapseWhiteSpace_sparse (s : jsstring) : sparse (collapseWhiteSpace s).
Proof.
  induction s as [|c r IH]; [exact I|].
  simpl. destruct (isWhiteSpace c) eqn:Ec.
  - destruct r as [|c' r']; [exact I|].
    destruct (isWhiteSpace c') eqn:Ec'; [exact IH|].
    pose proof (collapseWhiteSpace_head (c' :: r')) as [t Ht].
    rewrite Ec' in Ht. rewrite Ht in *.
    apply sparse_cons. split; [right; exact Ec' | exact IH].
  - apply sparse_cons_nonws; assumption.
Qed.

Lemma spaceBetween_head (p q : N -> bool) (s : jsstring) :
  hd_error (spaceBetween p q s) = hd_error s.
Proof.
  destruct s as [|a [|b s'']]; simpl; try reflexivity.
  destruct (p a && q b); reflexivity.
Qed.

Lemma spaceBetween_step (p q : N -> bool) (a b : N) (s : jsstring) :
  spaceBetween p q (a :: b :: s)
  = if p a && q b then a :: SPACE :: b :: spaceBetween p q s
    else a :: spaceBetween p q (b :: s).
Proof. reflexivity. Qed.

Lemma spaceBetween_sparse (p q : N -> bool) :
  (forall c, p c = true -> isWhiteSpace c = false) ->
  (forall c, q c = true -> isWhiteSpace c = false) ->
  forall s, sparse s -> sparse (spaceBetween p q s).
Proof.
  intros Hp Hq s.
  remember (List.length s) as n eqn:Hn.
  assert (Hle : (List.length s <= n)%nat) by lia. clear Hn.
  revert s Hle. induction n as [|n IH]; intros s Hle Hs.
  - destruct s; [exact I | simpl in Hle; lia].
  - destruct s as [|a [|b s'']]; [exact I | exact I |].
    simpl in Hle. rewrite spaceBetween_step.
    destruct (p a && q b) eqn:E.
    + apply andb_true_iff in E. destruct E as [Ea Eb].
      apply sparse_cons_nonws; [apply Hp; exact Ea|].
      apply sparse_cons. split; [right; apply Hq; exact Eb|].
      apply sparse_cons_nonws; [apply Hq; exact Eb|].
      apply IH; [lia|]. exact (sparse_tail _ _ (sparse_tail _ _ Hs)).
    + assert (Hrec : sparse (spaceBetween p q (b :: s''))).
      { apply IH; [simpl; lia | exact (sparse_tail _ _ Hs)]. }
      pose proof (spaceBetween_head p q (b :: s'')) as Hh.
      destruct (spaceBetween p q (b :: s'')) as [|b' t]; [discriminate|].
      simpl in Hh. injection Hh as ->.
      apply sparse_cons. split; [apply (proj1 Hs) | exact Hrec].
Qed.

Lemma isHangul_not_ws (c : N) : isHangul c = true -> isWhiteSpace c = false.
Proof.
  unfold isHangul, isWhiteSpace. intros H.
  apply andb_true_iff in H. destruct H as [H1 H2].
  apply N.leb_le in H1. apply N.leb_le in H2.
  repeat match goal with
         | |- (_ || _)%bool = false => apply orb_false_iff; split
         | |- (_ && _)%bool = false => apply andb_false_iff
         end;
    try (apply N.eqb_neq; lia);
    try (right; apply N.leb_gt; lia).
Qed.

Lemma isLatin_not_ws (c : N) : isLatin c = true -> isWhiteSpace c = false.
Proof.
  unfold isLatin, isUpper, isWhiteSpace. intros H.
  assert (Hc : (65 <= c <= 122)%N).
  { apply orb_true_iff in H. destruct H as [H|H];
      apply andb_true_iff in H; destruct H as [H1 H2];
      apply N.leb_le in H1; apply N.leb_le in H2; lia. }
  repeat match goal with
         | |- (_ || _)%bool = false => apply orb_false_iff; split
         | |- (_ && _)%bool = false => apply andb_false_iff
         end;
    try (apply N.eqb_neq; lia);
    try (left; apply N.leb_gt; lia);
    try (right; apply N.leb_gt; lia).
Qed.

Lemma isDigit_not_ws (c : N) : isDigit c = true -> isWhiteSpace c = false.
Proof.
  unfold isDigit, isWhiteSpace. intros H.
  apply andb_true_iff in H. destruct H as [H1 H2].
  apply N.leb_le in H1. apply N.leb_le in H2.
  repeat match goal with
         | |- (_ || _)%bool = false => apply orb_false_iff; split
         | |- (_ && _)%bool = false => apply andb_false_iff
         end;
    try (apply N.eqb_neq; lia);
    try (left; apply N.leb_gt; lia);
    try (right; apply N.leb_gt; lia).
Qed.

Lemma normalizeSpacing_sparse (text : jsstring) :
  sparse (TitleGenerator.normalizeSpacing text).
Proof.
  unfold TitleGenerator.normalizeSpacing.
  apply trim_sparse.
  apply spaceBetween_sparse; [apply isDigit_not_ws | apply isHangul_not_ws |].
  apply spaceBetween_sparse; [apply isLatin_not_ws | apply isHangul_not_ws |].
  apply spaceBetween_sparse; [apply isHangul_not_ws | apply isLatin_not_ws |].
  apply collapseWhiteSpace_sparse.
Qed.

(** C9: the spaced variant is the text with its white-space runs collapsed,
    a space put at each Hangul/Latin, Latin/Hangul and digit/Hangul boundary,
    and trimmed; it never has a space next to a space (nor any two white-space
    units side by side); the unspaced variant is the spaced one without its
    white space, and holds none. *)
Theorem generateSpacingVariants_whitespace (x : jsstring) :
  let variants := TitleGenerator.generateSpacingVariants x in
  let spaced := SpacingVariants.spaced variants in
  let unspaced := SpacingVariants.unspaced variants in
  spaced
  = trim (spaceBetween isDigit isHangul
            (spaceBetween isLatin isHangul
               (spaceBetween isHangul isLatin (collapseWhiteSpace x))))
  /\ unspaced = filter (fun c => negb (isWhiteSpace c)) spaced
  /\ (forall c, In c unspaced -> isWhiteSpace c = false)
  /\ (forall i, nth_error spaced i = Some SPACE -> nth_error spaced (S i) <> Some SPACE)
  /\ (forall i a b, nth_error spaced i = Some a -> nth_error spaced (S i) = Some b ->
                    isWhiteSpace a = false \/ isWhiteSpace b = false).
Proof.
  intros variants spaced unspaced. subst variants spaced unspaced.
  unfold TitleGenerator.generateSpacingVariants.
  cbn [SpacingVariants.unspaced SpacingVariants.spaced].
  split; [reflexivity|]. split; [reflexivity|]. split; [|split].
  - intros c Hin. unfold TitleGenerator.removeSpacing, stripWhiteSpace in Hin.
    apply filter_In in Hin. destruct Hin as [_ Hc].
    apply negb_true_iff. exact Hc.
  - intros i Ha Hb.
    destruct (sparse_nth _ _ _ _ (normalizeSpacing_sparse x) Ha Hb) as [H|H];
      vm_compute in H; discriminate.
  - intros i a b Ha Hb. exact (sparse_nth _ _ _ _ (normalizeSpacing_sparse x) Ha Hb).
Qed.

End SpacingFacts.

(* ================================================================= *)
(** * Part IX: properties of [sort] *)
(* ================================================================= *)

Section SortFacts.
Context {A : Type}.

Lemma insertSorted_perm (compareFn : A -> A -> Q) (x : A) (l : list A) :
  Permutation (insertSorted compareFn x l) (x :: l).
Proof.
  induction l as [|y l IH]; simpl; [reflexivity|].
  destruct (Qle_bool (compareFn x y) 0); [reflexivity|].
  rewrite IH. apply perm_swap.
Qed.

Lemma sort_perm (compareFn : A -> A -> Q) (l : list A) :
  Permutation (sort compareFn l) l.
Proof.
  induction l as [|x l IH]; simpl; [reflexivity|].
  rewrite insertSorted_perm. constructor. exact IH.
Qed.

Lemma sort_In (compareFn : A -> A -> Q) (l : list A) (x : A) :
  In x (sort compareFn l) <-> In x l.
Proof.
  split; apply Permutation_in; [|symmetry]; apply sort_perm.
Qed.

Variable key : A -> Q.

Lemma insertSorted_descending (x : A) (l : list A) :
  StronglySorted (descending key) l ->
  StronglySorted (descending key) (insertSorted (fun a b => key b - key a) x l).
Proof.
  induction l as [|y l IH]; intros Hs; simpl.
  - constructor; constructor.
  - inversion Hs as [|? ? Hl Hy]; subst.
    destruct (Qle_bool (key y - key x) 0) eqn:E.
    + apply Qle_bool_iff in E.
      constructor; [exact Hs|].
      constructor; [unfold descending; lra|].
      eapply Forall_impl; [|exact Hy].
      unfold descending. intros b Hb. lra.
    + assert (Hxy : key x <= key y).
      { destruct (Qlt_le_dec (key y) (key x)) as [Hlt|Hle]; [|exact Hle].
        assert (Qle_bool (key y - key x) 0 = true) by (apply Qle_bool_iff; lra).
        congruence. }
      constructor; [apply IH; exact Hl|].
      assert (Hall : Forall (fun b => key b <= key y) (x :: l))
        by (constructor; [exact Hxy | exact Hy]).
      eapply Permutation_Forall; [|exact Hall].
      symmetry. apply insertSorted_perm.
Qed.

Lemma sort_descending (l : list A) :
  StronglySorted (descending key) (sort (fun a b => key b - key a) l).
Proof.
  induction l as [|x l IH]; simpl; [constructor|].
  apply insertSorted_descending. exact IH.
Qed.

(** A list already in descending order is left as it is: the sort is
    stable. *)
Lemma sort_descending_id (l : list A) :
  StronglySorted (descending key) l -> sort (fun a b => key b - key a) l = l.
Proof.
  induction l as [|x l IH]; intros Hs; simpl; [reflexivity|].
  inversion Hs as [|? ? Hl Hx]; subst.
  rewrite (IH Hl).
  destruct l as [|y l]; [reflexivity|].
  simpl. inversion Hx as [|? ? Hy _]; subst. unfold descending in Hy.
  assert (E : Qle_bool (key y - key x) 0 = true) by (apply Qle_bool_iff; lra).
  rewrite E. reflexivity.
Qed.

Lemma constant_descending (l : list A) (c : Q) :
  Forall (fun a => key a = c) l -> StronglySorted (descending key) l.
Proof.
  induction 1 as [|x l Hx Hl IH]; constructor; [exact IH|].
  eapply Forall_impl; [|exact Hl].
  intros b Hb. unfold descending. rewrite Hx, Hb. apply Qle_refl.
Qed.

Lemma firstn_StronglySorted (R : A -> A -> Prop) (n : nat) (l : list A) :
  StronglySorted R l -> StronglySorted R (firstn n l).
Proof.
  revert n. induction l as [|x l IH]; intros n Hs.
  - rewrite firstn_nil. constructor.
  - destruct n as [|n]; [constructor|].
    inversion Hs as [|? ? Hl Hx]; subst. simpl. constructor; [apply IH; exact Hl|].
    apply Forall_forall. intros y Hy.
    rewrite Forall_forall in Hx. apply Hx.
    rewrite <- (firstn_skipn n l). apply in_or_app. left. exact Hy.
Qed.

Lemma firstn_In (n : nat) (l : list A) (x : A) : In x (firstn n l) -> In x l.
Proof.
  intros H. rewrite <- (firstn_skipn n l). apply in_or_app. left. exact H.
Qed.

End SortFacts.

(* ================================================================= *)
(** * Part X: properties of [CategoryRecommender] *)
(* ================================================================= *)

Lemma len_nonneg {A} (l : list A) : 0 <= len l.
Proof.
  unfold len. change 0 with (inject_Z 0). rewrite <- Zle_Qle. lia.
Qed.

Lemma len_pos {A} (x : A) (l : list A) : 0 < len (x :: l).
Proof.
  unfold len. change 0 with (inject_Z 0). rewrite <- Zlt_Qlt. simpl List.length. lia.
Qed.

Lemma len_le {A B} (l : list A) (l' : list B) :
  (List.length l <= List.length l')%nat -> len l <= len l'.
Proof.
  intros H. unfold len. rewrite <- Zle_Qle. lia.
Qed.

(** The share of [l] in a non-empty [l'] that is at least as long. *)
Lemma share_bounds {A B} (l : list A) (x : B) (l' : list B) :
  (List.length l <= List.length (x :: l'))%nat ->
  0 <= len l / len (x :: l') /\ len l / len (x :: l') <= 1.
Proof.
  intros H. pose proof (len_pos x l') as Hp.
  pose proof (len_nonneg l) as H0. pose proof (len_le l (x :: l') H) as H1.
  split.
  - apply Qle_shift_div_l; [exact Hp | lra].
  - apply Qle_shift_div_r; [exact Hp | lra].
Qed.

Section CategoryRecommenderFacts.
Context {SC : StringCase} {RE : RegExpEngine}.

Lemma matchPatterns_length (patterns : list jsstring) (allText : jsstring)
  (patternMatches : list jsstring) :
  CategoryRecommender.matchPatterns patterns allText = Some patternMatches ->
  (List.length patternMatches <= List.length patterns)%nat.
Proof.
  revert patternMatches.
  induction patterns as [|p ps IH]; intros pm H; simpl in H.
  - injection H as <-. simpl. lia.
  - destruct (RegExp_test p allText) as [matched|]; [|discriminate].
    destruct (CategoryRecommender.matchPatterns ps allText) as [pm'|]; [|discriminate].
    injection H as <-. specialize (IH pm' eq_refl).
    destruct matched; simpl; lia.
Qed.

Lemma frequencyFold_nonneg (keywordMatches : list jsstring) (l : list Keyword.t) (acc : Q) :
  0 <= acc ->
  Forall (fun k => 0 <= orZero (Keyword.score k)) l ->
  0 <= fold_left
         (fun frequencyScore keyword =>
            if existsb (fun match_ =>
                          includes (toLowerCase (Keyword.term keyword)) (toLowerCase match_))
                       keywordMatches
            then frequencyScore + orZero (Keyword.score keyword) / 100
            else frequencyScore)
         l acc.
Proof.
  revert acc. induction l as [|k l IH]; intros acc Hacc Hl; simpl; [exact Hacc|].
  inversion Hl as [|? ? Hk Hl']; subst.
  apply IH; [|exact Hl'].
  destruct (existsb _ keywordMatches); [|exact Hacc].
  assert (0 <= orZero (Keyword.score k) / 100) by (apply Qle_shift_div_l; lra).
  lra.
Qed.

Lemma frequencySum_nonneg (keywordMatches : list jsstring) (keywords : list Keyword.t) :
  0 <= CategoryRecommender.frequencySum keywordMatches keywords.
Proof.
  unfold CategoryRecommender.frequencySum.
  apply frequencyFold_nonneg; [lra|].
  apply Forall_forall. intros k Hk. apply filter_In in Hk. destruct Hk as [_ Hk].
  apply Qlt_bool_iff in Hk. lra.
Qed.

Lemma frequencyScore_bounds (keywordMatches : list jsstring) (keywords : list Keyword.t) :
  let f := Qmin 1 (CategoryRecommender.frequencySum keywordMatches keywords
                   / Qmax 1 (len keywords)) in
  0 <= f /\ f <= 1.
Proof.
  intros f. subst f. split; [|apply Q.le_min_l].
  apply Q.min_glb; [lra|].
  pose proof (frequencySum_nonneg keywordMatches keywords) as Hs.
  pose proof (Q.le_max_l 1 (len keywords)) as Hm.
  apply Qle_shift_div_l; lra.
Qed.

Lemma finalScore_bounds (ks ps fs w c : Q) :
  0 <= ks <= 1 -> 0 <= ps <= 1 -> 0 <= fs <= 1 -> 0 <= w <= 1 -> 0 <= c <= 100 ->
  0 <= (ks * 0.4 + ps * 0.3 + fs * 0.3) * w * (c / 100)
  /\ (ks * 0.4 + ps * 0.3 + fs * 0.3) * w * (c / 100) <= 1.
Proof.
  intros Hks Hps Hfs Hw Hc.
  assert (Ha : 0 <= ks * 0.4 + ps * 0.3 + fs * 0.3 <= 1) by lra.
  assert (Hc' : 0 <= c / 100 <= 1).
  { split; [apply Qle_shift_div_l | apply Qle_shift_div_r]; lra. }
  revert Ha Hc'. generalize (ks * 0.4 + ps * 0.3 + fs * 0.3) (c / 100).
  intros a c' Ha Hc'.
  assert (Haw : 0 <= a * w <= 1) by (split; nra).
  revert Haw. generalize (a * w). intros aw Haw. split; nra.
Qed.

(** What [evaluateRule] returns, field by field. *)
Lemma evaluateRule_inv (rule : CategoryRule.t) (texts : list jsstring)
  (keywords : list Keyword.t) (detail : CategoryRecommendationDetail.t) :
  CategoryRecommender.evaluateRule rule texts keywords = Some detail ->
  let allText := join (js " ") texts in
  let keywordMatches :=
    filter (fun keyword => includes allText (toLowerCase keyword))
           (CategoryRule.keywords rule) in
  exists patternMatches,
    CategoryRecommender.matchPatterns (CategoryRule.patterns rule) allText
    = Some patternMatches
    /\ CategoryRecommendationDetail.matchedRules detail = [rule]
    /\ CategoryRecommendationDetail.keywordMatches detail = keywordMatches
    /\ CategoryRecommendationDetail.patternMatches detail = patternMatches
    /\ RuleScoreBreakdown.keywordScore (CategoryRecommendationDetail.scoreBreakdown detail)
       = match CategoryRule.keywords rule with
         | _ :: _ => len keywordMatches / len (CategoryRule.keywords rule)
         | [] => 0
         end
    /\ RuleScoreBreakdown.patternScore (CategoryRecommendationDetail.scoreBreakdown detail)
       = match CategoryRule.patterns rule with
         | _ :: _ => len patternMatches / len (CategoryRule.patterns rule)
         | [] => 0
         end
    /\ RuleScoreBreakdown.frequencyScore (CategoryRecommendationDetail.scoreBreakdown detail)
       = Qmin 1 (CategoryRecommender.frequencySum keywordMatches keywords
                 / Qmax 1 (len keywords))
    /\ CategoryRecommendationDetail.finalScore detail
       = (RuleScoreBreakdown.keywordScore (CategoryRecommendationDetail.scoreBreakdown detail)
          * 0.4
          + RuleScoreBreakdown.patternScore
              (CategoryRecommendationDetail.scoreBreakdown detail) * 0.3
          + RuleScoreBreakdown.frequencyScore
              (CategoryRecommendationDetail.scoreBreakdown detail) * 0.3)
         * CategoryRule.weight rule * (CategoryRule.confidence rule / 100)
    /\ CategorySuggestion.confidence (CategoryRecommendationDetail.suggestion detail)
       = Math_round (CategoryRecommendationDetail.finalScore detail * 100).
Proof.
  intros H allText keywordMatches. unfold CategoryRecommender.evaluateRule in H.
  fold allText in H. fold keywordMatches in H.
  destruct (CategoryRecommender.matchPatterns (CategoryRule.patterns rule) allText)
    as [patternMatches|]; [|discriminate].
  injection H as <-. exists patternMatches.
  unfold CategoryRecommendationDetail.finalScore.
  cbn [CategoryRecommendationDetail.matchedRules CategoryRecommendationDetail.keywordMatches
       CategoryRecommendationDetail.patternMatches
       CategoryRecommendationDetail.scoreBreakdown
       CategoryRecommendationDetail.suggestion CategorySuggestion.confidence
       RuleScoreBreakdown.keywordScore RuleScoreBreakdown.patternScore
       RuleScoreBreakdown.frequencyScore RuleScoreBreakdown.finalScore].
  repeat split; reflexivity.
Qed.

Lemma evaluateRule_score_bounds (rule : CategoryRule.t) (texts : list jsstring)
  (keywords : list Keyword.t) (detail : CategoryRecommendationDetail.t) :
  0 <= CategoryRule.weight rule <= 1 ->
  0 <= CategoryRule.confidence rule <= 100 ->
  CategoryRecommender.evaluateRule rule texts keywords = Some detail ->
  0 <= CategoryRecommendationDetail.finalScore detail <= 1
  /\ 0 <= CategorySuggestion.confidence (CategoryRecommendationDetail.suggestion detail)
     <= 100.
Proof.
  intros Hw Hc H.
  destruct (evaluateRule_inv _ _ _ _ H)
    as [pm [Hpm [_ [_ [_ [Hk [Hp [Hf [Hfinal Hconf]]]]]]]]].
  assert (Hfs : 0 <= CategoryRecommendationDetail.finalScore detail <= 1).
  { rewrite Hfinal. apply finalScore_bounds; try assumption.
    - rewrite Hk.
      pose proof (filter_length_le
                    (fun keyword => includes (join (js " ") texts) (toLowerCase keyword))
                    (CategoryRule.keywords rule)) as Hlen.
      destruct (CategoryRule.keywords rule) as [|x l]; [lra|].
      apply share_bounds. exact Hlen.
    - rewrite Hp. pose proof (matchPatterns_length _ _ _ Hpm) as Hlen.
      destruct (CategoryRule.patterns rule) as [|x l]; [lra|].
      apply share_bounds. exact Hlen.
    - rewrite Hf. apply frequencyScore_bounds. }
  split; [exact Hfs|].
  rewrite Hconf.
  apply (Math_round_bounds _ 0 100);
    [change (inject_Z 0) with 0 | change (inject_Z 100) with 100]; lra.
Qed.

Lemma calculateCategoryScores_In (rules : list CategoryRule.t) (texts : list jsstring)
  (keywords : list Keyword.t) (scored : list CategoryRecommendationDetail.t) :
  CategoryRecommender.calculateCategoryScores rules texts keywords = Some scored ->
  forall detail,
    In detail scored <->
    exists rule, In rule rules
                 /\ CategoryRecommender.evaluateRule rule texts keywords = Some detail
                 /\ 0 < CategoryRecommendationDetail.finalScore detail.
Proof.
  revert scored. induction rules as [|rule rules IH]; intros scored H detail; simpl in H.
  - injection H as <-. split; [intros [] | intros [r [[] _]]].
  - destruct (CategoryRecommender.evaluateRule rule texts keywords) as [d|] eqn:Ed;
      [|discriminate].
    destruct (CategoryRecommender.calculateCategoryScores rules texts keywords)
      as [rest|]; [|discriminate].
    specialize (IH rest eq_refl detail).
    injection H as <-.
    destruct (Qlt_bool 0 (CategoryRecommendationDetail.finalScore d)) eqn:Epos.
    + apply Qlt_bool_iff in Epos. split.
      * intros [<-|Hin].
        -- exists rule. split; [left; reflexivity|]. split; assumption.
        -- apply IH in Hin. destruct Hin as [r [Hr Hrest]].
           exists r. split; [right; exact Hr | exact Hrest].
      * intros [r [[<-|Hr] [He Hp]]].
        -- left. congruence.
        -- right. apply IH. exists r. split; [exact Hr|]. split; assumption.
    + apply Qlt_bool_false_iff in Epos. split.
      * intros Hin. apply IH in Hin. destruct Hin as [r [Hr Hrest]].
        exists r. split; [right; exact Hr | exact Hrest].
      * intros [r [[<-|Hr] [He Hp]]].
        -- exfalso. rewrite Ed in He. injection He as <-. lra.
        -- apply IH. exists r. split; [exact Hr|]. split; assumption.
Qed.

End CategoryRecommenderFacts.

Section RecommendCategoriesFacts.
Context {SC : StringCase} {RE : RegExpEngine}.

Lemma frequencyFold_filter (keywordMatches : list jsstring) (l : list Keyword.t) (acc : Q) :
  fold_left
    (fun frequencyScore keyword =>
       if existsb (fun match_ =>
                     includes (toLowerCase (Keyword.term keyword)) (toLowerCase match_))
                  keywordMatches
       then frequencyScore + orZero (Keyword.score keyword) / 100
       else frequencyScore)
    (filter (fun k => Qlt_bool 70 (orZero (Keyword.score k))) l) acc
  = fold_left Qplus
      (map (fun k => orZero (Keyword.score k) / 100)
           (filter (fun k =>
                      existsb (fun match_ =>
                                 includes (toLowerCase (Keyword.term k))
                                          (toLowerCase match_))
                              keywordMatches
                      && Qlt_bool 70 (orZero (Keyword.score k)))
                   l))
      acc.
Proof.
  revert acc. induction l as [|k l IH]; intros acc; [reflexivity|].
  simpl filter.
  destruct (Qlt_bool 70 (orZero (Keyword.score k))).
  - rewrite andb_true_r. simpl fold_left at 1.
    destruct (existsb _ keywordMatches); simpl; apply IH.
  - rewrite andb_false_r. apply IH.
Qed.

(** C2, amended: the frequency score of a rule is the sum of [score / 100]
    over the keywords that score above 70 and whose lower-cased term
    contains a lower-cased matched rule keyword, divided by
    [max(1, keyword count)] and capped at 1; the matched rule keywords are
    those found in the joined text. *)
Theorem evaluateRule_frequencyScore (rule : CategoryRule.t) (texts : list jsstring)
  (keywords : list Keyword.t) (detail : CategoryRecommendationDetail.t) :
  CategoryRecommender.evaluateRule rule texts keywords = Some detail ->
  CategoryRecommendationDetail.keywordMatches detail
  = filter (fun keyword => includes (join (js " ") texts) (toLowerCase keyword))
           (CategoryRule.keywords rule)
  /\ RuleScoreBreakdown.frequencyScore (CategoryRecommendationDetail.scoreBreakdown detail)
     = FrequencySpec.amended (CategoryRecommendationDetail.keywordMatches detail) keywords.
Proof.
  intros H.
  destruct (evaluateRule_inv _ _ _ _ H) as [pm [_ [_ [Hkm [_ [_ [_ [Hf _]]]]]]]].
  split; [exact Hkm|].
  rewrite Hf, Hkm. unfold FrequencySpec.amended, CategoryRecommender.frequencySum, sum.
  rewrite frequencyFold_filter. reflexivity.
Qed.

(** Evaluation goes through when every pattern of the table compiles. *)
Lemma recommendCategories_returns (rules : list CategoryRule.t) (keywords : list Keyword.t)
  (components : option ProductTitleComponents.t) (maxSuggestions : nat) :
  (forall pattern text, RegExp_test pattern text <> None) ->
  exists results,
    CategoryRecommender.recommendCategories rules keywords components maxSuggestions
    = Some results.
Proof.
  intros Hre. unfold CategoryRecommender.recommendCategories.
  set (texts := _ ++ _).
  assert (Hscores : exists scored,
             CategoryRecommender.calculateCategoryScores rules texts keywords = Some scored).
  { induction rules as [|rule rules [scored IH]]; simpl; [eexists; reflexivity|].
    assert (Hrule : exists d,
               CategoryRecommender.evaluateRule rule texts keywords = Some d).
    { unfold CategoryRecommender.evaluateRule.
      assert (Hpm : exists pm,
                 CategoryRecommender.matchPatterns (CategoryRule.patterns rule)
                   (join (js " ") texts) = Some pm).
      { induction (CategoryRule.patterns rule) as [|p ps [pm IHp]]; simpl;
          [eexists; reflexivity|].
        destruct (RegExp_test p (join (js " ") texts)) as [m|] eqn:E;
          [|exfalso; exact (Hre _ _ E)].
        rewrite IHp. eexists. reflexivity. }
      destruct Hpm as [pm ->]. eexists. reflexivity. }
    destruct Hrule as [d ->]. rewrite IH. eexists. reflexivity. }
  destruct Hscores as [scored ->]. eexists. reflexivity.
Qed.

(** C7: with every rule weight in [0, 1] and every base confidence in
    [0, 100], each returned suggestion has a confidence between 0 and 100 and
    comes from a rule that scored above zero; no evaluation that scored zero
    is returned; the results are in descending order of [finalScore] and are
    the first [maxSuggestions] of all the evaluations that scored above
    zero. *)
Theorem recommendCategories_bounds (rules : list CategoryRule.t)
  (keywords : list Keyword.t) (components : option ProductTitleComponents.t)
  (maxSuggestions : nat) (results : list CategoryRecommendationDetail.t) :
  (forall rule, In rule rules ->
     0 <= CategoryRule.weight rule <= 1 /\ 0 <= CategoryRule.confidence rule <= 100) ->
  CategoryRecommender.recommendCategories rules keywords components maxSuggestions
  = Some results ->
  let texts :=
    map (fun k => toLowerCase (Keyword.term k)) keywords
    ++ CategoryRecommender.extractAdditionalTexts components in
  (forall detail, In detail results ->
     0 <= CategorySuggestion.confidence (CategoryRecommendationDetail.suggestion detail)
       <= 100
     /\ 0 < CategoryRecommendationDetail.finalScore detail
     /\ exists rule,
          In rule rules
          /\ CategoryRecommendationDetail.matchedRules detail = [rule]
          /\ CategoryRecommender.evaluateRule rule texts keywords = Some detail)
  /\ (forall rule detail,
        In rule rules ->
        CategoryRecommender.evaluateRule rule texts keywords = Some detail ->
        CategoryRecommendationDetail.finalScore detail <= 0 ->
        ~ In detail results)
  /\ StronglySorted (descending CategoryRecommendationDetail.finalScore) results
  /\ (List.length results <= maxSuggestions)%nat
  /\ exists ranked,
       (forall detail,
          In detail ranked <->
          exists rule,
            In rule rules
            /\ CategoryRecommender.evaluateRule rule texts keywords = Some detail
            /\ 0 < CategoryRecommendationDetail.finalScore detail)
       /\ StronglySorted (descending CategoryRecommendationDetail.finalScore) ranked
       /\ results = firstn maxSuggestions ranked.
Proof.
  intros Hrules H texts. unfold CategoryRecommender.recommendCategories in H.
  fold texts in H.
  destruct (CategoryRecommender.calculateCategoryScores rules texts keywords)
    as [scored|] eqn:Hscored; [|discriminate].
  injection H as <-. unfold slice0.
  pose proof (calculateCategoryScores_In _ _ _ _ Hscored) as Hin.
  set (ranked := sort _ scored).
  assert (Hranked : forall detail,
             In detail ranked <->
             exists rule,
               In rule rules
               /\ CategoryRecommender.evaluateRule rule texts keywords = Some detail
               /\ 0 < CategoryRecommendationDetail.finalScore detail).
  { intros detail. unfold ranked. rewrite sort_In. apply Hin. }
  assert (Hsorted : StronglySorted (descending CategoryRecommendationDetail.finalScore)
                                   ranked).
  { apply (sort_descending CategoryRecommendationDetail.finalScore). }
  assert (Hpos : forall detail, In detail (firstn maxSuggestions ranked) ->
             exists rule,
               In rule rules
               /\ CategoryRecommender.evaluateRule rule texts keywords = Some detail
               /\ 0 < CategoryRecommendationDetail.finalScore detail).
  { intros detail Hd. apply Hranked. apply (firstn_In _ _ _ Hd). }
  split; [|split; [|split; [|split]]].
  - intros detail Hd. destruct (Hpos detail Hd) as [rule [Hr [He Hp]]].
    destruct (Hrules rule Hr) as [Hw Hc].
    destruct (evaluateRule_score_bounds _ _ _ _ Hw Hc He) as [_ Hconf].
    destruct (evaluateRule_inv _ _ _ _ He) as [pm [_ [Hm _]]].
    split; [exact Hconf|]. split; [exact Hp|].
    exists rule. repeat split; assumption.
  - intros rule detail Hr He Hzero Hd.
    destruct (Hpos detail Hd) as [_ [_ [_ Hp]]]. lra.
  - apply firstn_StronglySorted. exact Hsorted.
  - apply firstn_le_length.
  - exists ranked. repeat split; try assumption; apply Hranked.
Qed.

End RecommendCategoriesFacts.

(** The claim of C2 fails on a keyword whose term contains the matched rule
    keyword: ["남성셔츠"], scored 90, against the rule keyword ["셔츠"].  The
    code counts it (0.9); the claimed sum is over terms contained in the rule
    keyword and is 0. *)
Lemma frequencyScore_claim_counterexample :
  exists detail,
    @CategoryRecommender.evaluateRule asciiCase literalRegExp
      Examples.shirtRule [js "남성셔츠"] [Examples.shirtKeyword] = Some detail
    /\ RuleScoreBreakdown.frequencyScore (CategoryRecommendationDetail.scoreBreakdown detail)
       == 0.9
    /\ FrequencySpec.claimed (CategoryRecommendationDetail.keywordMatches detail)
         [Examples.shirtKeyword] == 0
    /\ ~ RuleScoreBreakdown.frequencyScore
           (CategoryRecommendationDetail.scoreBreakdown detail)
         == FrequencySpec.claimed (CategoryRecommendationDetail.keywordMatches detail)
              [Examples.shirtKeyword].
Proof.
  eexists. split; [vm_compute; reflexivity|].
  split; [vm_compute; reflexivity|].
  split; [vm_compute; reflexivity|].
  vm_compute. discriminate.
Qed.

Lemma evaluateRule_frequencyScore_witness :
  exists detail,
    @CategoryRecommender.evaluateRule asciiCase literalRegExp
      Examples.shirtRule [js "남성셔츠"] [Examples.shirtKeyword] = Some detail
    /\ RuleScoreBreakdown.frequencyScore (CategoryRecommendationDetail.scoreBreakdown detail)
       = @FrequencySpec.amended asciiCase
           (CategoryRecommendationDetail.keywordMatches detail) [Examples.shirtKeyword].
Proof.
  eexists. split; [vm_compute; reflexivity|].
  apply (@evaluateRule_frequencyScore asciiCase literalRegExp
           Examples.shirtRule [js "남성셔츠"] [Examples.shirtKeyword]).
  vm_compute. reflexivity.
Defined.

Lemma recommendCategories_bounds_witness :
  (forall rule, In rule Examples.rules ->
     0 <= CategoryRule.weight rule <= 1 /\ 0 <= CategoryRule.confidence rule <= 100)
  /\ exists results,
       @CategoryRecommender.recommendCategories asciiCase literalRegExp
         Examples.rules [Examples.shirtKeyword] None 3 = Some results
       /\ List.length results = 1%nat
       /\ forall detail, In detail results ->
            0 <= CategorySuggestion.confidence
                   (CategoryRecommendationDetail.suggestion detail) <= 100
            /\ 0 < CategoryRecommendationDetail.finalScore detail.
Proof.
  assert (Hrules : forall rule, In rule Examples.rules ->
            0 <= CategoryRule.weight rule <= 1 /\ 0 <= CategoryRule.confidence rule <= 100).
  { intros rule [<-|[<-|[]]]; vm_compute; repeat split; discriminate. }
  split; [exact Hrules|].
  eexists. split; [vm_compute; reflexivity|]. split; [reflexivity|].
  intros detail Hd.
  destruct (@recommendCategories_bounds asciiCase literalRegExp
              Examples.rules [Examples.shirtKeyword] None 3 _ Hrules eq_refl)
    as [Hall _].
  destruct (Hall detail Hd) as [Hconf [Hpos _]]. split; assumption.
Defined.

(* ================================================================= *)
(** * Part XI: properties of [includes] and [join] *)
(* ================================================================= *)

Section IncludesFacts.

Lemma startsWith_iff (s p : jsstring) :
  startsWith s p = true <-> exists rest, s = p ++ rest.
Proof.
  revert s. induction p as [|a p IH]; intros s.
  - destruct s; simpl; split; intros _; try reflexivity; eexists; reflexivity.
  - destruct s as [|b s]; simpl.
    + split; [discriminate | intros [rest H]; discriminate].
    + rewrite andb_true_iff, N.eqb_eq, IH. split.
      * intros [-> [rest ->]]. exists rest. reflexivity.
      * intros [rest H]. injection H as -> ->. split; [reflexivity | eexists; reflexivity].
Qed.

(** [s.includes(t)] holds exactly when [t] is a contiguous piece of [s]. *)
Lemma includes_iff (s t : jsstring) :
  includes s t = true <-> exists before after, s = before ++ t ++ after.
Proof.
  induction s as [|a s IH].
  - change (includes [] t) with (startsWith [] t || false).
    rewrite orb_false_r, startsWith_iff. split.
    + intros [rest H]. exists [], rest. exact H.
    + intros [before [after H]]. destruct before; [|discriminate].
      exists after. exact H.
  - change (includes (a :: s) t) with (startsWith (a :: s) t || includes s t).
    rewrite orb_true_iff, startsWith_iff, IH. split.
    + intros [[rest H]|[before [after H]]].
      * exists [], rest. exact H.
      * exists (a :: before), after. rewrite H. reflexivity.
    + intros [before [after H]]. destruct before as [|b before].
      * left. exists after. exact H.
      * right. injection H as -> H. exists before, after. exact H.
Qed.

Lemma includes_refl (s : jsstring) : includes s s = true.
Proof. apply includes_iff. exists [], []. rewrite app_nil_r. reflexivity. Qed.

Lemma includes_trans (s t u : jsstring) :
  includes s t = true -> includes t u = true -> includes s u = true.
Proof.
  rewrite !includes_iff. intros [b1 [a1 ->]] [b2 [a2 ->]].
  exists (b1 ++ b2), (a2 ++ a1). rewrite <- !app_assoc. reflexivity.
Qed.

Lemma includes_app_r (prefix s : jsstring) : includes (prefix ++ s) s = true.
Proof. apply includes_iff. exists prefix, []. rewrite app_nil_r. reflexivity. Qed.

Lemma includes_join (sep : jsstring) (parts : list jsstring) (part : jsstring) :
  In part parts -> includes (join sep parts) part = true.
Proof.
  intros Hin. apply includes_iff.
  induction parts as [|p ps IH]; [destruct Hin|].
  destruct ps as [|p' ps].
  - destruct Hin as [<-|[]]. exists [], []. rewrite app_nil_r. reflexivity.
  - change (join sep (p :: p' :: ps)) with (p ++ sep ++ join sep (p' :: ps)).
    destruct Hin as [<-|Hin].
    + exists [], (sep ++ join sep (p' :: ps)). reflexivity.
    + destruct (IH Hin) as [before [after E]]. rewrite E.
      exists (p ++ sep ++ before), after. rewrite <- !app_assoc. reflexivity.
Qed.

End IncludesFacts.

(* ================================================================= *)
(** * Part XII: properties of [TitleGenerator] *)
(* ================================================================= *)

Section TitleGeneratorFacts.
Context {SC : StringCase}.
Variable config : TitleGenerationConfig.t.

Lemma streq_iff (a b : jsstring) : streq a b = true <-> a = b.
Proof.
  unfold streq. destruct (jsstring_eq_dec a b); split; congruence.
Qed.

Lemma evaluateLengthScore_too_long (title : jsstring) :
  (TitleGenerationConfig.maxLength config < List.length title)%nat ->
  TitleGenerator.evaluateLengthScore config title = 0.
Proof.
  intros H. unfold TitleGenerator.evaluateLengthScore.
  assert (E : Qlt_bool (inject_Z (Z.of_nat (TitleGenerationConfig.maxLength config)))
                       (len title) = true).
  { apply Qlt_bool_iff. unfold len. rewrite <- Zlt_Qlt. lia. }
  rewrite E. reflexivity.
Qed.

Lemma evaluateTitle_issues (title : jsstring) :
  TitleQualityScore.issues (TitleGenerator.evaluateTitle config title)
  = fst (TitleGenerator.analyzeIssues config title
           {| QualityBreakdown.keywordPlacement :=
                TitleGenerator.evaluateKeywordPlacement config title;
              QualityBreakdown.readability := TitleGenerator.evaluateReadability title;
              QualityBreakdown.length := TitleGenerator.evaluateLengthScore config title;
              QualityBreakdown.uniqueness := TitleGenerator.evaluateUniqueness title |}).
Proof.
  unfold TitleGenerator.evaluateTitle. cbv zeta.
  destruct (TitleGenerator.analyzeIssues config title _). reflexivity.
Qed.

Lemma analyzeIssues_too_long (title : jsstring) (breakdown : QualityBreakdown.t) :
  QualityBreakdown.length breakdown = 0 ->
  (TitleGenerationConfig.maxLength config < List.length title)%nat ->
  In (js "제목이 너무 깁니다") (fst (TitleGenerator.analyzeIssues config title breakdown)).
Proof.
  intros Hb Hlen. unfold TitleGenerator.analyzeIssues. cbv zeta.
  rewrite Hb. apply Nat.ltb_lt in Hlen. rewrite Hlen.
  change (Qlt_bool 0 0.8) with true. cbn [fst].
  rewrite !map_app. apply in_or_app. right. apply in_or_app. right.
  apply in_or_app. left. left. reflexivity.
Qed.

Lemma evaluateTitle_too_long (title : jsstring) :
  (TitleGenerationConfig.maxLength config < List.length title)%nat ->
  In (js "제목이 너무 깁니다")
     (TitleQualityScore.issues (TitleGenerator.evaluateTitle config title)).
Proof.
  intros H. rewrite evaluateTitle_issues.
  apply analyzeIssues_too_long; [|exact H].
  apply evaluateLengthScore_too_long. exact H.
Qed.

(** What a returning call returned. *)
Lemma generateTitles_Return (components : ProductTitleComponents.t)
  (keywords : list Keyword.t) (titles : list ScoredTitle.t) :
  TitleGenerator.generateTitles config components keywords = Return titles ->
  ValidationResult.isValid (TitleGenerator.validateInput config components keywords) = true
  /\ titles
     = slice0 10
         (sort (fun a b => ScoredTitle.score b - ScoredTitle.score a)
            (map (fun title =>
                    ScoredTitle.spread title
                      (TitleGenerator.evaluateTitle config (ProductTitle.title_text title)))
                 (map (TitleGenerator.postProcessTitle config)
                    (TitleGenerator.generateTitleCandidates components
                       (TitleGenerator.selectAndSortKeywords config keywords
                          (ProductTitleComponents.keywords components)))))).
Proof.
  unfold TitleGenerator.generateTitles. cbv zeta.
  destruct (ValidationResult.isValid _); simpl negb; cbv iota; intros H;
    [|discriminate].
  injection H as <-. split; reflexivity.
Qed.

(** C6: a returned title longer than [maxLength] carries the issue
    ["제목이 너무 깁니다"] (the title is too long). *)
Theorem generateTitles_length_issue (components : ProductTitleComponents.t)
  (keywords : list Keyword.t) (titles : list ScoredTitle.t) (title : ScoredTitle.t) :
  TitleGenerator.generateTitles config components keywords = Return titles ->
  In title titles ->
  (TitleGenerationConfig.maxLength config < List.length (ScoredTitle.title_text title))%nat ->
  In (js "제목이 너무 깁니다") (ScoredTitle.issues title).
Proof.
  intros H Hin Hlen.
  apply generateTitles_Return in H. destruct H as [_ ->].
  apply firstn_In in Hin. apply sort_In in Hin. apply in_map_iff in Hin.
  destruct Hin as [processed [<- _]].
  unfold ScoredTitle.spread in *. cbn [ScoredTitle.issues ScoredTitle.title_text] in *.
  apply evaluateTitle_too_long. exact Hlen.
Qed.

End TitleGeneratorFacts.

Lemma generateTitles_length_issue_witness :
  exists titles title,
    @TitleGenerator.generateTitles asciiCase Examples.shortConfig
      Examples.womenPhone [Examples.phoneKeyword] = Return titles
    /\ In title titles
    /\ (3 < List.length (ScoredTitle.title_text title))%nat
    /\ In (js "제목이 너무 깁니다") (ScoredTitle.issues title).
Proof.
  eexists. eexists.
  split; [vm_compute; reflexivity|].
  split; [left; reflexivity|].
  split; [vm_compute; lia|].
  apply (@generateTitles_length_issue asciiCase Examples.shortConfig
           Examples.womenPhone [Examples.phoneKeyword] _ _ eq_refl (or_introl eq_refl)).
  vm_compute. lia.
Defined.

Section ValidationFacts.
Context {SC : StringCase}.
Variable config : TitleGenerationConfig.t.

Lemma occurs_iff (catalog : list Keyword.t) (term : jsstring) :
  existsb (fun k => streq (toLowerCase (Keyword.term k)) (toLowerCase term)) catalog = true
  <-> ValidationSpec.occurs catalog term.
Proof.
  unfold ValidationSpec.occurs. rewrite existsb_exists.
  split; intros [k [Hk E]]; exists k; (split; [exact Hk|]); apply streq_iff; exact E.
Qed.

Lemma missing_iff (catalog : list Keyword.t) (requested : list jsstring) (term : jsstring) :
  In term (ValidationSpec.missing catalog requested)
  <-> In term requested /\ ~ ValidationSpec.occurs catalog term.
Proof.
  unfold ValidationSpec.missing. rewrite filter_In, negb_true_iff.
  rewrite <- occurs_iff. rewrite not_true_iff_false. reflexivity.
Qed.

Lemma missing_nil (catalog : list Keyword.t) (requested : list jsstring) :
  (forall term, In term requested -> ValidationSpec.occurs catalog term) ->
  ValidationSpec.missing catalog requested = [].
Proof.
  intros H. destruct (ValidationSpec.missing catalog requested) as [|term rest] eqn:E;
    [reflexivity|].
  assert (Hin : In term (ValidationSpec.missing catalog requested))
    by (rewrite E; left; reflexivity).
  apply missing_iff in Hin. destruct Hin as [Hr Hn]. exfalso. exact (Hn (H term Hr)).
Qed.

(** [availableKeywords.has(term.toLowerCase())] looks the term up among the
    lower-cased catalog terms. *)
Lemma has_available (catalog : list Keyword.t) (term : jsstring) :
  existsb (streq (toLowerCase term)) (map (fun k => toLowerCase (Keyword.term k)) catalog)
  = existsb (fun k => streq (toLowerCase (Keyword.term k)) (toLowerCase term)) catalog.
Proof.
  induction catalog as [|k catalog IH]; [reflexivity|].
  simpl. rewrite IH. f_equal.
  unfold streq.
  destruct (jsstring_eq_dec (toLowerCase term) (toLowerCase (Keyword.term k)));
    destruct (jsstring_eq_dec (toLowerCase (Keyword.term k)) (toLowerCase term));
    congruence.
Qed.

(** The messages of the errors [validateInput] collects, in order. *)
Lemma validateInput_messages (components : ProductTitleComponents.t)
  (catalog : list Keyword.t) :
  map FormError.message
      (ValidationResult.errors (TitleGenerator.validateInput config components catalog))
  = (match ProductTitleComponents.keywords components with
     | [] => [js "최소 1개의 키워드가 필요합니다"]
     | _ :: _ => []
     end)
    ++ (if (TitleGenerationConfig.maxKeywords config
            <? List.length (ProductTitleComponents.keywords components))%nat
        then [js "키워드는 최대 " ++ ofNat (TitleGenerationConfig.maxKeywords config)
              ++ js "개까지 선택 가능합니다"]
        else [])
    ++ (match ValidationSpec.missing catalog (ProductTitleComponents.keywords components) with
        | _ :: _ =>
          [js "존재하지 않는 키워드: "
           ++ join (js ", ")
                (ValidationSpec.missing catalog (ProductTitleComponents.keywords components))]
        | [] => []
        end).
Proof.
  unfold TitleGenerator.validateInput. cbv zeta.
  cbn [ValidationResult.errors].
  assert (Hm : filter
                 (fun term =>
                    negb (existsb (streq (toLowerCase term))
                            (map (fun k => toLowerCase (Keyword.term k)) catalog)))
                 (ProductTitleComponents.keywords components)
               = ValidationSpec.missing catalog (ProductTitleComponents.keywords components)).
  { unfold ValidationSpec.missing. apply filter_ext. intros term.
    rewrite has_available. reflexivity. }
  rewrite Hm. rewrite !map_app.
  destruct (ProductTitleComponents.keywords components); destruct (_ <? _)%nat;
    destruct (ValidationSpec.missing catalog _);
    cbn [map FormError.message]; reflexivity.
Qed.

Lemma validateInput_isValid (components : ProductTitleComponents.t)
  (catalog : list Keyword.t) :
  ValidationResult.isValid (TitleGenerator.validateInput config components catalog)
  = match map FormError.message
            (ValidationResult.errors
               (TitleGenerator.validateInput config components catalog)) with
    | [] => true
    | _ :: _ => false
    end.
Proof.
  unfold TitleGenerator.validateInput. cbv zeta.
  cbn [ValidationResult.isValid ValidationResult.errors].
  destruct (_ ++ _ ++ _); reflexivity.
Qed.

(** The call throws the joined messages when there is one, and returns
    otherwise. *)
Lemma generateTitles_outcome (components : ProductTitleComponents.t)
  (catalog : list Keyword.t) (messages : list jsstring) :
  map FormError.message
      (ValidationResult.errors (TitleGenerator.validateInput config components catalog))
  = messages ->
  match messages with
  | [] => exists titles,
      TitleGenerator.generateTitles config components catalog = Return titles
  | _ :: _ =>
    TitleGenerator.generateTitles config components catalog
    = Throw (js "입력 검증 실패: " ++ join (js ", ") messages)
  end.
Proof.
  intros Hm. unfold TitleGenerator.generateTitles. cbv zeta.
  rewrite validateInput_isValid. rewrite Hm.
  destruct messages; simpl negb; cbv iota; [eexists|]; reflexivity.
Qed.

(** A thrown message holds each collected message. *)
Lemma generateTitles_throws (components : ProductTitleComponents.t)
  (catalog : list Keyword.t) (text : jsstring) :
  In text (map FormError.message
             (ValidationResult.errors
                (TitleGenerator.validateInput config components catalog))) ->
  exists message,
    TitleGenerator.generateTitles config components catalog = Throw message
    /\ forall text',
         In text' (map FormError.message
                     (ValidationResult.errors
                        (TitleGenerator.validateInput config components catalog))) ->
         includes message text' = true.
Proof.
  intros Hin.
  pose proof (generateTitles_outcome components catalog _ eq_refl) as Hout.
  revert Hin Hout.
  generalize (map FormError.message
                (ValidationResult.errors
                   (TitleGenerator.validateInput config components catalog))).
  intros messages Hin Hout.
  destruct messages as [|m ms]; [destruct Hin|].
  eexists. split; [exact Hout|].
  intros text' Hin'. eapply includes_trans; [apply includes_app_r|].
  apply includes_join. exact Hin'.
Qed.

Lemma generateTitles_invalid (components : ProductTitleComponents.t)
  (catalog : list Keyword.t) :
  let requested := ProductTitleComponents.keywords components in
  let limit := TitleGenerationConfig.maxKeywords config in
  let missing := ValidationSpec.missing catalog requested in
  (requested = [] \/ (limit < List.length requested)%nat
   \/ exists term, In term requested /\ ~ ValidationSpec.occurs catalog term) ->
  exists message,
    TitleGenerator.generateTitles config components catalog = Throw message
    /\ (requested = [] -> includes message (js "최소 1개의 키워드가 필요합니다") = true)
    /\ ((limit < List.length requested)%nat ->
        includes message
          (js "키워드는 최대 " ++ ofNat limit ++ js "개까지 선택 가능합니다") = true)
    /\ (missing <> [] ->
        includes message (js "존재하지 않는 키워드: " ++ join (js ", ") missing) = true)
    /\ (forall term, In term requested -> ~ ValidationSpec.occurs catalog term ->
        includes message term = true).
Proof.
  intros requested limit missing Hbad.
  pose proof (validateInput_messages components catalog) as Hmsgs.
  fold requested limit missing in Hmsgs.
  assert (Hfirst : requested = [] ->
            In (js "최소 1개의 키워드가 필요합니다")
               (map FormError.message
                  (ValidationResult.errors
                     (TitleGenerator.validateInput config components catalog)))).
  { intros Hr. rewrite Hmsgs, Hr. left. reflexivity. }
  assert (Hsecond : (limit < List.length requested)%nat ->
            In (js "키워드는 최대 " ++ ofNat limit ++ js "개까지 선택 가능합니다")
               (map FormError.message
                  (ValidationResult.errors
                     (TitleGenerator.validateInput config components catalog)))).
  { intros Hl. rewrite Hmsgs. apply in_or_app. right. apply in_or_app. left.
    apply Nat.ltb_lt in Hl. rewrite Hl. left. reflexivity. }
  assert (Hthird : missing <> [] ->
            In (js "존재하지 않는 키워드: " ++ join (js ", ") missing)
               (map FormError.message
                  (ValidationResult.errors
                     (TitleGenerator.validateInput config components catalog)))).
  { intros Hm. rewrite Hmsgs. apply in_or_app. right. apply in_or_app. right.
    destruct missing; [congruence | left; reflexivity]. }
  assert (Hterm : forall term, In term requested -> ~ ValidationSpec.occurs catalog term ->
            In term missing).
  { intros term Hr Hn. apply missing_iff. split; assumption. }
  assert (Hsome : exists text,
            In text (map FormError.message
                       (ValidationResult.errors
                          (TitleGenerator.validateInput config components catalog)))).
  { destruct Hbad as [Hr|[Hl|[term [Hr Hn]]]].
    - eexists. exact (Hfirst Hr).
    - eexists. exact (Hsecond Hl).
    - eexists. apply Hthird. intros E. pose proof (Hterm term Hr Hn) as Hin.
      rewrite E in Hin. destruct Hin. }
  destruct Hsome as [text Htext].
  destruct (generateTitles_throws components catalog text Htext) as [message [Hthrow Hall]].
  exists message. split; [exact Hthrow|].
  split; [intros Hr; exact (Hall _ (Hfirst Hr))|].
  split; [intros Hl; exact (Hall _ (Hsecond Hl))|].
  split; [intros Hm; exact (Hall _ (Hthird Hm))|].
  intros term Hr Hn. pose proof (Hterm term Hr Hn) as Hin.
  assert (Hm : missing <> []) by (intros E; rewrite E in Hin; destruct Hin).
  eapply includes_trans; [exact (Hall _ (Hthird Hm))|].
  eapply includes_trans; [apply includes_app_r|].
  apply includes_join. exact Hin.
Qed.

Lemma scenarioB_message :
  js "입력 검증 실패: "
  ++ join (js ", ") [js "존재하지 않는 키워드: " ++ join (js ", ") [js "케이스"]]
  = js "입력 검증 실패: 존재하지 않는 키워드: 케이스".
Proof. vm_compute. reflexivity. Qed.

Lemma generateTitles_scenarioB (components : ProductTitleComponents.t)
  (catalog : list Keyword.t) :
  ProductTitleComponents.keywords components = [js "스마트폰"; js "케이스"] ->
  (2 <= TitleGenerationConfig.maxKeywords config)%nat ->
  ValidationSpec.occurs catalog (js "스마트폰") ->
  ~ ValidationSpec.occurs catalog (js "케이스") ->
  TitleGenerator.generateTitles config components catalog
  = Throw (js "입력 검증 실패: 존재하지 않는 키워드: 케이스").
Proof.
  intros Hr Hl Hphone Hcase.
  assert (Hm : ValidationSpec.missing catalog [js "스마트폰"; js "케이스"] = [js "케이스"]).
  { unfold ValidationSpec.missing. cbn [filter].
    apply occurs_iff in Hphone.
    assert (Hc : existsb
                   (fun k => streq (toLowerCase (Keyword.term k))
                                   (toLowerCase (js "케이스")))
                   catalog = false).
    { apply not_true_iff_false. intros E. apply occurs_iff in E. contradiction. }
    rewrite Hphone, Hc. reflexivity. }
  assert (Hmsgs : map FormError.message
                    (ValidationResult.errors
                       (TitleGenerator.validateInput config components catalog))
                  = [js "존재하지 않는 키워드: " ++ join (js ", ") [js "케이스"]]).
  { rewrite validateInput_messages, Hr, Hm.
    assert (Hlt : (TitleGenerationConfig.maxKeywords config
                   <? List.length [js "스마트폰"; js "케이스"])%nat = false).
    { apply Nat.ltb_ge. exact Hl. }
    rewrite Hlt. reflexivity. }
  pose proof (generateTitles_outcome components catalog _ Hmsgs) as Hout.
  cbv iota in Hout. rewrite Hout. rewrite scenarioB_message. reflexivity.
Qed.

Lemma generateTitles_valid (components : ProductTitleComponents.t)
  (catalog : list Keyword.t) :
  ProductTitleComponents.keywords components <> [] ->
  (List.length (ProductTitleComponents.keywords components)
   <= TitleGenerationConfig.maxKeywords config)%nat ->
  (forall term, In term (ProductTitleComponents.keywords components) ->
                ValidationSpec.occurs catalog term) ->
  exists titles, TitleGenerator.generateTitles config components catalog = Return titles.
Proof.
  intros Hr Hl Hall.
  assert (Hmsgs : map FormError.message
                    (ValidationResult.errors
                       (TitleGenerator.validateInput config components catalog))
                  = []).
  { rewrite validateInput_messages, (missing_nil _ _ Hall).
    assert (Hlt : (TitleGenerationConfig.maxKeywords config
                   <? List.length (ProductTitleComponents.keywords components))%nat
                  = false)
      by (apply Nat.ltb_ge; exact Hl).
    rewrite Hlt.
    destruct (ProductTitleComponents.keywords components); [congruence | reflexivity]. }
  exact (generateTitles_outcome components catalog _ Hmsgs).
Qed.

Lemma scenarioB_occurs :
  @ValidationSpec.occurs asciiCase [Examples.keyword (js "스마트폰") 10000 85 None]
    (js "스마트폰")
  /\ ~ @ValidationSpec.occurs asciiCase [Examples.keyword (js "스마트폰") 10000 85 None]
        (js "케이스").
Proof.
  split.
  - eexists. split; [left; reflexivity | reflexivity].
  - intros [k [[<-|[]] E]]. vm_compute in E. discriminate.
Qed.

(** C4: [generateTitles] throws, with no titles, when no keyword is
    requested, when more are requested than [maxKeywords], or when a
    requested term does not occur (case-insensitively) in the catalog; the
    message holds the message of each failure and every missing term; a
    request for ["스마트폰"] and ["케이스"] against a catalog with the first
    and without the second throws the message naming ["케이스"] alone; and a
    valid request returns. *)
Theorem generateTitles_validation (components : ProductTitleComponents.t)
  (catalog : list Keyword.t) :
  let requested := ProductTitleComponents.keywords components in
  let limit := TitleGenerationConfig.maxKeywords config in
  let missing := ValidationSpec.missing catalog requested in
  let outcome := TitleGenerator.generateTitles config components catalog in
  ((requested = [] \/ (limit < List.length requested)%nat
    \/ exists term, In term requested /\ ~ ValidationSpec.occurs catalog term) ->
   exists message,
     outcome = Throw message
     /\ (requested = [] -> includes message (js "최소 1개의 키워드가 필요합니다") = true)
     /\ ((limit < List.length requested)%nat ->
         includes message
           (js "키워드는 최대 " ++ ofNat limit ++ js "개까지 선택 가능합니다") = true)
     /\ (missing <> [] ->
         includes message (js "존재하지 않는 키워드: " ++ join (js ", ") missing) = true)
     /\ (forall term, In term requested -> ~ ValidationSpec.occurs catalog term ->
         includes message term = true))
  /\ (forall term, In term missing
                   <-> In term requested /\ ~ ValidationSpec.occurs catalog term)
  /\ (requested = [js "스마트폰"; js "케이스"] -> (2 <= limit)%nat ->
      ValidationSpec.occurs catalog (js "스마트폰") ->
      ~ ValidationSpec.occurs catalog (js "케이스") ->
      outcome = Throw (js "입력 검증 실패: 존재하지 않는 키워드: 케이스"))
  /\ (requested <> [] -> (List.length requested <= limit)%nat ->
      (forall term, In term requested -> ValidationSpec.occurs catalog term) ->
      exists titles, outcome = Return titles).
Proof.
  intros requested limit missing outcome.
  split; [exact (generateTitles_invalid components catalog)|].
  split; [intros term; apply missing_iff|].
  split; [exact (generateTitles_scenarioB components catalog)|].
  exact (generateTitles_valid components catalog).
Qed.

End ValidationFacts.

Section GenerationOrderFacts.
Context {SC : StringCase}.
Variable config : TitleGenerationConfig.t.

Lemma createTitleFromPattern_score (titleText : jsstring)
  (components : ProductTitleComponents.t) (keywords : list jsstring) :
  ProductTitle.score (TitleGenerator.createTitleFromPattern titleText components keywords)
  = 0.
Proof. reflexivity. Qed.

(** Every candidate is created with [score: 0]. *)
Lemma generateTitleCandidates_score (components : ProductTitleComponents.t)
  (keywords : list jsstring) :
  Forall (fun candidate => ProductTitle.score candidate = 0)
         (TitleGenerator.generateTitleCandidates components keywords).
Proof.
  unfold TitleGenerator.generateTitleCandidates. cbv zeta.
  apply Forall_forall. intros candidate Hin.
  apply filter_In in Hin. destruct Hin as [Hin _].
  repeat (apply in_app_or in Hin; destruct Hin as [Hin|Hin]).
  - destruct Hin as [<-|[]]. reflexivity.
  - destruct (truthyStr _); [|destruct Hin]. destruct Hin as [<-|[]]. reflexivity.
  - destruct (ProductTitleComponents.features components) as [[|f0 fs]|];
      try destruct Hin.
    + subst candidate. reflexivity.
    + contradiction.
  - destruct (truthyStr _); [|destruct Hin]. destruct Hin as [<-|[]]. reflexivity.
  - destruct (truthyStr _); [|destruct Hin]. destruct Hin as [<-|[]]. reflexivity.
  - destruct (2 <=? _)%nat; [|destruct Hin].
    apply in_map_iff in Hin. destruct Hin as [combination [<- _]]. reflexivity.
Qed.

(** Post-processing leaves [score] as it was. *)
Lemma postProcessTitle_score (title : ProductTitle.t) :
  ProductTitle.score (TitleGenerator.postProcessTitle config title)
  = ProductTitle.score title.
Proof.
  unfold TitleGenerator.postProcessTitle. cbv zeta.
  destruct (TitleGenerator.removeStopwords config (ProductTitle.title_text title))
    as [filteredText removedWords].
  destruct (TitleGenerationConfig.removeDuplicates config).
  - destruct (TitleGenerator.removeDuplicateWords filteredText). reflexivity.
  - reflexivity.
Qed.

(** The field the sort reads is 0 on every scored title, so the sort leaves
    the titles in the order in which the candidates were generated. *)
Lemma generateTitles_generation_order (components : ProductTitleComponents.t)
  (keywords : list Keyword.t) (titles : list ScoredTitle.t) :
  TitleGenerator.generateTitles config components keywords = Return titles ->
  titles
  = slice0 10
      (map (fun title =>
              ScoredTitle.spread title
                (TitleGenerator.evaluateTitle config (ProductTitle.title_text title)))
         (map (TitleGenerator.postProcessTitle config)
            (TitleGenerator.generateTitleCandidates components
               (TitleGenerator.selectAndSortKeywords config keywords
                  (ProductTitleComponents.keywords components)))))
  /\ Forall (fun title => ScoredTitle.score title = 0) titles.
Proof.
  intros H. apply generateTitles_Return in H. destruct H as [_ ->].
  set (candidates := TitleGenerator.generateTitleCandidates _ _).
  assert (Hzero : Forall (fun title => ScoredTitle.score title = 0)
                    (map (fun title =>
                            ScoredTitle.spread title
                              (TitleGenerator.evaluateTitle config
                                 (ProductTitle.title_text title)))
                       (map (TitleGenerator.postProcessTitle config) candidates))).
  { apply Forall_forall. intros scored Hin.
    apply in_map_iff in Hin. destruct Hin as [processed [<- Hin]].
    apply in_map_iff in Hin. destruct Hin as [candidate [<- Hin]].
    unfold ScoredTitle.spread. cbn [ScoredTitle.score].
    rewrite postProcessTitle_score.
    pose proof (generateTitleCandidates_score components
                  (TitleGenerator.selectAndSortKeywords config keywords
                     (ProductTitleComponents.keywords components))) as Hc.
    rewrite Forall_forall in Hc. apply Hc. exact Hin. }
  rewrite (sort_descending_id ScoredTitle.score _
             (constant_descending ScoredTitle.score _ 0 Hzero)).
  split; [reflexivity|].
  apply Forall_forall. intros title Hin. apply firstn_In in Hin.
  rewrite Forall_forall in Hzero. apply Hzero. exact Hin.
Qed.

End GenerationOrderFacts.

(** C1 at [{ keywords: ["phone"], demographic: "women" }] with the default
    configuration: the two titles come back in generation order, both with
    [score] 0, the first with the lower overall quality (0.66 before
    0.76). *)
Theorem generateTitles_order_ignores_overall :
  exists first second,
    @TitleGenerator.generateTitles asciiCase TitleGenerator.DEFAULT_TITLE_CONFIG
      Examples.womenPhone [Examples.phoneKeyword] = Return [first; second]
    /\ ScoredTitle.title_text first = js "phone"
    /\ ScoredTitle.title_text second = js "women phone"
    /\ ScoredTitle.score first = 0
    /\ ScoredTitle.score second = 0
    /\ ScoredTitle.overall first == 0.66
    /\ ScoredTitle.overall second == 0.76
    /\ ScoredTitle.overall first < ScoredTitle.overall second.
Proof.
  eexists. eexists.
  split; [vm_compute; reflexivity|].
  repeat split; vm_compute; reflexivity.
Qed.

Section QualityScaleFacts.
Context {SC : StringCase}.
Variable config : TitleGenerationConfig.t.

Lemma Math_round_upper (x : Q) (hi : Z) : x <= inject_Z hi -> Math_round x <= inject_Z hi.
Proof.
  intros Hhi. unfold Math_round. rewrite <- Zle_Qle.
  assert (Hlt : (Qfloor (x + 0.5) < hi + 1)%Z).
  { rewrite Zlt_Qlt. apply Qle_lt_trans with (x + 0.5).
    - apply Qfloor_le.
    - rewrite inject_Z_plus. change (inject_Z 1) with 1. lra. }
  lia.
Qed.

Lemma len_cons {A} (x : A) (l : list A) : len (x :: l) == len l + 1.
Proof.
  unfold len. simpl List.length. rewrite Nat2Z.inj_succ. unfold Z.succ.
  rewrite inject_Z_plus. reflexivity.
Qed.

(** The placement rewards gathered over [terms] add at most one each. *)
Lemma placementFold_le (words terms : list jsstring) (acc : Q) :
  fold_left
    (fun score keyword =>
       match findIndex (fun word => includes (toLowerCase word) (toLowerCase keyword))
                       words with
       | Some position =>
         score + Qmax 0 (1 - inject_Z (Z.of_nat position) / len words)
       | None => score
       end)
    terms acc
  <= acc + len terms.
Proof.
  revert acc. induction terms as [|keyword terms IH]; intros acc.
  - simpl. change (len (@nil jsstring)) with 0. lra.
  - simpl fold_left. eapply Qle_trans; [apply IH|].
    rewrite len_cons.
    destruct (findIndex _ words) as [position|].
    + assert (Hp : Qmax 0 (1 - inject_Z (Z.of_nat position) / len words) <= 1).
      { apply Q.max_lub; [lra|].
        assert (0 <= inject_Z (Z.of_nat position) / len words).
        { destruct words as [|w ws].
          - change (len (@nil jsstring)) with 0. unfold Qdiv.
            change (/ 0) with 0. lra.
          - apply Qle_shift_div_l; [apply len_pos|].
            assert (0 <= inject_Z (Z.of_nat position))
              by (change 0 with (inject_Z 0); rewrite <- Zle_Qle; lia).
            lra. }
        lra. }
      lra.
    + lra.
Qed.

Lemma evaluateKeywordPlacement_le_1 (title : jsstring) :
  TitleGenerator.evaluateKeywordPlacement config title <= 1.
Proof.
  unfold TitleGenerator.evaluateKeywordPlacement. cbv zeta.
  destruct (split_ws title) as [|w ws] eqn:Ew; [lra|].
  set (terms := if existsb _ _ then _ else _).
  pose proof (placementFold_le (w :: ws) terms 0) as Hfold.
  destruct terms as [|t ts]; [lra|].
  apply Qle_shift_div_r; [apply len_pos|]. lra.
Qed.

Lemma evaluateReadability_le_1 (title : jsstring) :
  TitleGenerator.evaluateReadability title <= 1.
Proof.
  unfold TitleGenerator.evaluateReadability. cbv zeta.
  apply Q.max_lub; [lra|].
  destruct (_ || _)%bool; destruct (_ || _)%bool; destruct (3 <? _)%nat;
    destruct (hasRunOf3 isUpper title); lra.
Qed.

Lemma evaluateLengthScore_le_1 (title : jsstring) :
  TitleGenerator.evaluateLengthScore config title <= 1.
Proof.
  unfold TitleGenerator.evaluateLengthScore. cbv zeta.
  pose proof (len_nonneg title) as Hlen.
  set (length := len title) in *.
  set (maxLength := inject_Z (Z.of_nat (TitleGenerationConfig.maxLength config))).
  destruct (Qlt_bool maxLength length) eqn:Eover; [lra|].
  apply Qlt_bool_false_iff in Eover.
  destruct (Qle_bool (maxLength * 0.6) length && Qle_bool length (maxLength * 0.9)) eqn:Eideal;
    [lra|].
  destruct (Qlt_bool length (maxLength * 0.6)) eqn:Eshort.
  - apply Qlt_bool_iff in Eshort. apply Qle_shift_div_r; lra.
  - apply Qlt_bool_false_iff in Eshort.
    apply andb_false_iff in Eideal. destruct Eideal as [E|E].
    + apply Qle_bool_iff in Eshort. congruence.
    + assert (Hgt : maxLength * 0.9 < length).
      { apply Qnot_le_lt. intros Hle. apply Qle_bool_iff in Hle. congruence. }
      assert (0 <= (length - maxLength * 0.9) / (maxLength - maxLength * 0.9)).
      { apply Qle_shift_div_l; lra. }
      lra.
Qed.

Lemma uniquenessFold_le (title : jsstring) (phrases : list jsstring) (acc : Q) :
  fold_left (fun score phrase => if includes title phrase then score - 0.1 else score)
            phrases acc
  <= acc.
Proof.
  revert acc. induction phrases as [|phrase phrases IH]; intros acc; simpl; [lra|].
  eapply Qle_trans; [apply IH|].
  destruct (includes title phrase); lra.
Qed.

Lemma evaluateUniqueness_le_1 (title : jsstring) :
  TitleGenerator.evaluateUniqueness title <= 1.
Proof.
  unfold TitleGenerator.evaluateUniqueness. cbv zeta.
  pose proof (uniquenessFold_le title TitleGenerator.commonPhrases 1.0) as Hfold.
  apply Q.max_lub; [lra|].
  destruct (5 <? _)%nat; lra.
Qed.

(** The overall score of [evaluateTitle] is the rounded average of four
    scores that are at most 1 each: it never exceeds 1, whatever the title
    and the configuration. *)
Lemma evaluateTitle_overall_le_1 (title : jsstring) :
  TitleQualityScore.overall (TitleGenerator.evaluateTitle config title) <= 1.
Proof.
  unfold TitleGenerator.evaluateTitle. cbv zeta.
  destruct (TitleGenerator.analyzeIssues config title _) as [issues suggestions].
  cbn [TitleQualityScore.overall QualityBreakdown.keywordPlacement
       QualityBreakdown.readability QualityBreakdown.length QualityBreakdown.uniqueness].
  pose proof (evaluateKeywordPlacement_le_1 title) as Hk.
  pose proof (evaluateReadability_le_1 title) as Hr.
  pose proof (evaluateLengthScore_le_1 title) as Hl.
  pose proof (evaluateUniqueness_le_1 title) as Hu.
  set (total := 0 + _ + _ + _ + _).
  assert (Htotal : total <= 4) by (unfold total; lra).
  assert (Havg : total / 4 <= 1) by (apply Qle_shift_div_r; lra).
  assert (Hround : Math_round (total / 4 * 100) <= inject_Z 100).
  { apply Math_round_upper. change (inject_Z 100) with 100. lra. }
  change (inject_Z 100) with 100 in Hround.
  apply Qle_shift_div_r; lra.
Qed.

End QualityScaleFacts.

(** C3 at the 42-unit title
    ["premiumleathersmartphonecasewithstrap case"] with the default
    configuration: the four sub-scores are 1 each and the overall score is
    1, not 100. *)
Theorem evaluateTitle_overall_unit_scale :
  let quality :=
    @TitleGenerator.evaluateTitle asciiCase TitleGenerator.DEFAULT_TITLE_CONFIG
      Examples.strapCaseTitle in
  QualityBreakdown.keywordPlacement (TitleQualityScore.breakdown quality) == 1
  /\ QualityBreakdown.readability (TitleQualityScore.breakdown quality) == 1
  /\ QualityBreakdown.length (TitleQualityScore.breakdown quality) == 1
  /\ QualityBreakdown.uniqueness (TitleQualityScore.breakdown quality) == 1
  /\ TitleQualityScore.overall quality == 1
  /\ ~ TitleQualityScore.overall quality == 100.
Proof.
  cbv zeta. repeat split; try (vm_compute; reflexivity).
  vm_compute. discriminate.
Qed.

(** Scenario B run on a catalog that holds ["스마트폰"] alone. *)
Example generateTitles_scenarioB_run :
  @TitleGenerator.generateTitles asciiCase TitleGenerator.DEFAULT_TITLE_CONFIG
    Examples.phoneCase [Examples.keyword (js "스마트폰") 10000 85 None]
  = Throw (js "입력 검증 실패: 존재하지 않는 키워드: 케이스").
Proof. vm_compute. reflexivity. Qed.

(* ================================================================= *)
(** * Part XIII: further properties of [KeywordScorer] *)
(* ================================================================= *)

Section GroupStatsFacts.

Lemma minOf_le_head (x : Q) (xs : list Q) : minOf x xs <= x.
Proof.
  unfold minOf. revert x. induction xs as [|y xs IH]; intros x; simpl; [lra|].
  eapply Qle_trans; [apply IH|]. apply Q.le_min_l.
Qed.

Lemma minOf_le (x : Q) (xs : list Q) (v : Q) : In v xs -> minOf x xs <= v.
Proof.
  unfold minOf. revert x. induction xs as [|y xs IH]; intros x Hin; [destruct Hin|].
  simpl. destruct Hin as [<-|Hin].
  - eapply Qle_trans; [apply (minOf_le_head (Qmin x y) xs)|]. apply Q.le_min_r.
  - apply IH. exact Hin.
Qed.

Lemma maxOf_ge_head (x : Q) (xs : list Q) : x <= maxOf x xs.
Proof.
  unfold maxOf. revert x. induction xs as [|y xs IH]; intros x; simpl; [lra|].
  eapply Qle_trans; [|apply IH]. apply Q.le_max_l.
Qed.

Lemma maxOf_ge (x : Q) (xs : list Q) (v : Q) : In v xs -> v <= maxOf x xs.
Proof.
  unfold maxOf. revert x. induction xs as [|y xs IH]; intros x Hin; [destruct Hin|].
  simpl. destruct Hin as [<-|Hin].
  - eapply Qle_trans; [|apply (maxOf_ge_head (Qmax x y) xs)]. apply Q.le_max_r.
  - apply IH. exact Hin.
Qed.

Lemma sum_fold_bounds (lo hi : Q) (xs : list Q) (acc : Q) :
  Forall (fun v => lo <= v /\ v <= hi) xs ->
  acc + lo * len xs <= fold_left Qplus xs acc
  /\ fold_left Qplus xs acc <= acc + hi * len xs.
Proof.
  revert acc. induction xs as [|x xs IH]; intros acc Hall.
  - simpl. change (len (@nil Q)) with 0. lra.
  - inversion Hall as [|? ? [Hlo Hhi] Hrest]; subst.
    simpl fold_left. destruct (IH (acc + x) Hrest) as [H1 H2].
    rewrite len_cons. split; lra.
Qed.

(** The mean of a non-empty list lies between any bounds of its elements. *)
Lemma mean_bounds (lo hi x : Q) (xs : list Q) :
  Forall (fun v => lo <= v /\ v <= hi) (x :: xs) ->
  lo <= sum (x :: xs) / len (x :: xs) /\ sum (x :: xs) / len (x :: xs) <= hi.
Proof.
  intros Hall. unfold sum.
  destruct (sum_fold_bounds lo hi (x :: xs) 0 Hall) as [H1 H2].
  pose proof (len_pos x xs) as Hp.
  split; [apply Qle_shift_div_l | apply Qle_shift_div_r]; try exact Hp; lra.
Qed.

Lemma range_of_list (x : Q) (xs : list Q) :
  Forall (fun v => minOf x xs <= v /\ v <= maxOf x xs) (x :: xs).
Proof.
  apply Forall_forall. intros v [<-|Hin].
  - split; [apply minOf_le_head | apply maxOf_ge_head].
  - split; [apply minOf_le | apply maxOf_ge]; exact Hin.
Qed.

(** X1: for a non-empty batch the statistics bracket every keyword (each
    volume and competition lies between the minimum and the maximum), count
    the keywords, and are remembered by the instance, whose weights stay; for
    an empty batch the fixed defaults come back (maximum 1, everything else
    0) and the instance is left as it was. *)
Theorem calculateGroupStats_brackets (this : KeywordScorer.t) (k : Keyword.t)
  (ks : list Keyword.t) :
  let stats := fst (KeywordScorer.calculateGroupStats this (k :: ks)) in
  let this' := snd (KeywordScorer.calculateGroupStats this (k :: ks)) in
  Forall (fun kw =>
            KeywordGroupStats.minVolume stats <= Keyword.volume kw
            /\ Keyword.volume kw <= KeywordGroupStats.maxVolume stats
            /\ KeywordGroupStats.minCompetition stats <= Keyword.competition kw
            /\ Keyword.competition kw <= KeywordGroupStats.maxCompetition stats)
         (k :: ks)
  /\ KeywordGroupStats.totalKeywords stats = len (k :: ks)
  /\ KeywordScorer.groupStats this' = Some stats
  /\ KeywordScorer.weights this' = KeywordScorer.weights this
  /\ KeywordScorer.calculateGroupStats this []
     = ({| KeywordGroupStats.minVolume := 0; KeywordGroupStats.maxVolume := 1;
           KeywordGroupStats.avgVolume := 0; KeywordGroupStats.minCompetition := 0;
           KeywordGroupStats.maxCompetition := 1; KeywordGroupStats.avgCompetition := 0;
           KeywordGroupStats.totalKeywords := 0 |}, this).
Proof.
  intros stats this'. subst stats this'.
  unfold KeywordScorer.calculateGroupStats.
  cbn [fst snd KeywordGroupStats.minVolume KeywordGroupStats.maxVolume
       KeywordGroupStats.avgVolume KeywordGroupStats.minCompetition
       KeywordGroupStats.maxCompetition KeywordGroupStats.avgCompetition
       KeywordGroupStats.totalKeywords KeywordScorer.groupStats KeywordScorer.weights].
  pose proof (range_of_list (Keyword.volume k) (map Keyword.volume ks)) as Hv.
  pose proof (range_of_list (Keyword.competition k) (map Keyword.competition ks)) as Hc.
  split.
  - rewrite Forall_forall in Hv, Hc. apply Forall_forall. intros kw Hin.
    destruct (Hv (Keyword.volume kw)) as [Hv1 Hv2];
      [apply (in_map Keyword.volume (k :: ks)); exact Hin|].
    destruct (Hc (Keyword.competition kw)) as [Hc1 Hc2];
      [apply (in_map Keyword.competition (k :: ks)); exact Hin|].
    repeat split; assumption.
  - repeat split.
Qed.

End GroupStatsFacts.

Section TagWeightFacts.

Lemma tagWeights_range (tag : KeywordTag.t) :
  0.2 <= KeywordScorer.tagWeights tag /\ KeywordScorer.tagWeights tag <= 0.8.
Proof. destruct tag; simpl; split; lra. Qed.

Lemma tagWeightFold_bounds (tags : list KeywordTag.t) (acc : Q) :
  acc + 0.2 * len tags
  <= fold_left (fun sum tag => sum + KeywordScorer.tagWeights tag) tags acc
  /\ fold_left (fun sum tag => sum + KeywordScorer.tagWeights tag) tags acc
     <= acc + 0.8 * len tags.
Proof.
  revert acc. induction tags as [|tag tags IH]; intros acc.
  - simpl. change (len (@nil KeywordTag.t)) with 0. lra.
  - simpl fold_left. destruct (IH (acc + KeywordScorer.tagWeights tag)) as [H1 H2].
    destruct (tagWeights_range tag) as [Hlo Hhi].
    rewrite len_cons. split; lra.
Qed.

(** X2: a keyword without tags has tag weight 0; with at least one tag the
    weight lies between 4/15 (the lowest base weight 0.2 plus the bonus
    0.2/3 of a single tag) and 1. *)
Theorem calculateTagWeight_range :
  KeywordScorer.calculateTagWeight [] = 0
  /\ forall tag tags,
       4 # 15 <= KeywordScorer.calculateTagWeight (tag :: tags)
       /\ KeywordScorer.calculateTagWeight (tag :: tags) <= 1.
Proof.
  split; [reflexivity|]. intros tag tags.
  unfold KeywordScorer.calculateTagWeight.
  destruct (tagWeightFold_bounds (tag :: tags) 0) as [Hlo Hhi].
  pose proof (len_pos tag tags) as Hp.
  assert (Hone : 1 <= len (tag :: tags)).
  { rewrite len_cons. pose proof (len_nonneg tags). lra. }
  set (total := fold_left _ (tag :: tags) 0) in *.
  assert (Havg : 0.2 <= total / len (tag :: tags)).
  { apply Qle_shift_div_l; [exact Hp | lra]. }
  assert (Hbonus : 1 # 3 <= Qmin (len (tag :: tags) / 3) 1).
  { apply Q.min_glb; [|lra]. apply Qle_shift_div_l; lra. }
  split; [|apply Q.le_min_l].
  apply Q.min_glb; lra.
Qed.

End TagWeightFacts.

Section ScoreStateFacts.
Context {ML : MathLib}.

Lemma minOf_all_equal (x : Q) (xs : list Q) :
  Forall (fun v => v == x) xs -> minOf x xs == x.
Proof.
  unfold minOf. intros Hall.
  assert (Hgen : forall acc, acc == x -> fold_left Qmin xs acc == x).
  { induction Hall as [|v xs Hv Hall IH]; intros acc Hacc; simpl; [exact Hacc|].
    apply IH. rewrite Hacc, Hv. apply Q.min_id. }
  apply Hgen. reflexivity.
Qed.

Lemma maxOf_all_equal (x : Q) (xs : list Q) :
  Forall (fun v => v == x) xs -> maxOf x xs == x.
Proof.
  unfold maxOf. intros Hall.
  assert (Hgen : forall acc, acc == x -> fold_left Qmax xs acc == x).
  { induction Hall as [|v xs Hv Hall IH]; intros acc Hacc; simpl; [exact Hacc|].
    apply IH. rewrite Hacc, Hv. apply Q.max_id. }
  apply Hgen. reflexivity.
Qed.

(** X3: in a batch whose volumes are all equal (a batch of one keyword in
    particular) every keyword is scored with the normalised volume 0.5. *)
Theorem calculateScore_degenerate_batch (this : KeywordScorer.t) (k : Keyword.t)
  (ks : list Keyword.t) (kw : Keyword.t) :
  Forall (fun k' => Keyword.volume k' == Keyword.volume k) ks ->
  let stats := fst (KeywordScorer.calculateGroupStats this (k :: ks)) in
  let this' := snd (KeywordScorer.calculateGroupStats this (k :: ks)) in
  KeywordScoreResult.normalizedVolume (KeywordScorer.calculateScore this' kw (Some stats))
  = 0.5
  /\ KeywordScoreResult.normalizedVolume (KeywordScorer.calculateScore this' kw None) = 0.5.
Proof.
  intros Hall stats this'.
  assert (Heq : Qeq_bool (KeywordGroupStats.maxVolume stats)
                         (KeywordGroupStats.minVolume stats) = true).
  { apply Qeq_bool_iff. subst stats. unfold KeywordScorer.calculateGroupStats.
    cbn [fst KeywordGroupStats.maxVolume KeywordGroupStats.minVolume].
    assert (Hvs : Forall (fun v => v == Keyword.volume k) (map Keyword.volume ks)).
    { apply Forall_forall. intros v Hin. apply in_map_iff in Hin.
      destruct Hin as [k' [<- Hk']]. rewrite Forall_forall in Hall. apply Hall. exact Hk'. }
    rewrite (minOf_all_equal _ _ Hvs), (maxOf_all_equal _ _ Hvs). reflexivity. }
  assert (Hnv : forall v, KeywordScorer.normalizeVolume v stats = 0.5).
  { intros v. unfold KeywordScorer.normalizeVolume. rewrite Heq. reflexivity. }
  split.
  - unfold KeywordScorer.calculateScore. cbn [KeywordScoreResult.normalizedVolume].
    apply Hnv.
  - unfold KeywordScorer.calculateScore. cbn [KeywordScoreResult.normalizedVolume].
    subst this'. unfold KeywordScorer.calculateGroupStats at 1.
    cbn [snd KeywordScorer.groupStats]. apply Hnv.
Qed.

(** X4: [calculateScore] called without statistics scores against those of
    the last non-empty batch the instance has seen; an empty batch does not
    replace them; and a fresh instance scores against the defaults (volumes
    from 0 to 10000). *)
Theorem calculateScore_uses_last_stats (this : KeywordScorer.t)
  (batch : list Keyword.t) (keyword : Keyword.t) :
  let stats := fst (KeywordScorer.calculateGroupStats this batch) in
  let this' := snd (KeywordScorer.calculateGroupStats this batch) in
  (batch <> [] ->
   KeywordScorer.calculateScore this' keyword None
   = KeywordScorer.calculateScore this' keyword (Some stats))
  /\ (batch = [] ->
      KeywordScorer.calculateScore this' keyword None
      = KeywordScorer.calculateScore this keyword None)
  /\ (forall w,
        KeywordScorer.calculateScore (KeywordScorer.constructor w) keyword None
        = KeywordScorer.calculateScore (KeywordScorer.constructor w) keyword
            (Some KeywordScorer.getDefaultStats))
  /\ fst (KeywordScorer.calculateScores this' batch)
     = fst (KeywordScorer.calculateScores this batch).
Proof.
  intros stats this'. subst stats this'.
  split; [|split; [|split]].
  - intros Hne. destruct batch as [|k ks]; [congruence|]. reflexivity.
  - intros ->. reflexivity.
  - intros w. reflexivity.
  - apply calculateScores_weights_only. apply calculateGroupStats_weights.
Qed.

(** X5: with a logarithm that is monotone and tells the smallest volume of
    the group from the largest, the normalised volume never decreases when
    the volume increases, and it lies between 0 and 1 for a volume between
    the smallest and the largest. *)
Theorem normalizeVolume_monotone (stats : KeywordGroupStats.t) (v1 v2 : Q) :
  (forall x y, x <= y -> Math_log x <= Math_log y) ->
  Math_log (KeywordGroupStats.minVolume stats + 1)
  < Math_log (KeywordGroupStats.maxVolume stats + 1) ->
  v1 <= v2 ->
  KeywordScorer.normalizeVolume v1 stats <= KeywordScorer.normalizeVolume v2 stats
  /\ (KeywordGroupStats.minVolume stats <= v1 ->
      v1 <= KeywordGroupStats.maxVolume stats ->
      0 <= KeywordScorer.normalizeVolume v1 stats
      /\ KeywordScorer.normalizeVolume v1 stats <= 1).
Proof.
  intros Hmono Hspread Hle. unfold KeywordScorer.normalizeVolume.
  destruct (Qeq_bool _ _); [split; [lra | intros _ _; lra]|].
  set (lmin := Math_log (KeywordGroupStats.minVolume stats + 1)) in *.
  set (lmax := Math_log (KeywordGroupStats.maxVolume stats + 1)) in *.
  assert (Hd : 0 < lmax - lmin) by lra.
  split.
  - assert (H12 : Math_log (v1 + 1) <= Math_log (v2 + 1)) by (apply Hmono; lra).
    apply Qle_shift_div_l; [exact Hd|].
    unfold Qdiv. rewrite <- Qmult_assoc, (Qmult_comm (/ (lmax - lmin))), Qmult_inv_r; lra.
  - intros Hlo Hhi.
    assert (H1 : lmin <= Math_log (v1 + 1)) by (apply Hmono; lra).
    assert (H2 : Math_log (v1 + 1) <= lmax) by (apply Hmono; lra).
    split; [apply Qle_shift_div_l | apply Qle_shift_div_r]; try exact Hd; lra.
Qed.



End ScoreStateFacts.

Lemma calculateScore_degenerate_batch_witness :
  Forall (fun k' => Keyword.volume k' == Keyword.volume (Examples.keyword (js "case") 500 20 None))
         [Examples.keyword (js "cover") 500 60 None]
  /\ KeywordScoreResult.normalizedVolume
       (@KeywordScorer.calculateScore {| Math_log := fun x => x |}
          (snd (KeywordScorer.calculateGroupStats
                  (KeywordScorer.constructor
                     {| AlgorithmWeights.volume := 0.7; AlgorithmWeights.competition := 0.3;
                        AlgorithmWeights.tag := 0.1; AlgorithmWeights.ctr := None |})
                  [Examples.keyword (js "case") 500 20 None;
                   Examples.keyword (js "cover") 500 60 None]))
          (Examples.keyword (js "cover") 500 60 None) None)
     = 0.5.
Proof.
  assert (H : Forall (fun k' => Keyword.volume k'
                                == Keyword.volume (Examples.keyword (js "case") 500 20 None))
                     [Examples.keyword (js "cover") 500 60 None]).
  { constructor; [reflexivity | constructor]. }
  split; [exact H|].
  exact (proj2 (@calculateScore_degenerate_batch {| Math_log := fun x => x |}
                  (KeywordScorer.constructor
                     {| AlgorithmWeights.volume := 0.7; AlgorithmWeights.competition := 0.3;
                        AlgorithmWeights.tag := 0.1; AlgorithmWeights.ctr := None |})
                  (Examples.keyword (js "case") 500 20 None)
                  [Examples.keyword (js "cover") 500 60 None]
                  (Examples.keyword (js "cover") 500 60 None) H)).
Defined.

Lemma normalizeVolume_monotone_witness :
  let stats :=
    {| KeywordGroupStats.minVolume := 500; KeywordGroupStats.maxVolume := 10000;
       KeywordGroupStats.avgVolume := 5250; KeywordGroupStats.minCompetition := 20;
       KeywordGroupStats.maxCompetition := 85; KeywordGroupStats.avgCompetition := 52.5;
       KeywordGroupStats.totalKeywords := 2 |} in
  @KeywordScorer.normalizeVolume {| Math_log := fun x => x |} 600 stats
  <= @KeywordScorer.normalizeVolume {| Math_log := fun x => x |} 9000 stats.
Proof.
  cbv zeta.
  apply (@normalizeVolume_monotone {| Math_log := fun x => x |}).
  - intros x y H. exact H.
  - vm_compute. reflexivity.
  - vm_compute. discriminate.
Defined.

(* ================================================================= *)
(** * Part XIV: properties of [KeywordRecommender] and [KeywordAnalytics] *)
(* ================================================================= *)

Section RecommendFacts.
Context {ML : MathLib}.



Lemma recommend_unfold (scorer : KeywordScorer.t) (keywords : list Keyword.t)
  (count : nat) (diversityFactor : Q) (random : RandomSource) (calls : nat) :
  let scorer' := snd (KeywordScorer.calculateScores scorer keywords) in
  let sortedKeywords :=
    sort (fun a b => keywordScore b - keywordScore a)
         (fst (KeywordScorer.calculateScores scorer keywords)) in
  KeywordRecommender.recommend scorer keywords count diversityFactor random calls
  = (fst (KeywordRecommender.recommendLoop scorer' count diversityFactor random calls
            [] 0 sortedKeywords),
     scorer',
     snd (KeywordRecommender.recommendLoop scorer' count diversityFactor random calls
            [] 0 sortedKeywords)).
Proof.
  unfold KeywordRecommender.recommend.
  destruct (KeywordScorer.calculateScores scorer keywords) as [scored scorer'].
  cbn [fst snd]. unfold keywordScore.
  destruct (KeywordRecommender.recommendLoop scorer' count diversityFactor random calls
              [] 0 _) as [recs calls'].
  reflexivity.
Qed.



End RecommendFacts.

Section DiversityFacts.
Context {ML : MathLib}.

Lemma KeywordTag_eqb_iff (a b : KeywordTag.t) : KeywordTag_eqb a b = true <-> a = b.
Proof. destruct a, b; simpl; split; intros H; try reflexivity; discriminate. Qed.

Lemma tagOverlap_false (usedTags tags : list KeywordTag.t) :
  existsb (fun tag => existsb (KeywordTag_eqb tag) usedTags) tags = false ->
  forall tag, In tag tags -> ~ In tag usedTags.
Proof.
  intros H tag Hin Hused.
  assert (Ht : existsb (fun tag => existsb (KeywordTag_eqb tag) usedTags) tags = true).
  { apply existsb_exists. exists tag. split; [exact Hin|].
    apply existsb_exists. exists tag. split; [exact Hused|].
    apply KeywordTag_eqb_iff. reflexivity. }
  congruence.
Qed.

Lemma recommendLoop_step (scorer : KeywordScorer.t) (count : nat) (diversityFactor : Q)
  (random : RandomSource) (calls : nat) (usedTags : list KeywordTag.t) (found : nat)
  (keyword : Keyword.t) (rest : list Keyword.t) :
  KeywordRecommender.recommendLoop scorer count diversityFactor random calls usedTags found
    (keyword :: rest)
  = if (count <=? found)%nat then ([], calls)
    else
      let (shouldRecommend, calls') :=
        if Qlt_bool 80 (orZero (Keyword.score keyword))
           || negb (existsb (fun tag => existsb (KeywordTag_eqb tag) usedTags)
                            (Keyword.tags keyword))
        then (true, calls)
        else (Qlt_bool diversityFactor (random calls), S calls) in
      if shouldRecommend then
        let (more, calls'') :=
          KeywordRecommender.recommendLoop scorer count diversityFactor random calls'
            (usedTags ++ Keyword.tags keyword) (S found) rest in
        ({| Recommendation.keyword := keyword;
            Recommendation.score := orZero (Keyword.score keyword);
            Recommendation.reason :=
              KeywordRecommender.generateRecommendationReason scorer keyword |}
         :: more,
         calls'')
      else
        KeywordRecommender.recommendLoop scorer count diversityFactor random calls'
          usedTags found rest.
Proof. reflexivity. Qed.

Lemma recommendLoop_strict (scorer : KeywordScorer.t) (count : nat) (diversityFactor : Q)
  (random : RandomSource) (sortedKeywords : list Keyword.t) :
  (forall n, random n <= diversityFactor) ->
  forall calls usedTags found before r after,
    fst (KeywordRecommender.recommendLoop scorer count diversityFactor random calls
           usedTags found sortedKeywords)
    = before ++ r :: after ->
    Recommendation.score r <= 80 ->
    forall tag, In tag (Keyword.tags (Recommendation.keyword r)) ->
      ~ In tag usedTags
      /\ forall earlier, In earlier before ->
           ~ In tag (Keyword.tags (Recommendation.keyword earlier)).
Proof.
  intros Hrandom.
  induction sortedKeywords as [|keyword rest IH];
    intros calls usedTags found before r after Hrecs Hscore tag Htag.
  - simpl in Hrecs. destruct before; discriminate.
  - rewrite recommendLoop_step in Hrecs.
    destruct (count <=? found)%nat; [destruct before; discriminate|].
    destruct (Qlt_bool 80 (orZero (Keyword.score keyword))) eqn:Ehigh;
      [| destruct (existsb (fun tag => existsb (KeywordTag_eqb tag) usedTags)
                           (Keyword.tags keyword)) eqn:Eoverlap ];
      cbn [orb negb] in Hrecs.
    + destruct (KeywordRecommender.recommendLoop scorer count diversityFactor random calls
                  (usedTags ++ Keyword.tags keyword) (S found) rest)
        as [more calls2] eqn:Emore.
      cbn [fst] in Hrecs. destruct before as [|first before].
      * injection Hrecs as <- _. cbn [Recommendation.score] in Hscore.
        apply Qlt_bool_iff in Ehigh. lra.
      * injection Hrecs as <- Hmore.
        assert (Hfst : fst (KeywordRecommender.recommendLoop scorer count diversityFactor
                              random calls (usedTags ++ Keyword.tags keyword) (S found)
                              rest) = before ++ r :: after)
          by (rewrite Emore; exact Hmore).
        destruct (IH _ _ _ _ _ _ Hfst Hscore tag Htag) as [Hused Hearlier].
        split; [intros Hin; apply Hused; apply in_or_app; left; exact Hin|].
        intros earlier [<-|Hin]; [|apply Hearlier; exact Hin].
        cbn [Recommendation.keyword]. intros Hin. apply Hused. apply in_or_app.
        right. exact Hin.
    + assert (Hno : Qlt_bool diversityFactor (random calls) = false)
        by (apply Qlt_bool_false_iff; apply Hrandom).
      rewrite Hno in Hrecs.
      exact (IH _ _ _ _ _ _ Hrecs Hscore tag Htag).
    + destruct (KeywordRecommender.recommendLoop scorer count diversityFactor random calls
                  (usedTags ++ Keyword.tags keyword) (S found) rest)
        as [more calls2] eqn:Emore.
      cbn [fst] in Hrecs. destruct before as [|first before].
      * injection Hrecs as <- _. cbn [Recommendation.keyword] in Htag.
        split; [exact (tagOverlap_false _ _ Eoverlap tag Htag) | intros earlier []].
      * injection Hrecs as <- Hmore.
        assert (Hfst : fst (KeywordRecommender.recommendLoop scorer count diversityFactor
                              random calls (usedTags ++ Keyword.tags keyword) (S found)
                              rest) = before ++ r :: after)
          by (rewrite Emore; exact Hmore).
        destruct (IH _ _ _ _ _ _ Hfst Hscore tag Htag) as [Hused Hearlier].
        split; [intros Hin; apply Hused; apply in_or_app; left; exact Hin|].
        intros earlier [<-|Hin]; [|apply Hearlier; exact Hin].
        cbn [Recommendation.keyword]. intros Hin. apply Hused. apply in_or_app.
        right. exact Hin.
Qed.

(** X7: when no random number exceeds [diversityFactor] (a factor of 1 or
    more, the numbers being below 1), a recommendation that scores 80 or less
    shares no tag with any recommendation made before it. *)
Theorem recommend_diverse (scorer : KeywordScorer.t) (keywords : list Keyword.t)
  (count : nat) (diversityFactor : Q) (random : RandomSource) (calls : nat)
  (before : list Recommendation.t) (r : Recommendation.t) (after : list Recommendation.t) :
  (forall n, random n <= diversityFactor) ->
  fst (fst (KeywordRecommender.recommend scorer keywords count diversityFactor random calls))
  = before ++ r :: after ->
  Recommendation.score r <= 80 ->
  forall tag earlier,
    In tag (Keyword.tags (Recommendation.keyword r)) ->
    In earlier before ->
    ~ In tag (Keyword.tags (Recommendation.keyword earlier)).
Proof.
  intros Hrandom Hrecs Hscore tag earlier Htag Hearlier.
  rewrite recommend_unfold in Hrecs. cbv zeta in Hrecs. cbn [fst] in Hrecs.
  destruct (recommendLoop_strict _ _ _ _ _ Hrandom _ _ _ _ _ _ Hrecs Hscore tag Htag)
    as [_ H].
  apply H. exact Hearlier.
Qed.

Lemma recommendLoop_all (scorer : KeywordScorer.t) (count : nat) (diversityFactor : Q)
  (random : RandomSource) (sortedKeywords : list Keyword.t) :
  (forall n, diversityFactor < random n) ->
  forall calls usedTags found,
    map Recommendation.keyword
        (fst (KeywordRecommender.recommendLoop scorer count diversityFactor random calls
                usedTags found sortedKeywords))
    = firstn (count - found) sortedKeywords.
Proof.
  intros Hrandom.
  induction sortedKeywords as [|keyword rest IH]; intros calls usedTags found.
  - simpl. rewrite firstn_nil. reflexivity.
  - rewrite recommendLoop_step.
    destruct (count <=? found)%nat eqn:Efull.
    + apply Nat.leb_le in Efull.
      replace (count - found)%nat with 0%nat by lia. reflexivity.
    + apply Nat.leb_gt in Efull.
      replace (count - found)%nat with (S (count - S found)) by lia.
      assert (Hyes : Qlt_bool diversityFactor (random calls) = true)
        by (apply Qlt_bool_iff; apply Hrandom).
      rewrite Hyes.
      destruct (_ || _);
        match goal with
        | |- context [KeywordRecommender.recommendLoop ?s ?c ?d ?rnd ?cl ?u ?f rest] =>
          specialize (IH cl u f);
          destruct (KeywordRecommender.recommendLoop s c d rnd cl u f rest)
        end;
        cbn [fst map Recommendation.keyword firstn] in *; rewrite IH; reflexivity.
Qed.

(** X8: when every random number exceeds [diversityFactor] (a negative
    factor, say), nothing is held back: the recommended keywords are the
    first [count] keywords of the batch sorted by score. *)
Theorem recommend_without_diversity (scorer : KeywordScorer.t) (keywords : list Keyword.t)
  (count : nat) (diversityFactor : Q) (random : RandomSource) (calls : nat) :
  (forall n, diversityFactor < random n) ->
  map Recommendation.keyword
      (fst (fst (KeywordRecommender.recommend scorer keywords count diversityFactor
                   random calls)))
  = firstn count
      (sort (fun a b => keywordScore b - keywordScore a)
            (fst (KeywordScorer.calculateScores scorer keywords))).
Proof.
  intros Hrandom. rewrite recommend_unfold. cbv zeta. cbn [fst].
  rewrite (recommendLoop_all _ _ _ _ _ Hrandom). rewrite Nat.sub_0_r. reflexivity.
Qed.

End DiversityFacts.

Lemma recommend_diverse_witness :
  let recommendations :=
    fst (fst (@KeywordRecommender.recommend Samples.identityLog
                (KeywordScorer.constructor Samples.weights) Samples.batch 3 1
                (fun _ => 0.5) 0)) in
  exists first second,
    recommendations = [first] ++ second :: []
    /\ Recommendation.score second <= 80
    /\ forall tag earlier,
         In tag (Keyword.tags (Recommendation.keyword second)) ->
         In earlier [first] ->
         ~ In tag (Keyword.tags (Recommendation.keyword earlier)).
Proof.
  cbv zeta.
  assert (Hrandom : forall n : nat, (fun _ : nat => 0.5) n <= 1)
    by (intros n; cbv beta; lra).
  destruct (fst (fst (@KeywordRecommender.recommend Samples.identityLog
                        (KeywordScorer.constructor Samples.weights) Samples.batch 3 1
                        (fun _ => 0.5) 0)))
    as [|first [|second [|third more]]] eqn:E;
    try (vm_compute in E; discriminate).
  exists first, second.
  assert (Hscore : Recommendation.score second <= 80).
  { vm_compute in E. injection E as _ <-. vm_compute. discriminate. }
  split; [reflexivity|]. split; [exact Hscore|].
  exact (@recommend_diverse Samples.identityLog
           (KeywordScorer.constructor Samples.weights) Samples.batch 3 1
           (fun _ => 0.5) 0%nat [first] second [] Hrandom E Hscore).
Defined.

Lemma recommend_without_diversity_witness :
  map Recommendation.keyword
      (fst (fst (@KeywordRecommender.recommend Samples.identityLog
                   (KeywordScorer.constructor Samples.weights) Samples.batch 2 0
                   (fun _ => 0.5) 0)))
  = firstn 2
      (sort (fun a b => keywordScore b - keywordScore a)
            (fst (@KeywordScorer.calculateScores Samples.identityLog
                    (KeywordScorer.constructor Samples.weights) Samples.batch))).
Proof.
  apply (@recommend_without_diversity Samples.identityLog).
  intros n. cbv beta. lra.
Defined.

Section DistributionFacts.

Lemma KeywordTag_eqb_refl (tag : KeywordTag.t) : KeywordTag_eqb tag tag = true.
Proof. destruct tag; reflexivity. Qed.

Lemma KeywordTag_eqb_sym (a b : KeywordTag.t) : KeywordTag_eqb a b = KeywordTag_eqb b a.
Proof. destruct a, b; reflexivity. Qed.

Lemma tagCount_countTag (d : list (KeywordTag.t * nat)) (t tag : KeywordTag.t) :
  KeywordAnalytics.tagCount (KeywordAnalytics.countTag d t) tag
  = if KeywordTag_eqb t tag
    then Some (S (match KeywordAnalytics.tagCount d tag with Some n => n | None => 0%nat end))
    else KeywordAnalytics.tagCount d tag.
Proof.
  induction d as [|[t' n] d IH]; simpl.
  - destruct (KeywordTag_eqb t tag); reflexivity.
  - destruct (KeywordTag_eqb t' t) eqn:Et; simpl.
    + apply KeywordTag_eqb_iff in Et. subst t'.
      destruct (KeywordTag_eqb t tag); reflexivity.
    + destruct (KeywordTag_eqb t' tag) eqn:Etag.
      * apply KeywordTag_eqb_iff in Etag. subst t'.
        rewrite KeywordTag_eqb_sym, Et. reflexivity.
      * exact IH.
Qed.

Lemma countTag_counts (d : list (KeywordTag.t * nat)) (seen : list KeywordTag.t)
  (t : KeywordTag.t) :
  countsTags d seen -> countsTags (KeywordAnalytics.countTag d t) (seen ++ [t]).
Proof.
  intros H tag. rewrite tagCount_countTag, (H tag), filter_app, length_app.
  cbn [filter]. rewrite (KeywordTag_eqb_sym tag t).
  destruct (KeywordTag_eqb t tag); cbn [List.length].
  - rewrite Nat.add_1_r. destruct (List.length _); reflexivity.
  - rewrite Nat.add_0_r. reflexivity.
Qed.

Lemma fold_countTag_counts (tags : list KeywordTag.t) :
  forall d seen, countsTags d seen -> countsTags (fold_left KeywordAnalytics.countTag tags d)
                                         (seen ++ tags).
Proof.
  induction tags as [|t tags IH]; intros d seen H; cbn [fold_left].
  - rewrite app_nil_r. exact H.
  - replace (seen ++ t :: tags) with ((seen ++ [t]) ++ tags)
      by (rewrite <- app_assoc; reflexivity).
    apply IH. apply countTag_counts. exact H.
Qed.

Lemma countTag_keys (d : list (KeywordTag.t * nat)) (t : KeywordTag.t) :
  NoDup (map fst d) -> NoDup (map fst (KeywordAnalytics.countTag d t)).
Proof.
  assert (Hin : forall d x, In x (map fst (KeywordAnalytics.countTag d t)) ->
                            x = t \/ In x (map fst d)).
  { clear d. induction d as [|[t' n] d IH]; intros x Hx; simpl in *.
    - destruct Hx as [<-|[]]. left. reflexivity.
    - destruct (KeywordTag_eqb t' t) eqn:Et; simpl in Hx.
      + right. exact Hx.
      + destruct Hx as [<-|Hx]; [right; left; reflexivity|].
        destruct (IH x Hx) as [->|H]; [left; reflexivity | right; right; exact H]. }
  induction d as [|[t' n] d IH]; intros Hd; simpl.
  - constructor; [intros [] | constructor].
  - simpl in Hd. inversion Hd as [|? ? Hnot Hrest]; subst.
    destruct (KeywordTag_eqb t' t) eqn:Et; simpl.
    + constructor; assumption.
    + constructor; [|apply IH; exact Hrest].
      intros Hx. destruct (Hin d t' Hx) as [->|H]; [|exact (Hnot H)].
      rewrite KeywordTag_eqb_refl in Et. discriminate.
Qed.

Lemma fold_countTag_keys (tags : list KeywordTag.t) :
  forall d, NoDup (map fst d) -> NoDup (map fst (fold_left KeywordAnalytics.countTag tags d)).
Proof.
  induction tags as [|t tags IH]; intros d H; cbn [fold_left]; [exact H|].
  apply IH. apply countTag_keys. exact H.
Qed.

Lemma bandCount_countBand (d : Distribution.t) (b b' : KeywordAnalytics.band) :
  bandCount (KeywordAnalytics.countBand d b) b'
  = ((if band_eqb b b' then 1 else 0) + bandCount d b')%nat.
Proof. destruct b, b'; reflexivity. Qed.


Lemma analyzeDistribution_fold (maxVolume : Q) (keywords : list Keyword.t) :
  forall d0 seen,
    countsTags (KeywordDistribution.tagDistribution d0) seen ->
    NoDup (map fst (KeywordDistribution.tagDistribution d0)) ->
    let d :=
      fold_left
        (fun d keyword =>
           {| KeywordDistribution.volumeDistribution :=
                KeywordAnalytics.countBand (KeywordDistribution.volumeDistribution d)
                  (KeywordAnalytics.volumeBand (Keyword.volume keyword) maxVolume);
              KeywordDistribution.competitionDistribution :=
                KeywordAnalytics.countBand (KeywordDistribution.competitionDistribution d)
                  (KeywordAnalytics.competitionBand (Keyword.competition keyword));
              KeywordDistribution.tagDistribution :=
                fold_left KeywordAnalytics.countTag (Keyword.tags keyword)
                          (KeywordDistribution.tagDistribution d) |})
        keywords d0 in
    (forall b,
       bandCount (KeywordDistribution.volumeDistribution d) b
       = (List.length
            (filter (fun k => band_eqb (KeywordAnalytics.volumeBand (Keyword.volume k)
                                                                    maxVolume) b)
                    keywords)
          + bandCount (KeywordDistribution.volumeDistribution d0) b)%nat)
    /\ (forall b,
          bandCount (KeywordDistribution.competitionDistribution d) b
          = (List.length
               (filter (fun k => band_eqb (KeywordAnalytics.competitionBand
                                             (Keyword.competition k)) b)
                       keywords)
             + bandCount (KeywordDistribution.competitionDistribution d0) b)%nat)
    /\ countsTags (KeywordDistribution.tagDistribution d)
                  (seen ++ flat_map Keyword.tags keywords)
    /\ NoDup (map fst (KeywordDistribution.tagDistribution d)).
Proof.
  induction keywords as [|k keywords IH]; intros d0 seen Hcounts Hkeys; cbn [fold_left].
  - cbv zeta. cbn [filter List.length flat_map]. rewrite app_nil_r.
    repeat split; try assumption; reflexivity.
  - match goal with
    | |- context [fold_left _ keywords ?d1] =>
      specialize (IH d1 (seen ++ Keyword.tags k))
    end.
    cbn [KeywordDistribution.tagDistribution KeywordDistribution.volumeDistribution
         KeywordDistribution.competitionDistribution] in IH.
    destruct (IH (fold_countTag_counts _ _ _ Hcounts) (fold_countTag_keys _ _ Hkeys))
      as [Hv [Hc [Ht Hk]]].
    cbv zeta. repeat split.
    + intros b. rewrite (Hv b), bandCount_countBand. cbn [filter].
      destruct (band_eqb _ b); cbn [List.length]; lia.
    + intros b. rewrite (Hc b), bandCount_countBand. cbn [filter].
      destruct (band_eqb _ b); cbn [List.length]; lia.
    + cbn [flat_map]. rewrite app_assoc. exact Ht.
    + exact Hk.
Qed.

Lemma band_partition {A} (f : A -> KeywordAnalytics.band) (l : list A) :
  (List.length (filter (fun x => band_eqb (f x) KeywordAnalytics.Low) l)
   + List.length (filter (fun x => band_eqb (f x) KeywordAnalytics.Medium) l)
   + List.length (filter (fun x => band_eqb (f x) KeywordAnalytics.High) l))%nat
  = List.length l.
Proof.
  induction l as [|x l IH]; [reflexivity|].
  cbn [filter]. destruct (f x); cbn [band_eqb List.length]; lia.
Qed.

Lemma analyzeDistribution_bands (keywords : list Keyword.t) :
  let d := KeywordAnalytics.analyzeDistribution keywords in
  let maxVolume :=
    KeywordGroupStats.maxVolume
      (fst (KeywordScorer.calculateGroupStats (KeywordScorer.constructor Samples.weights)
              keywords)) in
  (forall b,
     bandCount (KeywordDistribution.competitionDistribution d) b
     = List.length
         (filter (fun k => band_eqb (KeywordAnalytics.competitionBand
                                       (Keyword.competition k)) b)
                 keywords))
  /\ (forall b,
        bandCount (KeywordDistribution.volumeDistribution d) b
        = List.length
            (filter (fun k => band_eqb (KeywordAnalytics.volumeBand (Keyword.volume k)
                                                                    maxVolume) b)
                    keywords))
  /\ (Distribution.low (KeywordDistribution.competitionDistribution d)
       + Distribution.medium (KeywordDistribution.competitionDistribution d)
       + Distribution.high (KeywordDistribution.competitionDistribution d))%nat
      = List.length keywords
  /\ (Distribution.low (KeywordDistribution.volumeDistribution d)
       + Distribution.medium (KeywordDistribution.volumeDistribution d)
       + Distribution.high (KeywordDistribution.volumeDistribution d))%nat
      = List.length keywords.
Proof.
  cbv zeta.
  destruct (analyzeDistribution_fold
              (KeywordGroupStats.maxVolume
                 (fst (KeywordScorer.calculateGroupStats
                         (KeywordScorer.constructor Samples.weights) keywords)))
              keywords
              {| KeywordDistribution.volumeDistribution :=
                   {| Distribution.low := 0; Distribution.medium := 0;
                      Distribution.high := 0 |};
                 KeywordDistribution.competitionDistribution :=
                   {| Distribution.low := 0; Distribution.medium := 0;
                      Distribution.high := 0 |};
                 KeywordDistribution.tagDistribution := [] |}
              [] (fun tag => eq_refl) (NoDup_nil _))
    as [Hv [Hc _]].
  assert (Hc' : forall b,
            bandCount
              (KeywordDistribution.competitionDistribution
                 (KeywordAnalytics.analyzeDistribution keywords)) b
            = List.length
                (filter (fun k => band_eqb (KeywordAnalytics.competitionBand
                                              (Keyword.competition k)) b)
                        keywords)).
  { intros b. etransitivity; [exact (Hc b)|]. destruct b; apply Nat.add_0_r. }
  assert (Hv' : forall b,
            bandCount
              (KeywordDistribution.volumeDistribution
                 (KeywordAnalytics.analyzeDistribution keywords)) b
            = List.length
                (filter (fun k =>
                           band_eqb
                             (KeywordAnalytics.volumeBand (Keyword.volume k)
                                (KeywordGroupStats.maxVolume
                                   (fst (KeywordScorer.calculateGroupStats
                                           (KeywordScorer.constructor Samples.weights)
                                           keywords)))) b)
                        keywords)).
  { intros b. etransitivity; [exact (Hv b)|]. destruct b; apply Nat.add_0_r. }
  clear Hv Hc.
  split; [exact Hc'|]. split; [exact Hv'|]. split.
  - rewrite <- (band_partition
                  (fun k => KeywordAnalytics.competitionBand (Keyword.competition k))
                  keywords).
    rewrite <- (Hc' KeywordAnalytics.Low), <- (Hc' KeywordAnalytics.Medium),
            <- (Hc' KeywordAnalytics.High). reflexivity.
  - rewrite <- (band_partition
                  (fun k => KeywordAnalytics.volumeBand (Keyword.volume k)
                              (KeywordGroupStats.maxVolume
                                 (fst (KeywordScorer.calculateGroupStats
                                         (KeywordScorer.constructor Samples.weights)
                                         keywords))))
                  keywords).
    rewrite <- (Hv' KeywordAnalytics.Low), <- (Hv' KeywordAnalytics.Medium),
            <- (Hv' KeywordAnalytics.High). reflexivity.
Qed.

Lemma analyzeDistribution_tags (keywords : list Keyword.t) :
  let table := KeywordDistribution.tagDistribution
                 (KeywordAnalytics.analyzeDistribution keywords) in
  (forall tag,
     KeywordAnalytics.tagCount table tag
     = match tagOccurrences tag keywords with
       | O => None
       | S n => Some (S n)
       end)
  /\ NoDup (map fst table).
Proof.
  cbv zeta.
  destruct (analyzeDistribution_fold
              (KeywordGroupStats.maxVolume
                 (fst (KeywordScorer.calculateGroupStats
                         (KeywordScorer.constructor Samples.weights) keywords)))
              keywords
              {| KeywordDistribution.volumeDistribution :=
                   {| Distribution.low := 0; Distribution.medium := 0;
                      Distribution.high := 0 |};
                 KeywordDistribution.competitionDistribution :=
                   {| Distribution.low := 0; Distribution.medium := 0;
                      Distribution.high := 0 |};
                 KeywordDistribution.tagDistribution := [] |}
              [] (fun tag => eq_refl) (NoDup_nil _))
    as [_ [_ [Ht Hk]]].
  split; [exact Ht | exact Hk].
Qed.

(** X9: each counter of the competition and volume distributions holds the
    number of keywords of the batch whose competition, or share of the
    largest volume, falls in its band, so the three counters of either
    distribution add up to the size of the batch; the tag distribution holds
    one entry for each tag that occurs in the batch, with the number of its
    occurrences, and none for a tag that does not occur. *)
Theorem analyzeDistribution_counts (keywords : list Keyword.t) :
  let d := KeywordAnalytics.analyzeDistribution keywords in
  let maxVolume :=
    KeywordGroupStats.maxVolume
      (fst (KeywordScorer.calculateGroupStats (KeywordScorer.constructor Samples.weights)
              keywords)) in
  (forall b,
     bandCount (KeywordDistribution.competitionDistribution d) b
     = List.length
         (filter (fun k => band_eqb (KeywordAnalytics.competitionBand
                                       (Keyword.competition k)) b)
                 keywords))
  /\ (forall b,
        bandCount (KeywordDistribution.volumeDistribution d) b
        = List.length
            (filter (fun k => band_eqb (KeywordAnalytics.volumeBand (Keyword.volume k)
                                                                    maxVolume) b)
                    keywords))
  /\ (Distribution.low (KeywordDistribution.competitionDistribution d)
       + Distribution.medium (KeywordDistribution.competitionDistribution d)
       + Distribution.high (KeywordDistribution.competitionDistribution d))%nat
      = List.length keywords
  /\ (Distribution.low (KeywordDistribution.volumeDistribution d)
       + Distribution.medium (KeywordDistribution.volumeDistribution d)
       + Distribution.high (KeywordDistribution.volumeDistribution d))%nat
      = List.length keywords
  /\ (forall tag,
        KeywordAnalytics.tagCount (KeywordDistribution.tagDistribution d) tag
        = match tagOccurrences tag keywords with
          | O => None
          | S n => Some (S n)
          end)
  /\ NoDup (map fst (KeywordDistribution.tagDistribution d)).
Proof.
  cbv zeta.
  destruct (analyzeDistribution_bands keywords) as [Hc [Hv [Hcs Hvs]]].
  destruct (analyzeDistribution_tags keywords) as [Ht Hk].
  repeat split; assumption.
Qed.

End DistributionFacts.

Section OpportunityFacts.
Context {ML : MathLib}.




End OpportunityFacts.

Section GapFacts.
Context {SC : StringCase}.

Lemma sampleOpportunities_spec (random : RandomSource) (missing : list jsstring) :
  forall calls,
    let result := KeywordAnalytics.sampleOpportunities random calls missing in
    (forall term, In term (fst result) -> In term missing)
    /\ (List.length (fst result) <= List.length missing)%nat
    /\ snd result = (calls + List.length missing)%nat
    /\ ((forall n, 0.3 <= random n) -> fst result = [])
    /\ ((forall n, random n < 0.3) -> fst result = missing).
Proof.
  induction missing as [|term rest IH]; intros calls; cbv zeta.
  - cbn. repeat split; auto.
  - cbn [KeywordAnalytics.sampleOpportunities].
    specialize (IH (S calls)). cbv zeta in IH.
    destruct (KeywordAnalytics.sampleOpportunities random (S calls) rest)
      as [more calls'].
    cbn [fst snd] in *. destruct IH as [Hin [Hlen [Hcalls [Hnone Hall]]]].
    repeat split.
    + intros t Ht. destruct (Qlt_bool (random calls) 0.3).
      * destruct Ht as [<-|Ht]; [left; reflexivity | right; apply Hin; exact Ht].
      * right. apply Hin. exact Ht.
    + destruct (Qlt_bool (random calls) 0.3); cbn [List.length]; lia.
    + cbn [List.length]. lia.
    + intros H. assert (E : Qlt_bool (random calls) 0.3 = false)
        by (apply Qlt_bool_false_iff; apply H).
      rewrite E. apply Hnone. exact H.
    + intros H. assert (E : Qlt_bool (random calls) 0.3 = true)
        by (apply Qlt_bool_iff; apply H).
      rewrite E. f_equal. apply Hall. exact H.
Qed.

(** X11: the missing terms are the lower-cased competitor terms that are not
    the lower-cased term of one of our keywords, in the competitor's order; the
    opportunities are drawn from them, one random number per missing term. *)
Theorem findKeywordGaps_missing (ourKeywords : list Keyword.t)
  (competitorKeywords : list jsstring) (random : RandomSource) (calls : nat) :
  let result :=
    KeywordAnalytics.findKeywordGaps ourKeywords competitorKeywords random calls in
  let missing := fst (fst result) in
  let opportunities := snd (fst result) in
  (forall term,
     In term missing <->
     In term (map toLowerCase competitorKeywords)
     /\ ~ In term (map (fun k => toLowerCase (Keyword.term k)) ourKeywords))
  /\ (forall term, In term opportunities -> In term missing)
  /\ snd result = (calls + List.length missing)%nat
  /\ ((forall n, 0.3 <= random n) -> opportunities = [])
  /\ ((forall n, random n < 0.3) -> opportunities = missing).
Proof.
  cbv zeta. unfold KeywordAnalytics.findKeywordGaps.
  set (ourTerms := map (fun k => toLowerCase (Keyword.term k)) ourKeywords).
  set (missing := filter _ (map toLowerCase competitorKeywords)).
  destruct (sampleOpportunities_spec random missing calls)
    as [Hin [_ [Hcalls [Hnone Hall]]]].
  destruct (KeywordAnalytics.sampleOpportunities random calls missing)
    as [opportunities calls'].
  cbn [fst snd] in *.
  split; [|repeat split; assumption].
  intros term. unfold missing. rewrite filter_In. apply and_iff_compat_l.
  rewrite negb_true_iff. split.
  - intros Hno Hterm.
    assert (Hyes : existsb (streq term) ourTerms = true).
    { apply existsb_exists. exists term. split; [exact Hterm|].
      apply streq_iff. reflexivity. }
    congruence.
  - intros Hnot. destruct (existsb (streq term) ourTerms) eqn:E; [|reflexivity].
    apply existsb_exists in E. destruct E as [t [Ht Eq]].
    apply streq_iff in Eq. subst t. contradiction.
Qed.

End GapFacts.

(* ================================================================= *)
(** * Part XV: further properties of [TitleGenerator] *)
(* ================================================================= *)

Section TitleOutputFacts.
Context {SC : StringCase}.
Variable config : TitleGenerationConfig.t.

Lemma generateTitleCandidates_length (components : ProductTitleComponents.t)
  (keywords : list jsstring) :
  (List.length (TitleGenerator.generateTitleCandidates components keywords) <= 10)%nat.
Proof.
  unfold TitleGenerator.generateTitleCandidates. cbv zeta.
  etransitivity; [apply filter_length_le|].
  rewrite !length_app.
  pose proof (firstn_le_length 5 (TitleGenerator.generateKeywordCombinations keywords))
    as H5.
  destruct (truthyStr (ProductTitleComponents.category components));
    destruct (ProductTitleComponents.features components) as [[|f0 fs]|];
    destruct (truthyStr (ProductTitleComponents.demographic components));
    destruct (truthyStr (ProductTitleComponents.usage components));
    destruct (2 <=? List.length keywords)%nat;
    cbn [List.length]; rewrite ?length_map; unfold slice0; lia.
Qed.

Lemma generateTitleCandidates_nonempty (components : ProductTitleComponents.t)
  (keywords : list jsstring) (candidate : ProductTitle.t) :
  In candidate (TitleGenerator.generateTitleCandidates components keywords) ->
  ProductTitle.title_text candidate <> []
  /\ ProductTitle.issues candidate = [].
Proof.
  unfold TitleGenerator.generateTitleCandidates. cbv zeta.
  intros H. apply filter_In in H. destruct H as [Hin Hlen].
  split.
  - intros E. rewrite E in Hlen. discriminate.
  - repeat (apply in_app_or in Hin; destruct Hin as [Hin|Hin]);
      repeat match type of Hin with
             | In _ (if ?c then _ else _) => destruct c
             | In _ (match ?f with Some _ => _ | None => _ end) => destruct f as [[|? ?]|]
             | In _ [] => destruct Hin
             | In _ [_] => destruct Hin as [<-|[]]; reflexivity
             | In _ (map _ _) =>
               apply in_map_iff in Hin; destruct Hin as [? [<- _]]; reflexivity
             end.
Qed.

(** X12: a call that returns gives one title for each candidate that was
    not empty, in the order of the candidates, and never more than 10: the
    patterns make at most 10 candidates, so the final cut drops nothing. *)
Theorem generateTitles_count (components : ProductTitleComponents.t)
  (keywords : list Keyword.t) (titles : list ScoredTitle.t) :
  TitleGenerator.generateTitles config components keywords = Return titles ->
  let candidates :=
    TitleGenerator.generateTitleCandidates components
      (TitleGenerator.selectAndSortKeywords config keywords
         (ProductTitleComponents.keywords components)) in
  titles
  = map (fun candidate =>
           let processed := TitleGenerator.postProcessTitle config candidate in
           ScoredTitle.spread processed
             (TitleGenerator.evaluateTitle config (ProductTitle.title_text processed)))
        candidates
  /\ List.length titles = List.length candidates
  /\ (List.length titles <= 10)%nat.
Proof.
  intros H. cbv zeta. apply generateTitles_generation_order in H. destruct H as [H _].
  set (candidates := TitleGenerator.generateTitleCandidates _ _) in *.
  pose proof (generateTitleCandidates_length components
                (TitleGenerator.selectAndSortKeywords config keywords
                   (ProductTitleComponents.keywords components))) as Hlen.
  fold candidates in Hlen.
  rewrite map_map in H. unfold slice0 in H.
  rewrite firstn_all2 in H by (rewrite length_map; exact Hlen).
  subst titles. rewrite length_map. auto.
Qed.

Lemma analyzeIssues_shape (title : jsstring) (breakdown : QualityBreakdown.t) :
  let result := TitleGenerator.analyzeIssues config title breakdown in
  List.length (fst result) = List.length (snd result)
  /\ (List.length (fst result) <= 4)%nat
  /\ forall issue, In issue (fst result) -> In issue qualityIssues.
Proof.
  cbv zeta. unfold TitleGenerator.analyzeIssues. cbv zeta. cbn [fst snd].
  rewrite !length_map. split; [reflexivity|].
  split.
  - rewrite !length_app.
    destruct (Qlt_bool (QualityBreakdown.keywordPlacement breakdown) 0.7);
      destruct (Qlt_bool (QualityBreakdown.readability breakdown) 0.7);
      destruct (Qlt_bool (QualityBreakdown.length breakdown) 0.8);
      destruct (TitleGenerationConfig.maxLength config <? List.length title)%nat;
      destruct (Qlt_bool (QualityBreakdown.uniqueness breakdown) 0.8).
    all: repeat match goal with
         | |- context [List.length (?x :: ?l)] =>
           change (List.length (x :: l)) with (S (List.length l))
         | |- context [List.length (@nil ?T)] =>
           change (List.length (@nil T)) with 0%nat
         end.
    all: lia.
  - intros issue Hin. apply in_map_iff in Hin. destruct Hin as [[i s] [<- Hin]].
    cbn [fst]. unfold qualityIssues.
    apply in_app_or in Hin. destruct Hin as [Hin|Hin].
    { destruct (Qlt_bool (QualityBreakdown.keywordPlacement breakdown) 0.7);
        [|destruct Hin].
      destruct Hin as [E|[]]. injection E as <- _. left. reflexivity. }
    apply in_app_or in Hin. destruct Hin as [Hin|Hin].
    { destruct (Qlt_bool (QualityBreakdown.readability breakdown) 0.7);
        [|destruct Hin].
      destruct Hin as [E|[]]. injection E as <- _. right. left. reflexivity. }
    apply in_app_or in Hin. destruct Hin as [Hin|Hin].
    { destruct (Qlt_bool (QualityBreakdown.length breakdown) 0.8); [|destruct Hin].
      destruct (TitleGenerationConfig.maxLength config <? List.length title)%nat;
        destruct Hin as [E|[]]; injection E as <- _.
      - right. right. left. reflexivity.
      - right. right. right. left. reflexivity. }
    destruct (Qlt_bool (QualityBreakdown.uniqueness breakdown) 0.8); [|destruct Hin].
    destruct Hin as [E|[]]. injection E as <- _.
    right. right. right. right. left. reflexivity.
Qed.

(** X13: the issues of a returned title are those the quality evaluation
    finds in its final text, of which there are five kinds, each with its
    suggestion; the notes the post-processing makes (stop words or
    duplicates removed, length exceeded) are not among them. *)
Theorem generateTitles_issues (components : ProductTitleComponents.t)
  (keywords : list Keyword.t) (titles : list ScoredTitle.t) (title : ScoredTitle.t) :
  TitleGenerator.generateTitles config components keywords = Return titles ->
  In title titles ->
  ScoredTitle.issues title
  = TitleQualityScore.issues
      (TitleGenerator.evaluateTitle config (ScoredTitle.title_text title))
  /\ (forall issue, In issue (ScoredTitle.issues title) -> In issue qualityIssues)
  /\ List.length (ScoredTitle.issues title) = List.length (ScoredTitle.suggestions title)
  /\ (List.length (ScoredTitle.issues title) <= 4)%nat.
Proof.
  intros H Hin. apply generateTitles_generation_order in H. destruct H as [H _].
  subst titles. unfold slice0 in Hin. apply firstn_In in Hin.
  apply in_map_iff in Hin. destruct Hin as [processed [<- _]].
  unfold ScoredTitle.spread.
  cbn [ScoredTitle.issues ScoredTitle.suggestions ScoredTitle.title_text].
  split; [reflexivity|].
  unfold TitleGenerator.evaluateTitle. cbv zeta.
  match goal with
  | |- context [TitleGenerator.analyzeIssues config ?t ?b] =>
    pose proof (analyzeIssues_shape t b) as Hshape;
    destruct (TitleGenerator.analyzeIssues config t b) as [issues suggestions]
  end.
  cbv zeta in Hshape. cbn [fst snd] in Hshape.
  cbn [TitleQualityScore.issues TitleQualityScore.suggestions].
  destruct Hshape as [H1 [H2 H3]]. auto.
Qed.


Lemma Math_round_lower (x : Q) (lo : Z) :
  inject_Z lo - 0.5 <= x -> inject_Z lo <= Math_round x.
Proof.
  intros H. unfold Math_round. rewrite <- Zle_Qle.
  rewrite <- (Qfloor_Z lo). apply Qfloor_resp_le. lra.
Qed.

Lemma placementFold_ge (words terms : list jsstring) (acc : Q) :
  acc
  <= fold_left
       (fun score keyword =>
          match findIndex (fun word => includes (toLowerCase word) (toLowerCase keyword))
                          words with
          | Some position =>
            score + Qmax 0 (1 - inject_Z (Z.of_nat position) / len words)
          | None => score
          end)
       terms acc.
Proof.
  revert acc. induction terms as [|keyword terms IH]; intros acc.
  - simpl. lra.
  - simpl fold_left. eapply Qle_trans; [|apply IH].
    destruct (findIndex _ words) as [position|]; [|lra].
    pose proof (Q.le_max_l 0 (1 - inject_Z (Z.of_nat position) / len words)). lra.
Qed.

Lemma evaluateKeywordPlacement_ge_0 (title : jsstring) :
  0 <= TitleGenerator.evaluateKeywordPlacement config title.
Proof.
  unfold TitleGenerator.evaluateKeywordPlacement. cbv zeta.
  destruct (split_ws title) as [|w ws] eqn:Ew; [lra|].
  set (terms := if existsb _ _ then _ else _).
  pose proof (placementFold_ge (w :: ws) terms 0) as Hfold.
  destruct terms as [|t ts]; [lra|].
  apply Qle_shift_div_l; [apply len_pos|]. lra.
Qed.

Lemma evaluateReadability_ge (title : jsstring) :
  0.2 <= TitleGenerator.evaluateReadability title.
Proof.
  unfold TitleGenerator.evaluateReadability. cbv zeta.
  eapply Qle_trans; [|apply Q.le_max_r].
  destruct (_ || _)%bool; destruct (_ || _)%bool; destruct (3 <? _)%nat;
    destruct (hasRunOf3 isUpper title); lra.
Qed.

Lemma evaluateLengthScore_ge_0 (title : jsstring) :
  0 <= TitleGenerator.evaluateLengthScore config title.
Proof.
  unfold TitleGenerator.evaluateLengthScore. cbv zeta.
  pose proof (len_nonneg title) as Hlen.
  set (length := len title) in *.
  set (maxLength := inject_Z (Z.of_nat (TitleGenerationConfig.maxLength config))).
  destruct (Qlt_bool maxLength length) eqn:Eover; [lra|].
  apply Qlt_bool_false_iff in Eover.
  destruct (Qle_bool (maxLength * 0.6) length && Qle_bool length (maxLength * 0.9)) eqn:Eideal;
    [lra|].
  destruct (Qlt_bool length (maxLength * 0.6)) eqn:Eshort.
  - apply Qlt_bool_iff in Eshort. apply Qle_shift_div_l; lra.
  - apply Qlt_bool_false_iff in Eshort.
    apply andb_false_iff in Eideal. destruct Eideal as [E|E].
    + apply Qle_bool_iff in Eshort. congruence.
    + assert (Hgt : maxLength * 0.9 < length).
      { apply Qnot_le_lt. intros Hle. apply Qle_bool_iff in Hle. congruence. }
      assert ((length - maxLength * 0.9) / (maxLength - maxLength * 0.9) <= 1).
      { apply Qle_shift_div_r; lra. }
      lra.
Qed.

Lemma uniquenessFold_ge (title : jsstring) (phrases : list jsstring) (acc : Q) :
  acc - 0.1 * len phrases
  <= fold_left (fun score phrase => if includes title phrase then score - 0.1 else score)
               phrases acc.
Proof.
  revert acc. induction phrases as [|phrase phrases IH]; intros acc.
  - simpl. change (len (@nil jsstring)) with 0. lra.
  - simpl fold_left. eapply Qle_trans; [|apply IH].
    rewrite len_cons. destruct (includes title phrase); lra.
Qed.

Lemma evaluateUniqueness_ge (title : jsstring) :
  0.3 <= TitleGenerator.evaluateUniqueness title.
Proof.
  unfold TitleGenerator.evaluateUniqueness. cbv zeta.
  pose proof (uniquenessFold_ge title TitleGenerator.commonPhrases 1.0) as Hfold.
  change (len TitleGenerator.commonPhrases) with 6 in Hfold.
  eapply Qle_trans; [|apply Q.le_max_r].
  destruct (5 <? _)%nat; lra.
Qed.

(** X14: the four sub-scores of a title lie between 0 and 1, the
    readability at 0.19 or more and the uniqueness at 0.3 or more, whatever
    the title; the overall score is therefore never below 0.13.  (After its
    four deductions the readability is 0.2 in exact arithmetic and
    0.19999999999999993 in binary64.) *)
Theorem evaluateTitle_breakdown_range (title : jsstring) :
  let quality := TitleGenerator.evaluateTitle config title in
  let breakdown := TitleQualityScore.breakdown quality in
  0 <= QualityBreakdown.keywordPlacement breakdown <= 1
  /\ 0.19 <= QualityBreakdown.readability breakdown <= 1
  /\ 0 <= QualityBreakdown.length breakdown <= 1
  /\ 0.3 <= QualityBreakdown.uniqueness breakdown <= 1
  /\ 0.13 <= TitleQualityScore.overall quality.
Proof.
  cbv zeta. unfold TitleGenerator.evaluateTitle. cbv zeta.
  destruct (TitleGenerator.analyzeIssues config title _) as [issues suggestions].
  cbn [TitleQualityScore.overall TitleQualityScore.breakdown
       QualityBreakdown.keywordPlacement QualityBreakdown.readability
       QualityBreakdown.length QualityBreakdown.uniqueness].
  pose proof (evaluateKeywordPlacement_le_1 config title) as Hk.
  pose proof (evaluateReadability_le_1 title) as Hr.
  pose proof (evaluateLengthScore_le_1 config title) as Hl.
  pose proof (evaluateUniqueness_le_1 title) as Hu.
  pose proof (evaluateKeywordPlacement_ge_0 title) as Hk0.
  pose proof (evaluateReadability_ge title) as Hr0.
  pose proof (evaluateLengthScore_ge_0 title) as Hl0.
  pose proof (evaluateUniqueness_ge title) as Hu0.
  repeat split; try assumption; [lra|].
  set (total := 0 + _ + _ + _ + _).
  assert (Htotal : 0.5 <= total) by (unfold total; lra).
  assert (Havg : 0.125 <= total / 4) by (apply Qle_shift_div_l; lra).
  assert (Hround : inject_Z 13 <= Math_round (total / 4 * 100)).
  { apply Math_round_lower. change (inject_Z 13) with 13. lra. }
  change (inject_Z 13) with 13 in Hround.
  apply Qle_shift_div_l; lra.
Qed.

End TitleOutputFacts.

Lemma generateTitles_count_witness :
  exists titles,
    @TitleGenerator.generateTitles asciiCase TitleGenerator.DEFAULT_TITLE_CONFIG
      Examples.womenPhone [Examples.phoneKeyword] = Return titles
    /\ List.length titles
       = List.length
           (TitleGenerator.generateTitleCandidates Examples.womenPhone
              (@TitleGenerator.selectAndSortKeywords asciiCase
                 TitleGenerator.DEFAULT_TITLE_CONFIG [Examples.phoneKeyword]
                 (ProductTitleComponents.keywords Examples.womenPhone)))
    /\ (List.length titles <= 10)%nat.
Proof.
  eexists. split; [vm_compute; reflexivity|].
  exact (proj2 (@generateTitles_count asciiCase TitleGenerator.DEFAULT_TITLE_CONFIG
                  Examples.womenPhone [Examples.phoneKeyword] _ eq_refl)).
Defined.

Lemma generateTitles_issues_witness :
  exists titles title,
    @TitleGenerator.generateTitles asciiCase TitleGenerator.DEFAULT_TITLE_CONFIG
      Examples.womenPhone [Examples.phoneKeyword] = Return titles
    /\ In title titles
    /\ (forall issue, In issue (ScoredTitle.issues title) -> In issue qualityIssues)
    /\ (List.length (ScoredTitle.issues title) <= 4)%nat.
Proof.
  eexists. eexists.
  split; [vm_compute; reflexivity|].
  split; [left; reflexivity|].
  destruct (@generateTitles_issues asciiCase TitleGenerator.DEFAULT_TITLE_CONFIG
              Examples.womenPhone [Examples.phoneKeyword] _ _ eq_refl
              (or_introl eq_refl))
    as [_ [Hin [_ Hlen]]].
  split; [exact Hin | exact Hlen].
Defined.

Section CombinationFacts.

Lemma pairCombinations_length (keywords : list jsstring) :
  List.length (TitleGenerator.pairCombinations keywords)
  = (List.length keywords * (List.length keywords - 1))%nat.
Proof.
  induction keywords as [|ki rest IH]; [reflexivity|].
  cbn [TitleGenerator.pairCombinations]. rewrite length_app, IH.
  assert (Hflat : forall l : list jsstring,
            List.length (flat_map (fun kj => [[ki; kj]; [kj; ki]]) l)
            = (2 * List.length l)%nat).
  { induction l as [|x l IHl]; [reflexivity|].
    cbn [flat_map List.length app]. rewrite IHl. lia. }
  rewrite Hflat. cbn [List.length].
  set (n := List.length rest).
  replace (S n - 1)%nat with n by lia.
  destruct n as [|m]; [reflexivity|].
  replace (S m - 1)%nat with m by lia. nia.
Qed.

Lemma pairCombinations_In (keywords : list jsstring) (c : list jsstring) :
  In c (TitleGenerator.pairCombinations keywords) ->
  List.length c = 2%nat /\ forall w, In w c -> In w keywords.
Proof.
  induction keywords as [|ki rest IH]; [intros []|].
  cbn [TitleGenerator.pairCombinations]. intros H.
  apply in_app_or in H. destruct H as [H|H].
  - apply in_flat_map in H. destruct H as [kj [Hkj [<-|[<-|[]]]]];
      (split; [reflexivity|]); intros w [<-|[<-|[]]];
      solve [left; reflexivity | right; exact Hkj].
  - destruct (IH H) as [Hlen Hsub]. split; [exact Hlen|].
    intros w Hw. right. apply Hsub. exact Hw.
Qed.

Lemma laterPairs_In (keywords : list jsstring) (a b : jsstring) :
  In (a, b) (TitleGenerator.laterPairs keywords) -> In a keywords /\ In b keywords.
Proof.
  induction keywords as [|kj rest IH]; [intros []|].
  cbn [TitleGenerator.laterPairs]. intros H.
  apply in_app_or in H. destruct H as [H|H].
  - apply in_map_iff in H. destruct H as [kk [E Hkk]]. injection E as <- <-.
    split; [left; reflexivity | right; exact Hkk].
  - destruct (IH H) as [Ha Hb]. split; right; assumption.
Qed.

Lemma tripleCombinations_In (keywords : list jsstring) (c : list jsstring) :
  In c (TitleGenerator.tripleCombinations keywords) ->
  List.length c = 3%nat /\ forall w, In w c -> In w keywords.
Proof.
  induction keywords as [|ki rest IH]; [intros []|].
  cbn [TitleGenerator.tripleCombinations]. intros H.
  apply in_app_or in H. destruct H as [H|H].
  - apply in_map_iff in H. destruct H as [[kj kk] [<- Hjk]].
    apply laterPairs_In in Hjk. destruct Hjk as [Hj Hk]. cbn [fst snd].
    split; [reflexivity|].
    intros w [<-|[<-|[<-|[]]]];
      solve [left; reflexivity | right; assumption].
  - destruct (IH H) as [Hlen Hsub]. split; [exact Hlen|].
    intros w Hw. right. apply Hsub. exact Hw.
Qed.

(** X15: every combination is made of two or three of the given keywords;
    the two-keyword combinations come first and there are n(n-1) of them, so
    the first five combinations, the only ones a candidate is made from, are
    all pairs: a three-keyword combination never yields a title. *)
Theorem generateKeywordCombinations_first_five (keywords : list jsstring) :
  let combinations := TitleGenerator.generateKeywordCombinations keywords in
  (forall c, In c combinations ->
     (List.length c = 2%nat \/ List.length c = 3%nat)
     /\ forall w, In w c -> In w keywords)
  /\ (List.length keywords * (List.length keywords - 1) <= List.length combinations)%nat
  /\ (forall c, In c (slice0 5 combinations) -> List.length c = 2%nat).
Proof.
  cbv zeta. unfold TitleGenerator.generateKeywordCombinations.
  split; [|split].
  - intros c H. apply in_app_or in H. destruct H as [H|H].
    + destruct (pairCombinations_In _ _ H) as [Hlen Hsub]. auto.
    + destruct (3 <=? List.length keywords)%nat; [|destruct H].
      destruct (tripleCombinations_In _ _ H) as [Hlen Hsub]. auto.
  - rewrite length_app, pairCombinations_length. lia.
  - intros c H. unfold slice0 in H. rewrite firstn_app in H.
    apply in_app_or in H. destruct H as [H|H].
    + apply firstn_In in H. exact (proj1 (pairCombinations_In _ _ H)).
    + destruct (3 <=? List.length keywords)%nat eqn:E.
      * apply Nat.leb_le in E. rewrite pairCombinations_length in H.
        assert (Hbig : (5 <= List.length keywords * (List.length keywords - 1))%nat).
        { destruct (List.length keywords) as [|[|[|n]]]; first [lia | nia]. }
        replace (5 - _)%nat with 0%nat in H by lia. destruct H.
      * rewrite firstn_nil in H. destruct H.
Qed.

End CombinationFacts.

Section SelectionFacts.
Context {SC : StringCase}.
Variable config : TitleGenerationConfig.t.

Lemma map_fst_sorted (pairs : list (jsstring * Q)) (key : jsstring -> Q) :
  Forall (fun p => snd p = key (fst p)) pairs ->
  StronglySorted (descending snd) pairs ->
  StronglySorted (descending key) (map fst pairs).
Proof.
  intros Hkey Hsorted. induction Hsorted as [|p pairs Hs IH Hall]; [constructor|].
  inversion Hkey as [|? ? Hp Hrest]; subst.
  cbn [map]. constructor; [apply IH; exact Hrest|].
  apply Forall_forall. intros t Ht. apply in_map_iff in Ht.
  destruct Ht as [q [<- Hq]].
  rewrite Forall_forall in Hall, Hrest.
  specialize (Hall q Hq). specialize (Hrest q Hq).
  unfold descending in *. rewrite <- Hp, <- Hrest. exact Hall.
Qed.

Lemma StronglySorted_split {A} (R : A -> A -> Prop) (n : nat) (l : list A) :
  StronglySorted R l ->
  forall x y, In x (firstn n l) -> In y (skipn n l) -> R x y.
Proof.
  intros Hs. revert n. induction Hs as [|a l Hs IH Hall]; intros n x y Hx Hy.
  - rewrite firstn_nil in Hx. destruct Hx.
  - destruct n as [|n]; [destruct Hx|].
    cbn [firstn skipn] in Hx, Hy. destruct Hx as [<-|Hx].
    + rewrite Forall_forall in Hall. apply Hall.
      rewrite <- (firstn_skipn n l). apply in_or_app. right. exact Hy.
    + exact (IH n x y Hx Hy).
Qed.

(** X16: the selection keeps the requested terms with the highest catalog
    scores, at most [maxKeywords] of them, highest first; a request within
    the limit is only reordered, and a request whose terms all have the same
    score (an unscored catalog) keeps its order. *)
Theorem selectAndSortKeywords_ranked (allKeywords : list Keyword.t)
  (requestedKeywords : list jsstring) :
  let selected := TitleGenerator.selectAndSortKeywords config allKeywords requestedKeywords in
  let ranked :=
    sort (fun a b => catalogScore allKeywords b - catalogScore allKeywords a)
         requestedKeywords in
  selected = firstn (TitleGenerationConfig.maxKeywords config) ranked
  /\ List.length selected
     = Nat.min (TitleGenerationConfig.maxKeywords config) (List.length requestedKeywords)
  /\ StronglySorted (descending (catalogScore allKeywords)) selected
  /\ (forall kept dropped,
        In kept selected ->
        In dropped (skipn (TitleGenerationConfig.maxKeywords config) ranked) ->
        catalogScore allKeywords dropped <= catalogScore allKeywords kept)
  /\ Permutation ranked requestedKeywords
  /\ ((List.length requestedKeywords <= TitleGenerationConfig.maxKeywords config)%nat ->
      Permutation selected requestedKeywords)
  /\ (forall c, Forall (fun term => catalogScore allKeywords term = c) requestedKeywords ->
      selected = firstn (TitleGenerationConfig.maxKeywords config) requestedKeywords).
Proof.
  cbv zeta.
  set (key := catalogScore allKeywords).
  set (ranked := sort (fun a b => key b - key a) requestedKeywords).
  assert (Hsort : forall l : list jsstring,
            sort (fun a b : jsstring * Q => snd b - snd a)
                 (map (fun term => (term, key term)) l)
            = map (fun term => (term, key term)) (sort (fun a b => key b - key a) l)).
  { induction l as [|t l IHl]; [reflexivity|].
    cbn [map]. unfold sort in *. cbn [fold_right]. rewrite IHl.
    generalize (fold_right (insertSorted (fun a b => key b - key a)) [] l).
    intros s. induction s as [|y s IHs]; [reflexivity|].
    cbn [map insertSorted snd fst].
    destruct (Qle_bool (key y - key t) 0); [reflexivity|].
    cbn [map]. rewrite IHs. reflexivity. }
  assert (Hsel : TitleGenerator.selectAndSortKeywords config allKeywords requestedKeywords
                 = firstn (TitleGenerationConfig.maxKeywords config) ranked).
  { unfold TitleGenerator.selectAndSortKeywords. cbv zeta. unfold slice0.
    change (map (fun term => (term, orZero _)) requestedKeywords)
      with (map (fun term => (term, key term)) requestedKeywords).
    rewrite Hsort. fold ranked. rewrite <- firstn_map, map_map. cbn [fst].
    rewrite map_id. reflexivity. }
  rewrite Hsel.
  assert (Hperm : Permutation ranked requestedKeywords) by apply sort_perm.
  assert (Hsorted : StronglySorted (descending key) ranked) by apply sort_descending.
  split; [reflexivity|]. split; [|split; [|split; [|split; [|split]]]].
  - rewrite length_firstn, (Permutation_length Hperm). reflexivity.
  - apply firstn_StronglySorted. exact Hsorted.
  - intros kept dropped Hk Hd.
    exact (StronglySorted_split _ _ _ Hsorted kept dropped Hk Hd).
  - exact Hperm.
  - intros Hlen. rewrite firstn_all2; [exact Hperm|].
    rewrite (Permutation_length Hperm). exact Hlen.
  - intros c Hall. unfold ranked. rewrite sort_descending_id; [reflexivity|].
    apply (constant_descending key _ c). exact Hall.
Qed.

End SelectionFacts.

Section WordFacts.

Lemma innerWords_inv (x : jsstring) (rest : list jsstring) :
  innerWords (x :: rest) -> wordLike x /\ innerWords rest.
Proof.
  cbn [innerWords]. destruct rest as [|y rest]; [intros H; split; [exact H | exact I]|].
  intros [Hx [_ Hrest]]. split; assumption.
Qed.

Lemma innerWords_cons (x : jsstring) (rest : list jsstring) :
  wordLike x -> x <> [] -> innerWords rest -> innerWords (x :: rest).
Proof.
  intros Hx Hne Hrest. cbn [innerWords]. destruct rest; [exact Hx | auto].
Qed.

Lemma innerWords_wordList (ws : list jsstring) : innerWords ws -> wordList ws.
Proof.
  destruct ws as [|w rest]; [intros _; exact I|].
  intros H. apply innerWords_inv in H. exact H.
Qed.

Lemma innerWords_filter (f : jsstring -> bool) (ws : list jsstring) :
  innerWords ws -> innerWords (filter f ws).
Proof.
  induction ws as [|x rest IH]; [intros _; exact I|].
  intros H. cbn [filter].
  destruct rest as [|y rest'].
  - destruct (f x); [exact H | exact I].
  - destruct H as [Hx [Hne Hrest]]. specialize (IH Hrest).
    destruct (f x); [|exact IH].
    apply innerWords_cons; assumption.
Qed.

Lemma wordList_filter (f : jsstring -> bool) (ws : list jsstring) :
  wordList ws -> wordList (filter f ws).
Proof.
  destruct ws as [|w rest]; [intros _; exact I|].
  intros [Hw Hrest]. cbn [filter].
  pose proof (innerWords_filter f rest Hrest) as Hf.
  destruct (f w); [split; assumption | apply innerWords_wordList; exact Hf].
Qed.

Lemma split_ws_head (c : N) (s : jsstring) :
  isWhiteSpace c = false -> exists w ws, split_ws (c :: s) = (c :: w) :: ws.
Proof.
  intros Hc. cbn [split_ws]. rewrite Hc.
  destruct (split_ws s) as [|w ws]; eexists; eexists; reflexivity.
Qed.

Lemma split_ws_wordList (s : jsstring) : wordList (split_ws s) /\ split_ws s <> [].
Proof.
  induction s as [|c rest [IH Hne]].
  - split; [split; [constructor | exact I] | discriminate].
  - cbn [split_ws]. destruct (isWhiteSpace c) eqn:Ec.
    + destruct rest as [|c' rest'].
      * split; [|discriminate]. split; [constructor|]. cbn. constructor.
      * destruct (isWhiteSpace c') eqn:Ec'; [split; assumption|].
        split; [|discriminate]. split; [constructor|].
        destruct (split_ws_head c' rest' Ec') as [w [ws E]].
        rewrite E in *. destruct IH as [Hw Hws].
        apply innerWords_cons; [exact Hw | discriminate | exact Hws].
    + destruct (split_ws rest) as [|w ws]; [congruence|].
      destruct IH as [Hw Hws]. split; [|discriminate].
      split; [constructor; assumption | exact Hws].
Qed.

Lemma split_ws_word (w : jsstring) : wordLike w -> split_ws w = [w].
Proof.
  induction w as [|c w IH]; [reflexivity|].
  intros H. inversion H as [|? ? Hc Hw]; subst.
  cbn [split_ws]. rewrite Hc, (IH Hw). reflexivity.
Qed.

Lemma split_ws_app (w r : jsstring) :
  wordLike w -> startsWithWord r -> split_ws (w ++ SPACE :: r) = w :: split_ws r.
Proof.
  intros Hw Hr. induction w as [|c w IH].
  - cbn [app split_ws]. change (isWhiteSpace SPACE) with true. cbv iota.
    destruct r as [|c' r']; [reflexivity|].
    cbn [startsWithWord] in Hr. rewrite Hr. reflexivity.
  - inversion Hw as [|? ? Hc Hw']; subst.
    change ((c :: w) ++ SPACE :: r) with (c :: (w ++ SPACE :: r)).
    cbn [split_ws]. rewrite Hc, (IH Hw'). reflexivity.
Qed.

Lemma sp_space : TitleGenerator.sp = [SPACE].
Proof. reflexivity. Qed.

Lemma join_cons (x y : jsstring) (rest : list jsstring) :
  join TitleGenerator.sp (x :: y :: rest)
  = x ++ SPACE :: join TitleGenerator.sp (y :: rest).
Proof. cbn [join]. rewrite sp_space. reflexivity. Qed.

Lemma join_startsWithWord (ws : list jsstring) :
  innerWords ws -> startsWithWord (join TitleGenerator.sp ws).
Proof.
  destruct ws as [|x [|y rest]]; [intros _; exact I | |].
  - cbn [innerWords join]. intros H. destruct x as [|c x]; [exact I|].
    inversion H; assumption.
  - intros [Hx [Hne _]]. rewrite join_cons.
    destruct x as [|c x]; [congruence|]. inversion Hx; assumption.
Qed.

Lemma split_ws_join_inner (ws : list jsstring) :
  innerWords ws -> ws <> [] -> split_ws (join TitleGenerator.sp ws) = ws.
Proof.
  induction ws as [|x rest IH]; [congruence|].
  intros H _. destruct rest as [|y rest'].
  - cbn [join]. apply split_ws_word. exact H.
  - destruct H as [Hx [Hne Hrest]]. rewrite join_cons.
    rewrite split_ws_app; [|exact Hx | apply join_startsWithWord; exact Hrest].
    rewrite IH; [reflexivity | exact Hrest | discriminate].
Qed.

(** Joining a list of words with spaces and splitting it again gives the
    list back, unless the list is empty. *)
Lemma split_ws_join (ws : list jsstring) :
  wordList ws -> ws <> [] -> split_ws (join TitleGenerator.sp ws) = ws.
Proof.
  destruct ws as [|w rest]; [congruence|].
  intros [Hw Hrest] _. destruct rest as [|y rest'].
  - cbn [join]. apply split_ws_word. exact Hw.
  - rewrite join_cons.
    rewrite split_ws_app; [|exact Hw | apply join_startsWithWord; exact Hrest].
    rewrite split_ws_join_inner; [reflexivity | exact Hrest | discriminate].
Qed.

End WordFacts.

Section DuplicateFacts.
Context {SC : StringCase}.
Variable config : TitleGenerationConfig.t.

Lemma seen_iff (word : jsstring) (seenWords : list jsstring) :
  existsb (streq word) seenWords = true <-> In word seenWords.
Proof.
  rewrite existsb_exists. split.
  - intros [x [Hx E]]. apply streq_iff in E. subst x. exact Hx.
  - intros H. exists word. split; [exact H | apply streq_iff; reflexivity].
Qed.

Lemma filterSeen_spec (words : list jsstring) :
  forall seenWords,
    let kept := fst (TitleGenerator.filterSeen seenWords words) in
    let removed := snd (TitleGenerator.filterSeen seenWords words) in
    NoDup (map toLowerCase kept)
    /\ (forall w, In w kept -> ~ In (toLowerCase w) seenWords)
    /\ (forall w, In w words ->
          In (toLowerCase w) seenWords \/ In (toLowerCase w) (map toLowerCase kept))
    /\ Permutation (kept ++ removed) words
    /\ (forall w, In w removed ->
          In (toLowerCase w) seenWords \/ In (toLowerCase w) (map toLowerCase kept))
    /\ (forall w rest, words = w :: rest -> ~ In (toLowerCase w) seenWords ->
          exists kept', kept = w :: kept').
Proof.
  induction words as [|word rest IH]; intros seenWords; cbv zeta.
  - cbn. split; [constructor|]. split; [intros w []|]. split; [intros w []|].
    split; [constructor|]. split; [intros w []|]. intros; discriminate.
  - cbn [TitleGenerator.filterSeen].
    destruct (existsb (streq (toLowerCase word)) seenWords) eqn:Eseen.
    + apply seen_iff in Eseen.
      specialize (IH seenWords). cbv zeta in IH.
      destruct (TitleGenerator.filterSeen seenWords rest) as [kept removed].
      cbn [fst snd] in *. destruct IH as [Hnd [Hnew [Hcov [Hperm [Hrem _]]]]].
      split; [exact Hnd|]. split; [exact Hnew|]. split; [|split; [|split]].
      * intros w [<-|Hw]; [left; exact Eseen | apply Hcov; exact Hw].
      * apply Permutation_sym. apply Permutation_cons_app. apply Permutation_sym.
        exact Hperm.
      * intros w [<-|Hw]; [left; exact Eseen | apply Hrem; exact Hw].
      * intros w rest' E Hnot. injection E as <- <-. contradiction.
    + assert (Hnot : ~ In (toLowerCase word) seenWords).
      { intros H. apply seen_iff in H. congruence. }
      specialize (IH (toLowerCase word :: seenWords)). cbv zeta in IH.
      destruct (TitleGenerator.filterSeen (toLowerCase word :: seenWords) rest)
        as [kept removed].
      cbn [fst snd] in *. destruct IH as [Hnd [Hnew [Hcov [Hperm [Hrem _]]]]].
      split; [|split; [|split; [|split; [|split]]]].
      * cbn [map]. constructor; [|exact Hnd].
        intros Hin. apply in_map_iff in Hin. destruct Hin as [w [E Hw]].
        apply (Hnew w Hw). left. symmetry. exact E.
      * intros w [<-|Hw]; [exact Hnot|].
        intros Hin. apply (Hnew w Hw). right. exact Hin.
      * intros w [<-|Hw]; [right; left; reflexivity|].
        destruct (Hcov w Hw) as [[E|H]|H].
        -- right. left. exact E.
        -- left. exact H.
        -- right. right. exact H.
      * cbn [app]. constructor. exact Hperm.
      * intros w Hw. destruct (Hrem w Hw) as [[E|H]|H].
        -- right. left. exact E.
        -- left. exact H.
        -- right. right. exact H.
      * intros w rest' E _. injection E as <- <-. eexists. reflexivity.
Qed.

(** X17: of the words of a text, [removeDuplicateWords] keeps the first
    occurrence of each word, compared without regard to case, and reports the
    others: the kept words are pairwise different up to case, every word of
    the text equals a kept one up to case, kept and removed words together are
    the words of the text, and the first word is always kept. *)
Theorem removeDuplicateWords_unique (text : jsstring) :
  let words := split_ws text in
  let result := TitleGenerator.removeDuplicateWords text in
  exists kept,
    fst result = join TitleGenerator.sp kept
    /\ NoDup (map toLowerCase kept)
    /\ Permutation (kept ++ snd result) words
    /\ (forall w, In w words -> In (toLowerCase w) (map toLowerCase kept))
    /\ hd_error kept = hd_error words.
Proof.
  cbv zeta. unfold TitleGenerator.removeDuplicateWords.
  pose proof (filterSeen_spec (split_ws text) []) as H. cbv zeta in H.
  destruct (TitleGenerator.filterSeen [] (split_ws text)) as [kept removed].
  cbn [fst snd] in *. destruct H as [Hnd [_ [Hcov [Hperm [_ Hfirst]]]]].
  exists kept. split; [reflexivity|]. split; [exact Hnd|]. split; [exact Hperm|].
  split.
  - intros w Hw. destruct (Hcov w Hw) as [[]|H]. exact H.
  - destruct (split_ws text) as [|w rest] eqn:E.
    + destruct (split_ws_wordList text) as [_ Hne]. congruence.
    + destruct (Hfirst w rest eq_refl (fun H => H)) as [kept' ->]. reflexivity.
Qed.

(** X18: the text of a post-processed title is made of words of the
    candidate's text, joined by single spaces: none of them contains a stop
    word, every word of the candidate that contains none is still there up to
    case, and when duplicates are removed no two of them are equal up to
    case. *)
Theorem postProcessTitle_words (title : ProductTitle.t) :
  let processed := TitleGenerator.postProcessTitle config title in
  let candidateWords := split_ws (ProductTitle.title_text title) in
  exists words,
    ProductTitle.title_text processed = join TitleGenerator.sp words
    /\ (forall w, In w words ->
          In w candidateWords /\ TitleGenerator.isStopword config w = false)
    /\ (forall w, In w candidateWords -> TitleGenerator.isStopword config w = false ->
          In (toLowerCase w) (map toLowerCase words))
    /\ (TitleGenerationConfig.removeDuplicates config = true ->
        NoDup (map toLowerCase words)).
Proof.
  cbv zeta. unfold TitleGenerator.postProcessTitle, TitleGenerator.removeStopwords.
  cbv zeta.
  set (candidateWords := split_ws (ProductTitle.title_text title)).
  set (filteredWords :=
         filter (fun word => negb (TitleGenerator.isStopword config word)) candidateWords).
  assert (Hfiltered : forall w, In w filteredWords <->
            In w candidateWords /\ TitleGenerator.isStopword config w = false).
  { intros w. unfold filteredWords. rewrite filter_In, negb_true_iff. reflexivity. }
  destruct (TitleGenerationConfig.removeDuplicates config) eqn:Edup.
  - unfold TitleGenerator.removeDuplicateWords.
    destruct filteredWords as [|w0 rest0] eqn:Efw.
    + exists []. cbn. split; [reflexivity|]. split; [intros w []|].
      split; [|intros _; constructor].
      intros w Hw Hs. apply (proj2 (Hfiltered w)). split; assumption.
    + rewrite <- Efw in *.
      assert (Hround : split_ws (join TitleGenerator.sp filteredWords) = filteredWords).
      { apply split_ws_join; [|rewrite Efw; discriminate].
        apply wordList_filter. apply split_ws_wordList. }
      rewrite Hround.
      pose proof (filterSeen_spec filteredWords []) as H. cbv zeta in H.
      destruct (TitleGenerator.filterSeen [] filteredWords) as [kept removed].
      cbn [fst snd] in H. destruct H as [Hnd [_ [Hcov [Hperm _]]]].
      exists kept. cbn [ProductTitle.title_text].
      split; [reflexivity|]. split; [|split; [|intros _; exact Hnd]].
      * intros w Hw. apply Hfiltered.
        apply (Permutation_in w Hperm). apply in_or_app. left. exact Hw.
      * intros w Hw Hs.
        destruct (Hcov w (proj2 (Hfiltered w) (conj Hw Hs))) as [[]|H]. exact H.
  - exists filteredWords. cbn [ProductTitle.title_text].
    split; [reflexivity|]. split; [|split; [|discriminate]].
    + intros w Hw. apply Hfiltered. exact Hw.
    + intros w Hw Hs. apply in_map. apply Hfiltered. split; assumption.
Qed.

End DuplicateFacts.

Section SpacingFixedPointFacts.

Lemma pair_induction (P : jsstring -> Prop) :
  P [] -> (forall a, P [a]) ->
  (forall a b s, P s -> P (b :: s) -> P (a :: b :: s)) ->
  forall s, P s.
Proof.
  intros H0 H1 H2 s.
  assert (H : P s /\ forall a, P (a :: s)); [|exact (proj1 H)].
  induction s as [|b s [IHs IHcons]]; [split; [exact H0 | exact H1]|].
  split; [apply IHcons|]. intros a. apply H2; [exact IHs | apply IHcons].
Qed.

Lemma strip_cons (c : N) (s : jsstring) :
  stripWhiteSpace (c :: s)
  = if isWhiteSpace c then stripWhiteSpace s else c :: stripWhiteSpace s.
Proof. unfold stripWhiteSpace. cbn [filter]. destruct (isWhiteSpace c); reflexivity. Qed.

Lemma strip_collapseWhiteSpace (s : jsstring) :
  stripWhiteSpace (collapseWhiteSpace s) = stripWhiteSpace s.
Proof.
  induction s as [|c rest IH]; [reflexivity|].
  cbn [collapseWhiteSpace]. rewrite (strip_cons c rest).
  destruct (isWhiteSpace c) eqn:Ec.
  - destruct rest as [|c' rest']; [reflexivity|].
    destruct (isWhiteSpace c') eqn:Ec'; [exact IH|].
    rewrite strip_cons. change (isWhiteSpace SPACE) with true. cbv iota. exact IH.
  - rewrite strip_cons, Ec, IH. reflexivity.
Qed.

Lemma strip_spaceBetween (p q : N -> bool) (s : jsstring) :
  stripWhiteSpace (spaceBetween p q s) = stripWhiteSpace s.
Proof.
  induction s as [| a | a b s IHs IHb] using pair_induction; [reflexivity..|].
  rewrite spaceBetween_step. destruct (p a && q b).
  - rewrite !(strip_cons a), (strip_cons SPACE), !(strip_cons b), IHs.
    change (isWhiteSpace SPACE) with true. cbv iota. reflexivity.
  - rewrite !(strip_cons a), IHb. reflexivity.
Qed.

Lemma strip_dropWhile (s : jsstring) :
  stripWhiteSpace (dropWhile isWhiteSpace s) = stripWhiteSpace s.
Proof.
  induction s as [|c s IH]; [reflexivity|].
  cbn [dropWhile]. rewrite (strip_cons c s).
  destruct (isWhiteSpace c) eqn:Ec; [exact IH|].
  rewrite strip_cons, Ec. reflexivity.
Qed.

Lemma strip_rev (s : jsstring) : stripWhiteSpace (rev s) = rev (stripWhiteSpace s).
Proof. unfold stripWhiteSpace. apply filter_rev. Qed.

Lemma strip_trim (s : jsstring) : stripWhiteSpace (trim s) = stripWhiteSpace s.
Proof.
  unfold trim.
  rewrite strip_rev, strip_dropWhile, strip_rev, rev_involutive, strip_dropWhile.
  reflexivity.
Qed.

Lemma separated_cons (p q : N -> bool) (a : N) (s : jsstring) :
  separated p q (a :: s)
  <-> (forall b, hd_error s = Some b -> p a && q b = false) /\ separated p q s.
Proof.
  cbn [separated]. destruct s as [|b s'].
  - split; [intros _; split; [intros b E; discriminate | exact I] | intros _; exact I].
  - split.
    + intros [H Hs]. split; [|exact Hs]. intros b' E. injection E as <-. exact H.
    + intros [H Hs]. split; [apply H; reflexivity | exact Hs].
Qed.

Lemma separated_app (p q : N -> bool) (x y : jsstring) :
  separated p q (x ++ y) -> separated p q x /\ separated p q y.
Proof.
  induction x as [|a x IH]; [intros H; split; [exact I | exact H]|].
  rewrite <- app_comm_cons. intros H. apply separated_cons in H.
  destruct H as [Hhd Hrest]. destruct (IH Hrest) as [Hx Hy].
  split; [|exact Hy]. apply separated_cons. split; [|exact Hx].
  intros b E. apply Hhd. destruct x; [discriminate | exact E].
Qed.

Lemma separated_trim (p q : N -> bool) (s : jsstring) :
  separated p q s -> separated p q (trim s).
Proof.
  intros H. destruct (trim_infix s) as [before [after E]]. rewrite E in H.
  apply separated_app in H. destruct H as [_ H].
  apply separated_app in H. exact (proj1 H).
Qed.

(** After the replacement no character of the first class is followed by
    one of the second. *)
Lemma spaceBetween_separates (p q : N -> bool) :
  p SPACE = false -> q SPACE = false -> (forall c, q c = true -> p c = false) ->
  forall s, separated p q (spaceBetween p q s).
Proof.
  intros Hp Hq Hdisjoint s.
  induction s as [| a | a b s IHs IHb] using pair_induction; [exact I | exact I |].
  rewrite spaceBetween_step. destruct (p a && q b) eqn:E.
  - apply andb_true_iff in E. destruct E as [_ Eb].
    apply separated_cons. split.
    { intros c Hc. injection Hc as <-. rewrite Hq. apply andb_false_r. }
    apply separated_cons. split.
    { intros c Hc. injection Hc as <-. rewrite Hp. reflexivity. }
    apply separated_cons. split; [|exact IHs].
    intros c Hc. rewrite (Hdisjoint b Eb). reflexivity.
  - apply separated_cons. split; [|exact IHb].
    intros c Hc. rewrite spaceBetween_head in Hc. injection Hc as <-. exact E.
Qed.

(** A later replacement keeps what an earlier one has separated. *)
Lemma spaceBetween_keeps_separated (p q p' q' : N -> bool) :
  p SPACE = false -> q SPACE = false ->
  forall s, separated p q s -> separated p q (spaceBetween p' q' s).
Proof.
  intros Hp Hq s.
  induction s as [| a | a b s IHs IHb] using pair_induction;
    [intros _; exact I | intros _; exact I |].
  intros H. apply separated_cons in H. destruct H as [Hab Hrest].
  rewrite spaceBetween_step. destruct (p' a && q' b).
  - apply separated_cons in Hrest. destruct Hrest as [Hb Hs].
    apply separated_cons. split.
    { intros c Hc. injection Hc as <-. rewrite Hq. apply andb_false_r. }
    apply separated_cons. split.
    { intros c Hc. injection Hc as <-. rewrite Hp. reflexivity. }
    apply separated_cons. split; [|apply IHs; exact Hs].
    intros c Hc. rewrite spaceBetween_head in Hc. apply Hb. exact Hc.
  - apply separated_cons. split; [|apply IHb; exact Hrest].
    intros c Hc. rewrite spaceBetween_head in Hc. apply Hab. exact Hc.
Qed.

Lemma spaceBetween_fixed (p q : N -> bool) (s : jsstring) :
  separated p q s -> spaceBetween p q s = s.
Proof.
  induction s as [|a s IH]; [reflexivity|].
  intros H. destruct s as [|b s'']; [reflexivity|].
  destruct H as [Hab Hrest]. rewrite spaceBetween_step, Hab, (IH Hrest). reflexivity.
Qed.

Lemma collapseWhiteSpace_onlySpaces (s : jsstring) : onlySpaces (collapseWhiteSpace s).
Proof.
  induction s as [|c rest IH]; [constructor|].
  cbn [collapseWhiteSpace]. destruct (isWhiteSpace c) eqn:Ec.
  - destruct rest as [|c' rest']; [constructor; [reflexivity | constructor]|].
    destruct (isWhiteSpace c'); [exact IH|].
    constructor; [reflexivity | exact IH].
  - constructor; [congruence | exact IH].
Qed.

Lemma spaceBetween_onlySpaces (p q : N -> bool) (s : jsstring) :
  onlySpaces s -> onlySpaces (spaceBetween p q s).
Proof.
  induction s as [| a | a b s IHs IHb] using pair_induction;
    [intros H; exact H | intros H; exact H |].
  intros H. inversion H as [|? ? Ha Hrest]; subst.
  rewrite spaceBetween_step. destruct (p a && q b).
  - inversion Hrest as [|? ? Hb Hs]; subst.
    constructor; [exact Ha|]. constructor; [reflexivity|].
    constructor; [exact Hb | apply IHs; exact Hs].
  - constructor; [exact Ha | apply IHb; exact Hrest].
Qed.

Lemma trim_onlySpaces (s : jsstring) : onlySpaces s -> onlySpaces (trim s).
Proof.
  intros H. destruct (trim_infix s) as [before [after E]]. unfold onlySpaces in *.
  rewrite E in H. apply Forall_app in H. destruct H as [_ H].
  apply Forall_app in H. exact (proj1 H).
Qed.

Lemma collapseWhiteSpace_fixed (s : jsstring) :
  onlySpaces s -> sparse s -> collapseWhiteSpace s = s.
Proof.
  induction s as [|c rest IH]; [reflexivity|].
  intros Hspaces Hsparse. inversion Hspaces as [|? ? Hc Hrest]; subst.
  specialize (IH Hrest (sparse_tail _ _ Hsparse)).
  cbn [collapseWhiteSpace]. destruct (isWhiteSpace c) eqn:Ec.
  - rewrite (Hc eq_refl) in *. destruct rest as [|c' rest']; [reflexivity|].
    destruct Hsparse as [[H|H] _]; [congruence|].
    rewrite H, IH. reflexivity.
  - rewrite IH. reflexivity.
Qed.

Lemma dropWhile_head {A} (p : A -> bool) (l : list A) (x : A) (rest : list A) :
  dropWhile p l = x :: rest -> p x = false.
Proof.
  induction l as [|y l IH]; [discriminate|].
  cbn [dropWhile]. destruct (p y) eqn:Ey; [exact IH|].
  intros E. injection E as <- _. exact Ey.
Qed.

Lemma dropWhile_fixed {A} (p : A -> bool) (l : list A) :
  (forall x rest, l = x :: rest -> p x = false) -> dropWhile p l = l.
Proof.
  destruct l as [|x rest]; [reflexivity|].
  intros H. cbn [dropWhile]. rewrite (H x rest eq_refl). reflexivity.
Qed.

Lemma trim_idempotent (s : jsstring) : trim (trim s) = trim s.
Proof.
  unfold trim.
  set (a := dropWhile isWhiteSpace s).
  set (b := dropWhile isWhiteSpace (rev a)).
  assert (Hb : dropWhile isWhiteSpace b = b).
  { apply dropWhile_fixed. intros x rest E.
    exact (dropWhile_head isWhiteSpace (rev a) x rest E). }
  assert (Hrev : dropWhile isWhiteSpace (rev b) = rev b).
  { apply dropWhile_fixed. intros x rest E.
    destruct (dropWhile_suffix isWhiteSpace (rev a)) as [dropped Hd].
    fold b in Hd.
    assert (Ha : a = rev b ++ rev dropped).
    { rewrite <- rev_app_distr, <- Hd, rev_involutive. reflexivity. }
    rewrite E in Ha. cbn [app] in Ha.
    exact (dropWhile_head isWhiteSpace s x _ Ha). }
  rewrite Hrev, rev_involutive, Hb. reflexivity.
Qed.

Lemma isLatin_not_hangul (c : N) : isLatin c = true -> isHangul c = false.
Proof.
  unfold isLatin, isUpper, isHangul. intros H.
  apply andb_false_iff. rewrite !N.leb_gt.
  apply orb_true_iff in H. destruct H as [H|H];
    apply andb_true_iff in H; destruct H as [H1 H2];
    apply N.leb_le in H1; apply N.leb_le in H2; lia.
Qed.

Lemma isHangul_not_latin (c : N) : isHangul c = true -> isLatin c = false.
Proof.
  intros H. destruct (isLatin c) eqn:E; [|reflexivity].
  apply isLatin_not_hangul in E. congruence.
Qed.

Lemma isHangul_not_digit (c : N) : isHangul c = true -> isDigit c = false.
Proof.
  unfold isHangul, isDigit. intros H.
  apply andb_false_iff. rewrite !N.leb_gt.
  apply andb_true_iff in H. destruct H as [H1 H2].
  apply N.leb_le in H1. apply N.leb_le in H2. lia.
Qed.

(** X19: normalising the spacing a second time changes nothing; in the
    normalised text no Hangul syllable touches a Latin letter, no Latin
    letter or digit is directly followed by a Hangul syllable, and the
    characters other than white space are those of the text, in order. *)
Theorem normalizeSpacing_idempotent (text : jsstring) :
  let spaced := TitleGenerator.normalizeSpacing text in
  TitleGenerator.normalizeSpacing spaced = spaced
  /\ separated isHangul isLatin spaced
  /\ separated isLatin isHangul spaced
  /\ separated isDigit isHangul spaced
  /\ stripWhiteSpace spaced = stripWhiteSpace text
  /\ SpacingVariants.unspaced (TitleGenerator.generateSpacingVariants text)
     = stripWhiteSpace text.
Proof.
  cbv zeta.
  assert (Hstrip : stripWhiteSpace (TitleGenerator.normalizeSpacing text)
                   = stripWhiteSpace text).
  { unfold TitleGenerator.normalizeSpacing.
    rewrite strip_trim, !strip_spaceBetween, strip_collapseWhiteSpace. reflexivity. }
  assert (HL : separated isHangul isLatin (TitleGenerator.normalizeSpacing text)).
  { unfold TitleGenerator.normalizeSpacing. apply separated_trim.
    do 2 (apply spaceBetween_keeps_separated; [reflexivity | reflexivity |]).
    apply spaceBetween_separates; [reflexivity | reflexivity |].
    exact isLatin_not_hangul. }
  assert (LH : separated isLatin isHangul (TitleGenerator.normalizeSpacing text)).
  { unfold TitleGenerator.normalizeSpacing. apply separated_trim.
    apply spaceBetween_keeps_separated; [reflexivity | reflexivity |].
    apply spaceBetween_separates; [reflexivity | reflexivity |].
    exact isHangul_not_latin. }
  assert (DH : separated isDigit isHangul (TitleGenerator.normalizeSpacing text)).
  { unfold TitleGenerator.normalizeSpacing. apply separated_trim.
    apply spaceBetween_separates; [reflexivity | reflexivity |].
    exact isHangul_not_digit. }
  assert (Hspaces : onlySpaces (TitleGenerator.normalizeSpacing text)).
  { unfold TitleGenerator.normalizeSpacing. apply trim_onlySpaces.
    do 3 apply spaceBetween_onlySpaces. apply collapseWhiteSpace_onlySpaces. }
  split; [|split; [exact HL | split; [exact LH | split; [exact DH | split]]]].
  - unfold TitleGenerator.normalizeSpacing at 1.
    rewrite collapseWhiteSpace_fixed;
      [|exact Hspaces | apply normalizeSpacing_sparse].
    rewrite (spaceBetween_fixed _ _ _ HL), (spaceBetween_fixed _ _ _ LH),
            (spaceBetween_fixed _ _ _ DH).
    unfold TitleGenerator.normalizeSpacing. apply trim_idempotent.
  - exact Hstrip.
  - unfold TitleGenerator.generateSpacingVariants. cbv zeta.
    cbn [SpacingVariants.unspaced]. unfold TitleGenerator.removeSpacing. exact Hstrip.
Qed.

End SpacingFixedPointFacts.

(* ================================================================= *)
(** * Part XVI: the rule table of [CategoryRecommender] and
      [CategoryAnalytics] *)
(* ================================================================= *)

Section RuleTableFacts.

Lemma addRule_cons (r : CategoryRule.t) (rest : list CategoryRule.t)
  (rule : CategoryRule.t) :
  CategoryRules.addRule (r :: rest) rule
  = if CategoryRules.hasName (CategoryRule.categoryName rule) r
    then rule :: rest
    else r :: CategoryRules.addRule rest rule.
Proof.
  unfold CategoryRules.addRule. cbn [findIndex].
  destruct (CategoryRules.hasName (CategoryRule.categoryName rule) r); [reflexivity|].
  destruct (findIndex _ rest); reflexivity.
Qed.

Lemma removeRule_cons (r : CategoryRule.t) (rest : list CategoryRule.t)
  (categoryName : jsstring) :
  CategoryRules.removeRule (r :: rest) categoryName
  = if CategoryRules.hasName categoryName r
    then (rest, true)
    else (r :: fst (CategoryRules.removeRule rest categoryName),
          snd (CategoryRules.removeRule rest categoryName)).
Proof.
  unfold CategoryRules.removeRule. cbn [findIndex].
  destruct (CategoryRules.hasName categoryName r); [reflexivity|].
  destruct (findIndex _ rest); reflexivity.
Qed.

Lemma hasName_iff (categoryName : jsstring) (r : CategoryRule.t) :
  CategoryRules.hasName categoryName r = true <-> CategoryRule.categoryName r = categoryName.
Proof. unfold CategoryRules.hasName. apply streq_iff. Qed.

Lemma hasName_refl (r : CategoryRule.t) :
  CategoryRules.hasName (CategoryRule.categoryName r) r = true.
Proof. apply hasName_iff. reflexivity. Qed.

(** The first rule that passes a test, after [addRule]: the added rule when
    it passes and every other passing rule has its name; unchanged when the
    added rule and the rules of its name all fail. *)
Lemma addRule_find_new (test : CategoryRule.t -> bool) (rules : list CategoryRule.t)
  (rule : CategoryRule.t) :
  test rule = true ->
  (forall r, In r rules -> test r = true ->
             CategoryRule.categoryName r = CategoryRule.categoryName rule) ->
  find test (CategoryRules.addRule rules rule) = Some rule.
Proof.
  intros Hrule. induction rules as [|r rest IH]; intros Hsame.
  - cbn. rewrite Hrule. reflexivity.
  - rewrite addRule_cons.
    destruct (CategoryRules.hasName (CategoryRule.categoryName rule) r) eqn:E.
    + cbn [find]. rewrite Hrule. reflexivity.
    + cbn [find]. destruct (test r) eqn:Er.
      * apply (Hsame r (or_introl eq_refl)) in Er. apply hasName_iff in Er. congruence.
      * apply IH. intros r' Hin. apply Hsame. right. exact Hin.
Qed.

Lemma addRule_find_other (test : CategoryRule.t -> bool) (rules : list CategoryRule.t)
  (rule : CategoryRule.t) :
  test rule = false ->
  (forall r, CategoryRule.categoryName r = CategoryRule.categoryName rule ->
             test r = false) ->
  find test (CategoryRules.addRule rules rule) = find test rules.
Proof.
  intros Hrule Hname. induction rules as [|r rest IH].
  - cbn. rewrite Hrule. reflexivity.
  - rewrite addRule_cons.
    destruct (CategoryRules.hasName (CategoryRule.categoryName rule) r) eqn:E.
    + apply hasName_iff in E. cbn [find]. rewrite Hrule, (Hname r E). reflexivity.
    + cbn [find]. rewrite IH. reflexivity.
Qed.

Lemma addRule_names (rules : list CategoryRule.t) (rule : CategoryRule.t) :
  map CategoryRule.categoryName (CategoryRules.addRule rules rule)
  = if existsb (CategoryRules.hasName (CategoryRule.categoryName rule)) rules
    then map CategoryRule.categoryName rules
    else map CategoryRule.categoryName rules ++ [CategoryRule.categoryName rule].
Proof.
  induction rules as [|r rest IH]; [reflexivity|].
  rewrite addRule_cons. cbn [existsb].
  destruct (CategoryRules.hasName (CategoryRule.categoryName rule) r) eqn:E.
  - apply hasName_iff in E. cbn [map orb]. rewrite E. reflexivity.
  - cbn [map orb]. rewrite IH.
    destruct (existsb _ rest); reflexivity.
Qed.

(** X20: after [addRule] a lookup by the rule's name finds the added rule
    and a lookup by any other name finds what it found before; the names of
    the table are the same when a rule of that name was there (the first one
    is replaced in place) and get the new name at the end otherwise, so a
    table without duplicate names stays so. *)
Theorem addRule_lookup (rules : list CategoryRule.t) (rule : CategoryRule.t) :
  let rules' := CategoryRules.getRules (CategoryRules.addRule rules rule) in
  find (CategoryRules.hasName (CategoryRule.categoryName rule)) rules' = Some rule
  /\ (forall categoryName, categoryName <> CategoryRule.categoryName rule ->
        find (CategoryRules.hasName categoryName) rules'
        = find (CategoryRules.hasName categoryName) rules)
  /\ map CategoryRule.categoryName rules'
     = (if existsb (CategoryRules.hasName (CategoryRule.categoryName rule)) rules
        then map CategoryRule.categoryName rules
        else map CategoryRule.categoryName rules ++ [CategoryRule.categoryName rule])
  /\ (NoDup (map CategoryRule.categoryName rules) ->
      NoDup (map CategoryRule.categoryName rules')).
Proof.
  cbv zeta. unfold CategoryRules.getRules.
  split; [|split; [|split]].
  - apply addRule_find_new; [apply hasName_refl|].
    intros r _ H. apply hasName_iff in H. exact H.
  - intros categoryName Hne. apply addRule_find_other.
    + destruct (CategoryRules.hasName categoryName rule) eqn:E; [|reflexivity].
      apply hasName_iff in E. congruence.
    + intros r Hr. destruct (CategoryRules.hasName categoryName r) eqn:E; [|reflexivity].
      apply hasName_iff in E. congruence.
  - apply addRule_names.
  - intros Hnd. rewrite addRule_names.
    destruct (existsb _ rules) eqn:E; [exact Hnd|].
    apply NoDup_app; [exact Hnd | constructor; [intros [] | constructor] |].
    intros name Hin Hnew. destruct Hnew as [<-|[]].
    apply in_map_iff in Hin. destruct Hin as [r [Hr Hin]].
    assert (Hex : existsb (CategoryRules.hasName (CategoryRule.categoryName rule)) rules
                  = true).
    { apply existsb_exists. exists r. split; [exact Hin | apply hasName_iff; exact Hr]. }
    congruence.
Qed.

Lemma removeRule_spec (rules : list CategoryRule.t) (categoryName : jsstring) :
  let rules' := fst (CategoryRules.removeRule rules categoryName) in
  let removed := snd (CategoryRules.removeRule rules categoryName) in
  removed = existsb (CategoryRules.hasName categoryName) rules
  /\ (removed = false -> rules' = rules)
  /\ (removed = true -> S (List.length rules') = List.length rules)
  /\ (forall test,
        (forall r, CategoryRule.categoryName r = categoryName -> test r = false) ->
        find test rules' = find test rules)
  /\ (forall r, In r rules' -> In r rules)
  /\ (NoDup (map CategoryRule.categoryName rules) ->
      find (CategoryRules.hasName categoryName) rules' = None).
Proof.
  induction rules as [|r rest IH]; cbv zeta.
  - cbn. repeat split; auto; discriminate.
  - rewrite removeRule_cons. cbn [existsb].
    cbv zeta in IH. destruct IH as [Hex [Hkeep [Hlen [Hfind [Hin Hgone]]]]].
    destruct (CategoryRules.hasName categoryName r) eqn:E; cbn [fst snd orb].
    + split; [reflexivity|]. split; [discriminate|]. split; [reflexivity|].
      split; [|split].
      * intros test Htest. apply hasName_iff in E. cbn [find].
        rewrite (Htest r E). reflexivity.
      * intros r' H. right. exact H.
      * intros Hnd. cbn [map] in Hnd. inversion Hnd as [|? ? Hnot _]; subst.
        destruct (find (CategoryRules.hasName categoryName) rest) as [r'|] eqn:Ef;
          [|reflexivity].
        apply find_some in Ef. destruct Ef as [Hr' Hn'].
        apply hasName_iff in E. apply hasName_iff in Hn'.
        exfalso. apply Hnot. rewrite E, <- Hn'. apply in_map. exact Hr'.
    + split; [exact Hex|]. split; [|split; [|split; [|split]]].
      * intros H. rewrite (Hkeep H). reflexivity.
      * intros H. cbn [List.length]. rewrite (Hlen H). reflexivity.
      * intros test Htest. cbn [find]. rewrite (Hfind test Htest). reflexivity.
      * intros r' [<-|H]; [left; reflexivity | right; apply Hin; exact H].
      * intros Hnd. cbn [map] in Hnd. inversion Hnd as [|? ? _ Hrest]; subst.
        cbn [find]. rewrite E. apply Hgone. exact Hrest.
Qed.

(** X21: [removeRule] answers whether a rule of that name was in the table;
    if none was, the table is unchanged; otherwise the first such rule is taken
    out, lookups by other names find what they found before, and, in a table
    without duplicate names, no rule of that name is left. *)
Theorem removeRule_lookup (rules : list CategoryRule.t) (categoryName : jsstring) :
  let rules' := fst (CategoryRules.removeRule rules categoryName) in
  let removed := snd (CategoryRules.removeRule rules categoryName) in
  removed = existsb (CategoryRules.hasName categoryName) rules
  /\ (removed = false -> rules' = rules)
  /\ (removed = true -> S (List.length rules') = List.length rules)
  /\ (forall other, other <> categoryName ->
        find (CategoryRules.hasName other) rules'
        = find (CategoryRules.hasName other) rules)
  /\ (NoDup (map CategoryRule.categoryName rules) ->
      find (CategoryRules.hasName categoryName) rules' = None).
Proof.
  cbv zeta.
  destruct (removeRule_spec rules categoryName) as [Hex [Hkeep [Hlen [Hfind [_ Hgone]]]]].
  split; [exact Hex|]. split; [exact Hkeep|]. split; [exact Hlen|].
  split; [|exact Hgone].
  intros other Hne. apply Hfind. intros r Hr.
  destruct (CategoryRules.hasName other r) eqn:E; [|reflexivity].
  apply hasName_iff in E. congruence.
Qed.

(** X22: adding a rule whose name is not in the table and removing it again
    gives the table back. *)
Theorem removeRule_addRule (rules : list CategoryRule.t) (rule : CategoryRule.t) :
  existsb (CategoryRules.hasName (CategoryRule.categoryName rule)) rules = false ->
  CategoryRules.removeRule (CategoryRules.addRule rules rule)
                           (CategoryRule.categoryName rule)
  = (rules, true).
Proof.
  induction rules as [|r rest IH]; intros H.
  - unfold CategoryRules.addRule, CategoryRules.removeRule. cbn [findIndex app].
    rewrite hasName_refl. reflexivity.
  - cbn [existsb] in H. apply orb_false_iff in H. destruct H as [Hr Hrest].
    rewrite addRule_cons, Hr, removeRule_cons, Hr, (IH Hrest). reflexivity.
Qed.

End RuleTableFacts.

Lemma removeRule_addRule_witness :
  CategoryRules.removeRule
    (CategoryRules.addRule [Examples.phoneRule] Examples.shirtRule)
    (CategoryRule.categoryName Examples.shirtRule)
  = ([Examples.phoneRule], true).
Proof.
  apply (removeRule_addRule [Examples.phoneRule] Examples.shirtRule).
  vm_compute. reflexivity.
Defined.

Section ChecklistFacts.
Context {SC : StringCase}.

(** X23: the checklist of a category is the attribute list of the first
    rule whose name equals the given one up to case, and empty when there is
    none.  After [addRule] the checklist asked by the rule's name is the
    rule's, provided no rule of the table has a name that differs from it
    only by case. *)
Theorem getCategoryChecklist_addRule (rules : list CategoryRule.t)
  (rule : CategoryRule.t) :
  (forall r, In r rules ->
     toLowerCase (CategoryRule.categoryName r)
     = toLowerCase (CategoryRule.categoryName rule) ->
     CategoryRule.categoryName r = CategoryRule.categoryName rule) ->
  CategoryRules.getCategoryChecklist (CategoryRules.addRule rules rule)
                                     (CategoryRule.categoryName rule)
  = CategoryRule.attributes rule
  /\ forall categoryName,
       (forall r, In r rules ->
          toLowerCase (CategoryRule.categoryName r) <> toLowerCase categoryName) ->
       CategoryRules.getCategoryChecklist rules categoryName = [].
Proof.
  intros Hcase. split.
  - unfold CategoryRules.getCategoryChecklist.
    rewrite addRule_find_new; [reflexivity | apply streq_iff; reflexivity |].
    intros r Hin Hr. apply streq_iff in Hr. exact (Hcase r Hin Hr).
  - intros categoryName Hnone. unfold CategoryRules.getCategoryChecklist.
    destruct (find _ rules) as [r|] eqn:E; [|reflexivity].
    apply find_some in E. destruct E as [Hin Hr]. apply streq_iff in Hr.
    exfalso. exact (Hnone r Hin Hr).
Qed.

End ChecklistFacts.

Lemma getCategoryChecklist_addRule_witness :
  @CategoryRules.getCategoryChecklist asciiCase
    (CategoryRules.addRule [Examples.phoneRule] Examples.shirtRule)
    (CategoryRule.categoryName Examples.shirtRule)
  = CategoryRule.attributes Examples.shirtRule.
Proof.
  apply (@getCategoryChecklist_addRule asciiCase [Examples.phoneRule] Examples.shirtRule).
  intros r [<-|[]] H. vm_compute in H. discriminate.
Defined.

Section QualityFacts.

Lemma Math_round_nonneg (x : Q) : 0 <= x -> 0 <= Math_round x.
Proof.
  intros H. apply (Math_round_lower x 0). change (inject_Z 0) with 0. lra.
Qed.

(** X24: of the recommendations analysed, those counted as of high and as of
    low confidence are different ones, so the two counts add up to at most
    their number; the quality score lies between 0 and 100; and the average
    confidence lies between any two integers that bound every confidence.  *)
Theorem analyzeRecommendationQuality_range
  (recommendations : list CategoryRecommendationDetail.t) :
  let quality := CategoryAnalytics.analyzeRecommendationQuality recommendations in
  (RecommendationQuality.highConfidenceCount quality
   + RecommendationQuality.lowConfidenceCount quality
   <= List.length recommendations)%nat
  /\ 0 <= RecommendationQuality.qualityScore quality <= 100
  /\ (forall lo hi : Z,
        recommendations <> [] ->
        Forall (fun r =>
                  inject_Z lo
                  <= CategorySuggestion.confidence
                       (CategoryRecommendationDetail.suggestion r)
                  <= inject_Z hi)
               recommendations ->
        inject_Z lo <= RecommendationQuality.averageConfidence quality <= inject_Z hi).
Proof.
  cbv zeta. destruct recommendations as [|r rest].
  - cbn. split; [lia|]. split; [split; discriminate|]. intros lo hi H. congruence.
  - unfold CategoryAnalytics.analyzeRecommendationQuality. cbv zeta.
    cbn [RecommendationQuality.highConfidenceCount
         RecommendationQuality.lowConfidenceCount RecommendationQuality.qualityScore
         RecommendationQuality.averageConfidence].
    set (confidences := map _ (r :: rest)).
    set (high := List.length (filter (fun c => Qle_bool 80 c) confidences)).
    set (low := List.length (filter (fun c => Qlt_bool c 50) confidences)).
    assert (Hcount : (high + low <= List.length confidences)%nat).
    { unfold high, low. clear. induction confidences as [|c cs IH]; [apply Nat.le_refl|].
      cbn [filter].
      destruct (Qle_bool 80 c) eqn:E1; destruct (Qlt_bool c 50) eqn:E2;
        cbn [List.length]; try lia.
      apply Qle_bool_iff in E1. apply Qlt_bool_iff in E2. lra. }
    assert (Hlen : List.length confidences = List.length (r :: rest))
      by (unfold confidences; apply length_map).
    split; [rewrite <- Hlen; exact Hcount|].
    pose proof (len_pos r rest) as Hpos.
    assert (Hhigh : 0 <= inject_Z (Z.of_nat high) <= len (r :: rest)).
    { unfold len. rewrite <- Hlen. change 0 with (inject_Z 0).
      rewrite <- !Zle_Qle. lia. }
    set (share := inject_Z (Z.of_nat high) / len (r :: rest)).
    assert (Hshare : 0 <= share <= 1).
    { unfold share. split; [apply Qle_shift_div_l | apply Qle_shift_div_r]; lra. }
    split.
    + destruct (Math_round_bounds (share * 100 * 100) 0 10000) as [H0 H1];
        [change (inject_Z 0) with 0; lra | change (inject_Z 10000) with 10000; lra |].
      change (inject_Z 0) with 0 in H0. change (inject_Z 10000) with 10000 in H1.
      split; [apply Qle_shift_div_l | apply Qle_shift_div_r]; lra.
    + intros lo hi _ Hall.
      assert (Hmean : inject_Z lo <= sum confidences / len confidences
                      /\ sum confidences / len confidences <= inject_Z hi).
      { unfold confidences. cbn [map]. apply mean_bounds.
        change (Forall (fun v => inject_Z lo <= v /\ v <= inject_Z hi)
                       (map (fun r0 => CategorySuggestion.confidence
                                         (CategoryRecommendationDetail.suggestion r0))
                            (r :: rest))).
        apply Forall_map. exact Hall. }
      set (mean := sum confidences / len confidences) in *.
      destruct (Math_round_bounds (mean * 100) (lo * 100) (hi * 100)) as [H0 H1].
      * rewrite inject_Z_mult. change (inject_Z 100) with 100. lra.
      * rewrite inject_Z_mult. change (inject_Z 100) with 100. lra.
      * rewrite inject_Z_mult in H0, H1. change (inject_Z 100) with 100 in H0, H1.
        split; [apply Qle_shift_div_l | apply Qle_shift_div_r]; lra.
Qed.

End QualityFacts.

(* ================================================================= *)
(** * Part XVII: properties of the string and colour utilities *)
(* ================================================================= *)

Section TruncateFacts.

(** X25: a text within the limit is returned as it is; a longer one is cut
    to its first [maxLength] code units followed by three dots, so that the
    result is [maxLength + 3] long: longer than the limit, and longer than the
    text itself when the text exceeds the limit by one or two. *)
Theorem truncate_length (text : jsstring) (maxLength : nat) :
  let result := StringUtils.truncate text maxLength in
  ((List.length text <= maxLength)%nat -> result = text)
  /\ ((maxLength < List.length text)%nat ->
      List.length result = (maxLength + 3)%nat
      /\ firstn maxLength result = firstn maxLength text
      /\ skipn maxLength result = js "...")
  /\ StringUtils.truncate result (maxLength + 3) = result.
Proof.
  cbv zeta. unfold StringUtils.truncate.
  assert (Hdots : List.length (js "...") = 3%nat) by reflexivity.
  split; [|split].
  - intros H. apply Nat.leb_le in H. rewrite H. reflexivity.
  - intros H. assert (E : (List.length text <=? maxLength)%nat = false)
      by (apply Nat.leb_gt; exact H).
    rewrite E.
    assert (Hlen : List.length (firstn maxLength text) = maxLength)
      by (rewrite length_firstn; lia).
    split; [rewrite length_app, Hlen, Hdots; reflexivity|].
    split.
    + rewrite firstn_app, Hlen, Nat.sub_diag, firstn_O, app_nil_r.
      apply firstn_all2. rewrite Hlen. apply Nat.le_refl.
    + rewrite skipn_app, Hlen, Nat.sub_diag, skipn_O.
      rewrite skipn_all2 by (rewrite Hlen; apply Nat.le_refl). reflexivity.
  - destruct (List.length text <=? maxLength)%nat eqn:E.
    + apply Nat.leb_le in E.
      assert (E' : (List.length text <=? maxLength + 3)%nat = true)
        by (apply Nat.leb_le; lia).
      rewrite E'. reflexivity.
    + apply Nat.leb_gt in E.
      assert (E' : (List.length (firstn maxLength text ++ js "...") <=? maxLength + 3)%nat
                   = true).
      { apply Nat.leb_le. rewrite length_app, length_firstn, Hdots. lia. }
      rewrite E'. reflexivity.
Qed.

End TruncateFacts.

Section LevenshteinFacts.

Lemma rowInRange_tail (i j : nat) (x : nat) (row : list nat) :
  rowInRange i j (x :: row) -> rowInRange i (S j) row.
Proof.
  intros H k y Hk. specialize (H (S k) y Hk).
  replace (S j + k)%nat with (j + S k)%nat by lia. exact H.
Qed.

Lemma rowInRange_cons (i j : nat) (x : nat) (row : list nat) :
  (Nat.max i j - Nat.min i j <= x <= Nat.max i j)%nat ->
  rowInRange i (S j) row -> rowInRange i j (x :: row).
Proof.
  intros Hx Hrow [|k] y Hk.
  - cbn in Hk. injection Hk as <-. rewrite Nat.add_0_r. exact Hx.
  - cbn in Hk. specialize (Hrow k y Hk).
    replace (j + S k)%nat with (S j + k)%nat by lia. exact Hrow.
Qed.

Lemma fillRow_length (c2 : N) (str1 : jsstring) :
  forall diagonal above left,
    List.length above = List.length str1 ->
    List.length (StringUtils.fillRow c2 str1 diagonal above left) = List.length str1.
Proof.
  induction str1 as [|c1 str1 IH]; intros diagonal above left H; [reflexivity|].
  destruct above as [|up above]; [discriminate|].
  cbn [StringUtils.fillRow List.length]. f_equal. apply IH.
  cbn [List.length] in H. lia.
Qed.

Lemma fillRow_inRange (c2 : N) (i : nat) (str1 : jsstring) :
  forall j diagonal above left,
    (Nat.max i j - Nat.min i j <= diagonal <= Nat.max i j)%nat ->
    (Nat.max (S i) j - Nat.min (S i) j <= left <= Nat.max (S i) j)%nat ->
    rowInRange i (S j) above ->
    rowInRange (S i) (S j) (StringUtils.fillRow c2 str1 diagonal above left).
Proof.
  induction str1 as [|c1 str1 IH]; intros j diagonal above left Hd Hl Habove.
  - intros k x Hk. destruct k; discriminate.
  - destruct above as [|up above]; [intros k x Hk; destruct k; discriminate|].
    cbn [StringUtils.fillRow].
    pose proof (Habove 0%nat up eq_refl) as Hup. rewrite Nat.add_0_r in Hup.
    set (cell := if (c2 =? c1)%N then diagonal
                 else StringUtils.min3 (diagonal + 1) (left + 1) (up + 1)).
    assert (Hcell : (Nat.max (S i) (S j) - Nat.min (S i) (S j) <= cell
                     <= Nat.max (S i) (S j))%nat).
    { unfold cell, StringUtils.min3. destruct (c2 =? c1)%N; lia. }
    apply rowInRange_cons; [exact Hcell|].
    apply IH; [exact Hup | exact Hcell | exact (rowInRange_tail _ _ _ _ Habove)].
Qed.

Lemma nextRow_inRange (c2 : N) (str1 : jsstring) (i : nat) (previous : list nat) :
  List.length previous = S (List.length str1) ->
  rowInRange i 0 previous ->
  List.length (StringUtils.nextRow c2 str1 (S i) previous) = S (List.length str1)
  /\ rowInRange (S i) 0 (StringUtils.nextRow c2 str1 (S i) previous).
Proof.
  intros Hlen Hrow. destruct previous as [|diagonal above]; [discriminate|].
  cbn [StringUtils.nextRow]. cbn [List.length] in *. split.
  - f_equal. apply fillRow_length. lia.
  - pose proof (Hrow 0%nat diagonal eq_refl) as Hd. cbn [Nat.add] in Hd.
    apply rowInRange_cons; [lia|].
    apply fillRow_inRange; [exact Hd | lia | exact (rowInRange_tail _ _ _ _ Hrow)].
Qed.

Lemma lastRow_inRange (str1 : jsstring) (str2 : jsstring) :
  forall i previous,
    List.length previous = S (List.length str1) ->
    rowInRange i 0 previous ->
    List.length (StringUtils.lastRow str1 str2 i previous) = S (List.length str1)
    /\ rowInRange (i + List.length str2) 0 (StringUtils.lastRow str1 str2 i previous).
Proof.
  induction str2 as [|c2 str2 IH]; intros i previous Hlen Hrow.
  - cbn [StringUtils.lastRow List.length]. rewrite Nat.add_0_r. split; assumption.
  - cbn [StringUtils.lastRow List.length].
    destruct (nextRow_inRange c2 str1 i previous Hlen Hrow) as [Hlen' Hrow'].
    replace (i + S (List.length str2))%nat with (S i + List.length str2)%nat by lia.
    apply IH; assumption.
Qed.

Lemma firstRow_inRange (n : nat) : rowInRange 0 0 (seq 0 (S n)).
Proof.
  intros k x Hk. apply nth_error_In in Hk as Hin. apply in_seq in Hin.
  assert (Hx : x = k).
  { pose proof (nth_error_Some (seq 0 (S n)) k) as Hs.
    assert (Hlt : (k < S n)%nat) by (rewrite length_seq in Hs; apply Hs; congruence).
    rewrite (nth_error_nth' _ 0%nat) in Hk by (rewrite length_seq; exact Hlt).
    rewrite seq_nth in Hk by exact Hlt. injection Hk as <-. reflexivity. }
  subst x. lia.
Qed.

Lemma last_nth_error (l : list nat) (n : nat) :
  List.length l = S n -> nth_error l n = Some (last l 0%nat).
Proof.
  revert n. induction l as [|x l IH]; intros n H; [discriminate|].
  destruct l as [|y l].
  - cbn in H. injection H as <-. reflexivity.
  - destruct n as [|n]; [discriminate|].
    cbn [List.length] in H. injection H as H.
    change (last (x :: y :: l) 0%nat) with (last (y :: l) 0%nat).
    cbn [nth_error]. apply IH. cbn [List.length]. f_equal. exact H.
Qed.

Lemma levenshteinDistance_range (str1 str2 : jsstring) :
  (Nat.max (List.length str1) (List.length str2)
   - Nat.min (List.length str1) (List.length str2)
   <= StringUtils.levenshteinDistance str1 str2
   <= Nat.max (List.length str1) (List.length str2))%nat.
Proof.
  unfold StringUtils.levenshteinDistance. cbv zeta.
  destruct (lastRow_inRange str1 str2 0 (seq 0 (S (List.length str1))))
    as [Hlen Hrow]; [apply length_seq | apply firstRow_inRange |].
  pose proof (Hrow _ _ (last_nth_error _ _ Hlen)) as H.
  cbn [Nat.add] in H. lia.
Qed.

(** The entry on the diagonal stays 0 as long as the two strings agree. *)
Lemma fillRow_diagonal (c2 : N) :
  forall k str1 diagonal above left,
    nth_error str1 k = Some c2 ->
    nth_error (diagonal :: above) k = Some 0%nat ->
    (List.length str1 <= List.length above)%nat ->
    nth_error (StringUtils.fillRow c2 str1 diagonal above left) k = Some 0%nat.
Proof.
  induction k as [|k IH]; intros str1 diagonal above left Hc Hd Hlen.
  - destruct str1 as [|c1 str1]; [discriminate|].
    destruct above as [|up above]; [cbn in Hlen; lia|].
    cbn in Hc, Hd. injection Hc as <-. injection Hd as ->.
    cbn [StringUtils.fillRow nth_error]. rewrite N.eqb_refl. reflexivity.
  - destruct str1 as [|c1 str1]; [discriminate|].
    destruct above as [|up above]; [cbn in Hlen; lia|].
    cbn [StringUtils.fillRow nth_error]. apply IH.
    + exact Hc.
    + exact Hd.
    + cbn [List.length] in Hlen. lia.
Qed.

Lemma lastRow_diagonal (str1 : jsstring) (str2 : jsstring) :
  forall i previous,
    List.length previous = S (List.length str1) ->
    nth_error previous i = Some 0%nat ->
    skipn i str1 = str2 ->
    last (StringUtils.lastRow str1 str2 i previous) 0%nat = 0%nat.
Proof.
  induction str2 as [|c2 str2 IH]; intros i previous Hlen Hzero Hrest.
  - cbn [StringUtils.lastRow].
    assert (Hi : (List.length str1 <= i)%nat).
    { destruct (Nat.le_gt_cases (List.length str1) i) as [H|H]; [exact H|].
      assert (Hl : List.length (skipn i str1) = (List.length str1 - i)%nat)
        by apply length_skipn.
      rewrite Hrest in Hl. cbn in Hl. lia. }
    assert (Hi' : (i < List.length previous)%nat).
    { apply nth_error_Some. congruence. }
    assert (i = List.length str1) by lia. subst i.
    rewrite (last_nth_error _ _ Hlen) in Hzero. injection Hzero as ->. reflexivity.
  - cbn [StringUtils.lastRow].
    assert (Hc : nth_error str1 i = Some c2).
    { rewrite <- (firstn_skipn i str1) at 1. rewrite Hrest.
      assert (Hi : (i <= List.length str1)%nat).
      { destruct (Nat.le_gt_cases i (List.length str1)) as [H|H]; [exact H|].
        rewrite skipn_all2 in Hrest by lia. discriminate. }
      rewrite nth_error_app2 by (rewrite length_firstn; lia).
      rewrite length_firstn. replace (i - Nat.min i (List.length str1))%nat with 0%nat by lia.
      reflexivity. }
    assert (Hrest' : skipn (S i) str1 = str2).
    { clear - Hrest. revert str1 Hrest. induction i as [|i IHi]; intros str1 Hrest.
      - cbn in Hrest. subst str1. reflexivity.
      - destruct str1 as [|c str1]; [discriminate|]. cbn [skipn] in *.
        apply IHi. exact Hrest. }
    destruct previous as [|diagonal above]; [discriminate|].
    cbn [List.length] in Hlen. injection Hlen as Hlen.
    apply IH.
    + cbn [StringUtils.nextRow List.length]. f_equal. apply fillRow_length. exact Hlen.
    + cbn [StringUtils.nextRow nth_error].
      apply fillRow_diagonal; [exact Hc | exact Hzero | lia].
    + exact Hrest'.
Qed.

Lemma levenshteinDistance_same (str : jsstring) :
  StringUtils.levenshteinDistance str str = 0%nat.
Proof.
  unfold StringUtils.levenshteinDistance. cbv zeta.
  apply lastRow_diagonal; [apply length_seq | reflexivity | reflexivity].
Qed.

(** X26: the edit distance of two strings is at least the difference of
    their lengths and at most the larger length, and the distance of a string
    to itself is 0. *)
Theorem levenshteinDistance_bounds (str1 str2 : jsstring) :
  (Nat.max (List.length str1) (List.length str2)
   - Nat.min (List.length str1) (List.length str2)
   <= StringUtils.levenshteinDistance str1 str2
   <= Nat.max (List.length str1) (List.length str2))%nat
  /\ StringUtils.levenshteinDistance str1 str1 = 0%nat
  /\ StringUtils.levenshteinDistance str1 [] = List.length str1
  /\ StringUtils.levenshteinDistance [] str2 = List.length str2.
Proof.
  split; [apply levenshteinDistance_range|]. split; [apply levenshteinDistance_same|].
  split.
  - pose proof (levenshteinDistance_range str1 []) as H. cbn [List.length] in H. lia.
  - pose proof (levenshteinDistance_range [] str2) as H. cbn [List.length] in H. lia.
Qed.

(** X27: the similarity of two strings lies between 0 and 1; it is 1 for a
    string and itself, and below 1 for strings of different lengths. *)
Theorem similarity_range (str1 str2 : jsstring) :
  0 <= StringUtils.similarity str1 str2 <= 1
  /\ StringUtils.similarity str1 str1 == 1
  /\ (List.length str1 <> List.length str2 -> StringUtils.similarity str1 str2 < 1).
Proof.
  assert (Hgen : forall longer shorter : jsstring,
            (List.length shorter <= List.length longer)%nat ->
            longer <> [] ->
            let d := inject_Z (Z.of_nat (StringUtils.levenshteinDistance longer shorter)) in
            0 <= (len longer - d) / len longer <= 1
            /\ (List.length shorter <> List.length longer ->
                (len longer - d) / len longer < 1)).
  { intros longer shorter Hle Hne. cbv zeta.
    pose proof (levenshteinDistance_range longer shorter) as Hd.
    destruct longer as [|c longer]; [congruence|].
    pose proof (len_pos c longer) as Hpos.
    set (n := StringUtils.levenshteinDistance (c :: longer) shorter) in *.
    assert (H0 : 0 <= inject_Z (Z.of_nat n))
      by (change 0 with (inject_Z 0); rewrite <- Zle_Qle; lia).
    assert (H1 : inject_Z (Z.of_nat n) <= len (c :: longer))
      by (unfold len; rewrite <- Zle_Qle; lia).
    split; [split; [apply Qle_shift_div_l | apply Qle_shift_div_r]; lra|].
    intros Hdiff.
    assert (H2 : 1 <= inject_Z (Z.of_nat n))
      by (change 1 with (inject_Z 1); rewrite <- Zle_Qle; lia).
    apply Qlt_shift_div_r; lra. }
  unfold StringUtils.similarity. cbv zeta.
  split; [|split].
  - destruct (List.length str2 <? List.length str1)%nat eqn:E.
    + apply Nat.ltb_lt in E. destruct str1 as [|c str1]; [cbn in E; lia|].
      apply (Hgen (c :: str1) str2); [lia | discriminate].
    + apply Nat.ltb_ge in E. destruct str2 as [|c str2]; [split; discriminate|].
      apply (Hgen (c :: str2) str1); [exact E | discriminate].
  - rewrite Nat.ltb_irrefl. destruct str1 as [|c str1]; [reflexivity|].
    rewrite levenshteinDistance_same. change (inject_Z (Z.of_nat 0)) with 0.
    pose proof (len_pos c str1) as Hpos. field. lra.
  - intros Hdiff. destruct (List.length str2 <? List.length str1)%nat eqn:E.
    + apply Nat.ltb_lt in E. destruct str1 as [|c str1]; [cbn in E; lia|].
      apply (Hgen (c :: str1) str2); [lia | discriminate | lia].
    + apply Nat.ltb_ge in E. destruct str2 as [|c str2].
      * destruct str1; [congruence | cbn in E; lia].
      * apply (Hgen (c :: str2) str1); [exact E | discriminate | exact Hdiff].
Qed.

End LevenshteinFacts.

Section ColorFacts.

Lemma toInt32_small (n : Z) : (- 2 ^ 31 <= n < 2 ^ 31)%Z -> ColorUtils.toInt32 n = n.
Proof.
  intros H. unfold ColorUtils.toInt32. rewrite Z.mod_small; lia.
Qed.

Lemma shiftLeft_byte (x k : Z) :
  (0 <= x < 256)%Z -> (0 <= k <= 16)%Z -> ColorUtils.shiftLeft x k = (x * 2 ^ k)%Z.
Proof.
  intros Hx Hk. unfold ColorUtils.shiftLeft.
  assert (Hland : Z.land k 31 = k).
  { change 31%Z with (Z.ones 5). rewrite Z.land_ones by lia.
    apply Z.mod_small. change (2 ^ 5)%Z with 32%Z. lia. }
  rewrite Hland, (toInt32_small x) by lia.
  rewrite Z.shiftl_mul_pow2 by lia.
  apply toInt32_small.
  assert (Hpow : (0 < 2 ^ k <= 2 ^ 16)%Z).
  { split; [apply Z.pow_pos_nonneg; lia | apply Z.pow_le_mono_r; lia]. }
  change (2 ^ 16)%Z with 65536%Z in Hpow. change (2 ^ 31)%Z with 2147483648%Z. nia.
Qed.

Lemma hexDigits_step (fuel : nat) (m d : Z) :
  (1 <= m)%Z -> (0 <= d < 16)%Z ->
  ColorUtils.hexDigits (S fuel) (16 * m + d)
  = ColorUtils.hexDigits fuel m ++ [ColorUtils.hexDigit d].
Proof.
  intros Hm Hd. cbn [ColorUtils.hexDigits].
  assert (E : (16 * m + d <? 16)%Z = false) by (apply Z.ltb_ge; lia).
  rewrite E.
  assert (Hdiv : ((16 * m + d) / 16 = m)%Z).
  { rewrite Z.mul_comm, Z.div_add_l by lia. rewrite Z.div_small by lia. lia. }
  assert (Hmod : ((16 * m + d) mod 16 = d)%Z).
  { rewrite Z.add_comm, Z.mul_comm, Z.mod_add by lia. apply Z.mod_small. lia. }
  rewrite Hdiv, Hmod. reflexivity.
Qed.

Lemma nibble_cases (d : Z) :
  (0 <= d < 16)%Z ->
  In d [0; 1; 2; 3; 4; 5; 6; 7; 8; 9; 10; 11; 12; 13; 14; 15]%Z.
Proof. intros H. cbn [In]. lia. Qed.

Lemma hexDigit_value (d : Z) :
  (0 <= d < 16)%Z ->
  ColorUtils.isHexDigit (ColorUtils.hexDigit d) = true
  /\ ColorUtils.hexValue (ColorUtils.hexDigit d) = d.
Proof.
  intros H. apply nibble_cases in H. cbn [In] in H.
  repeat (destruct H as [<-|H]; [split; reflexivity|]). destruct H.
Qed.

Lemma byte_nibbles (x : Z) :
  (0 <= x <= 255)%Z ->
  (0 <= x / 16 < 16)%Z /\ (0 <= x mod 16 < 16)%Z /\ x = (16 * (x / 16) + x mod 16)%Z.
Proof.
  intros H. split; [|split].
  - split; [apply Z.div_pos; lia | apply Z.div_lt_upper_bound; lia].
  - apply Z.mod_pos_bound. lia.
  - apply Z.div_mod. lia.
Qed.

Lemma rgbToHex_digits (r g b : Z) :
  (0 <= r <= 255)%Z -> (0 <= g <= 255)%Z -> (0 <= b <= 255)%Z ->
  ColorUtils.rgbToHex r g b
  = 35%N :: map ColorUtils.hexDigit
              [r / 16; r mod 16; g / 16; g mod 16; b / 16; b mod 16]%Z.
Proof.
  intros Hr Hg Hb. unfold ColorUtils.rgbToHex.
  destruct (byte_nibbles r Hr) as [Hr1 [Hr0 Er]].
  destruct (byte_nibbles g Hg) as [Hg1 [Hg0 Eg]].
  destruct (byte_nibbles b Hb) as [Hb1 [Hb0 Eb]].
  set (r1 := (r / 16)%Z) in *. set (r0 := (r mod 16)%Z) in *.
  set (g1 := (g / 16)%Z) in *. set (g0 := (g mod 16)%Z) in *.
  set (b1 := (b / 16)%Z) in *. set (b0 := (b mod 16)%Z) in *.
  assert (H1 : ColorUtils.shiftLeft 1 24 = 16777216%Z) by reflexivity.
  rewrite H1, (shiftLeft_byte r 16), (shiftLeft_byte g 8) by lia.
  change (2 ^ 16)%Z with 65536%Z. change (2 ^ 8)%Z with 256%Z.
  set (v := (16777216 + r * 65536 + g * 256 + b)%Z).
  assert (Hv : v = (16 * (16 * (16 * (16 * (16 * (16 * 1 + r1) + r0) + g1) + g0) + b1)
                    + b0)%Z) by (unfold v; lia).
  assert (Hlog : Z.log2 v = 24%Z).
  { apply Z.log2_unique; [lia|].
    change (2 ^ 24)%Z with 16777216%Z. change (2 ^ (24 + 1))%Z with 33554432%Z.
    unfold v. lia. }
  unfold ColorUtils.toString16.
  assert (Hpos : (v <? 0)%Z = false) by (apply Z.ltb_ge; unfold v; lia).
  rewrite Hpos, Hlog. change (S (Z.to_nat 24)) with 25%nat.
  rewrite Hv.
  rewrite !hexDigits_step by lia.
  reflexivity.
Qed.

(** X28: for colour components between 0 and 255, [rgbToHex] gives a hash
    sign and six hexadecimal digits, and [hexToRgb] reads the components back
    from it. *)
Theorem hexToRgb_rgbToHex (r g b : Z) :
  (0 <= r <= 255)%Z -> (0 <= g <= 255)%Z -> (0 <= b <= 255)%Z ->
  ColorUtils.hexToRgb (ColorUtils.rgbToHex r g b)
  = Some {| Rgb.r := r; Rgb.g := g; Rgb.b := b |}
  /\ List.length (ColorUtils.rgbToHex r g b) = 7%nat.
Proof.
  intros Hr Hg Hb. rewrite (rgbToHex_digits r g b Hr Hg Hb).
  split; [|reflexivity].
  destruct (byte_nibbles r Hr) as [Hr1 [Hr0 Er]].
  destruct (byte_nibbles g Hg) as [Hg1 [Hg0 Eg]].
  destruct (byte_nibbles b Hb) as [Hb1 [Hb0 Eb]].
  destruct (hexDigit_value _ Hr1) as [Ir1 Vr1]. destruct (hexDigit_value _ Hr0) as [Ir0 Vr0].
  destruct (hexDigit_value _ Hg1) as [Ig1 Vg1]. destruct (hexDigit_value _ Hg0) as [Ig0 Vg0].
  destruct (hexDigit_value _ Hb1) as [Ib1 Vb1]. destruct (hexDigit_value _ Hb0) as [Ib0 Vb0].
  unfold ColorUtils.hexToRgb. cbn [map]. rewrite N.eqb_refl. cbv zeta.
  cbn [forallb]. rewrite Ir1, Ir0, Ig1, Ig0, Ib1, Ib0. cbn [andb].
  unfold ColorUtils.parseHex. cbn [fold_left].
  rewrite Vr1, Vr0, Vg1, Vg0, Vb1, Vb0.
  f_equal. f_equal; lia.
Qed.

Lemma hexValue_range (c : N) :
  ColorUtils.isHexDigit c = true -> (0 <= ColorUtils.hexValue c <= 15)%Z.
Proof.
  unfold ColorUtils.isHexDigit, ColorUtils.hexValue, isDigit. intros H.
  destruct ((48 <=? c) && (c <=? 57))%N eqn:Ed.
  - apply andb_true_iff in Ed. destruct Ed as [H1 H2].
    apply N.leb_le in H1. apply N.leb_le in H2. lia.
  - cbn [orb] in H. apply orb_true_iff in H. destruct H as [H|H];
      apply andb_true_iff in H; destruct H as [H1 H2];
      apply N.leb_le in H1; apply N.leb_le in H2.
    + rewrite (proj2 (N.leb_le 97 c) H1). lia.
    + assert (E : (97 <=? c)%N = false) by (apply N.leb_gt; lia).
      rewrite E. lia.
Qed.

Lemma parseHex_byte (c1 c0 : N) :
  ColorUtils.isHexDigit c1 = true -> ColorUtils.isHexDigit c0 = true ->
  (0 <= ColorUtils.parseHex [c1; c0] <= 255)%Z.
Proof.
  intros H1 H0. apply hexValue_range in H1. apply hexValue_range in H0.
  unfold ColorUtils.parseHex. cbn [fold_left]. lia.
Qed.

(** X29: a colour that [hexToRgb] accepts is six hexadecimal digits after an
    optional hash sign, and its components lie between 0 and 255; the
    brightness of any string lies between 0 and 255, and is 0 for a string
    that is not a colour. *)
Theorem hexToRgb_range (hex : jsstring) :
  match ColorUtils.hexToRgb hex with
  | Some rgb =>
    (0 <= Rgb.r rgb <= 255)%Z /\ (0 <= Rgb.g rgb <= 255)%Z /\ (0 <= Rgb.b rgb <= 255)%Z
    /\ (List.length hex = 6%nat \/ List.length hex = 7%nat /\ hd_error hex = Some 35%N)
  | None => ColorUtils.getBrightness hex = 0
  end
  /\ 0 <= ColorUtils.getBrightness hex <= 255.
Proof.
  assert (Hsome : forall rgb, ColorUtils.hexToRgb hex = Some rgb ->
            (0 <= Rgb.r rgb <= 255)%Z /\ (0 <= Rgb.g rgb <= 255)%Z
            /\ (0 <= Rgb.b rgb <= 255)%Z
            /\ (List.length hex = 6%nat
                \/ List.length hex = 7%nat /\ hd_error hex = Some 35%N)).
  { intros rgb. unfold ColorUtils.hexToRgb. cbv zeta.
    set (digits := match hex with
                   | [] => hex
                   | c :: rest => if (c =? 35)%N then rest else hex
                   end).
    assert (Hlen : List.length digits = 6%nat ->
                   List.length hex = 6%nat
                   \/ List.length hex = 7%nat /\ hd_error hex = Some 35%N).
    { unfold digits. destruct hex as [|c rest]; [intros H; left; exact H|].
      destruct (c =? 35)%N eqn:E; [|intros H; left; exact H].
      apply N.eqb_eq in E. subst c. intros H. right. cbn [List.length hd_error].
      split; [rewrite H; reflexivity | reflexivity]. }
    destruct digits as [|r1 [|r0 [|g1 [|g0 [|b1 [|b0 [|extra rest]]]]]]];
      try discriminate.
    destruct (forallb ColorUtils.isHexDigit [r1; r0; g1; g0; b1; b0]) eqn:Eall;
      [|discriminate].
    cbn [forallb] in Eall. rewrite !andb_true_iff in Eall.
    destruct Eall as [Hr1 [Hr0 [Hg1 [Hg0 [Hb1 [Hb0 _]]]]]].
    intros E. injection E as <-. cbn [Rgb.r Rgb.g Rgb.b].
    split; [apply parseHex_byte; assumption|].
    split; [apply parseHex_byte; assumption|].
    split; [apply parseHex_byte; assumption|].
    apply Hlen. reflexivity. }
  unfold ColorUtils.getBrightness.
  destruct (ColorUtils.hexToRgb hex) as [rgb|]; [|split; [reflexivity | split; discriminate]].
  destruct (Hsome rgb eq_refl) as [Hr [Hg [Hb Hlen]]].
  split; [repeat split; solve [apply Hr | apply Hg | apply Hb | exact Hlen]|].
  assert (Qr : 0 <= inject_Z (Rgb.r rgb) <= 255)
    by (change 0 with (inject_Z 0); change 255 with (inject_Z 255);
        rewrite <- !Zle_Qle; exact Hr).
  assert (Qg : 0 <= inject_Z (Rgb.g rgb) <= 255)
    by (change 0 with (inject_Z 0); change 255 with (inject_Z 255);
        rewrite <- !Zle_Qle; exact Hg).
  assert (Qb : 0 <= inject_Z (Rgb.b rgb) <= 255)
    by (change 0 with (inject_Z 0); change 255 with (inject_Z 255);
        rewrite <- !Zle_Qle; exact Hb).
  set (weighted := inject_Z (Rgb.r rgb) * 299 + inject_Z (Rgb.g rgb) * 587
                   + inject_Z (Rgb.b rgb) * 114).
  assert (Hw : 0 <= weighted / 1000 <= 255).
  { unfold weighted. split; [apply Qle_shift_div_l | apply Qle_shift_div_r]; lra. }
  destruct (Math_round_bounds (weighted / 1000) 0 255) as [H0 H1];
    [change (inject_Z 0) with 0; lra | change (inject_Z 255) with 255; lra |].
  change (inject_Z 0) with 0 in H0. change (inject_Z 255) with 255 in H1.
  split; assumption.
Qed.

End ColorFacts.

Lemma hexToRgb_rgbToHex_witness :
  ColorUtils.hexToRgb (ColorUtils.rgbToHex 255 128 0)
  = Some {| Rgb.r := 255; Rgb.g := 128; Rgb.b := 0 |}
  /\ List.length (ColorUtils.rgbToHex 255 128 0) = 7%nat.
Proof.
  apply (hexToRgb_rgbToHex 255 128 0); lia.
Defined.

Section RuleMatchFacts.
Context {SC : StringCase} {RE : RegExpEngine}.






End RuleMatchFacts.


(* ================================================================= *)
(** * Part XVIII: the score on binary64 numbers *)
(* ================================================================= *)

(** ** The rounding to the nearest binary64 number *)

Section Binary64Facts.





























End Binary64Facts.

(** ** Numbers *)

Section NumberFacts64.
Context {R : Double.Rounding}.








Hypothesis Hlaw : Double.lawful R.





















End NumberFacts64.

(** ** The score *)

Section ScoreFacts64.
Context {R : Double.Rounding} {ML : Double.MathLib}.





End ScoreFacts64.

Lemma exactRounding_lawful : Double.lawful Double.exactRounding.
Proof. split; [intros x y H; exact H | intros z _; reflexivity]. Qed.



(** With a competition weight of -1 and a positive volume weight the same
    keyword has an infinite raw score, and scores 100. *)
Lemma calculateScore_zero_denominator_example :
  @Double.rawScoreOf Double.binary64 Double.identityLog
    (Double.literalWeights 0.7 (- (1)) 0.1) Double.crowded Double.crowdedStats
  = Double.Infinity false
  /\ Double.KeywordScoreResult.score
       (@Double.KeywordScorer.calculateScore Double.binary64 Double.identityLog
          (KeywordScorer.constructor (Double.literalWeights 0.7 (- (1)) 0.1))
          Double.crowded (Some Double.crowdedStats))
     = Double.Fin 100.
Proof. split; vm_compute; reflexivity. Qed.

(** With the weights 0.35, 0.3 and 0.1 a keyword of competition 40 in a batch
    of one scores 15.62 on binary64 numbers, where the formula on exact
    decimals gives 15.63. *)
Lemma calculateScore_rounding_example :
  fst (KeywordScorer.calculateGroupStats
         (KeywordScorer.constructor (Double.literalWeights 0.35 0.3 0.1)) [Double.moderate])
  = Double.moderateStats
  /\ Double.KeywordScoreResult.score
       (@Double.KeywordScorer.calculateScore Double.binary64 Double.identityLog
          (KeywordScorer.constructor (Double.literalWeights 0.35 0.3 0.1))
          Double.moderate (Some Double.moderateStats))
     = @Double.lit Double.binary64 15.62
  /\ Double.same
       (Double.KeywordScoreResult.score
          (@Double.KeywordScorer.calculateScore Double.exactRounding Double.identityLog
             (KeywordScorer.constructor
                {| AlgorithmWeights.volume := 0.35; AlgorithmWeights.competition := 0.3;
                   AlgorithmWeights.tag := 0.1; AlgorithmWeights.ctr := None |})
             Double.moderate (Some Double.moderateStats)))
       (Double.Fin 15.63).
Proof.
  split; [vm_compute; reflexivity|]. split; [vm_compute; reflexivity|].
  vm_compute. reflexivity.
Qed.
